(** * WebWorldWind: tile pyramid, GPU resource cache and their consumers

    A shallow embedding of the parts of the library that the design
    specification of the tile pyramid and the GPU resource cache talks
    about, followed by the properties proved of them.

    Embedded from the code, function by function:
    - [WorldWind]       src/constants.js
    - [GeoTiffUtil]     src/formats/geotiff/GeoTiffUtil.js
    - [CompassLayer]    src/layer/CompassLayer.js
    - [ColladaScene]    src/formats/collada/ColladaScene.js
    - [GroundProgram]   src/shaders/GroundProgram.js
    - [SkyProgram]      src/shaders/SkyProgram.js
    - the pyramids configured by BMNGLayer, BMNGLandsatLayer, BingWMSLayer
      and WcsEarthElevationModel (in [TileLevelSet])

    Modelled from the specification, their code not being among the
    sources:
    - [GpuResourceCache]   (spec sections 3 and 4.3)
    - [RetrievalPipeline]  (spec sections 4.4 and 5)
    - [TileLevelSet]       (spec sections 3 and 4.1)

    The definitions come first, module by module; the facts follow, in
    modules named after the ones they are about. *)

From Stdlib Require Import ZArith NArith QArith Qround Qminmax String Ascii List Sorted Lia Lqa.
From Stdlib Require Import Strings.Byte SpecFloat.
From stdpp Require Import base gmap strings list pretty.

(* ===================================================================== *)
(** * Resource keys and GPU handles                                        *)
(* ===================================================================== *)

(** A [ResourceKey] is an opaque token (spec section 3).  The sources use
    two kinds: a string built from a path (ColladaScene's texture keys) and
    a token issued by [generateCacheKey] (ColladaScene's buffer keys). *)
Inductive ResourceKey :=
| NamedKey (name : string)
| GeneratedKey (serial : nat).

#[global] Instance ResourceKey_eq_dec : EqDecision ResourceKey.
Proof. solve_decision. Defined.

(** A resource handle is the identity of a GPU object: a texture or a
    buffer created by the graphics context. *)
Inductive Handle :=
| TextureHandle (id : nat)
| BufferHandle (id : nat).

#[global] Instance Handle_eq_dec : EqDecision Handle.
Proof. solve_decision. Defined.

(* ===================================================================== *)
(** * Tile addresses                                                       *)
(* ===================================================================== *)

(** A [TileAddress] is the immutable identity (level, row, column) of a tile
    in the quad-tree pyramid (spec section 3); two addresses are equal iff
    all three fields match. *)
Record TileAddress := mkAddress {
  level : nat;
  row : nat;
  column : nat
}.

#[global] Instance TileAddress_eq_dec : EqDecision TileAddress.
Proof. solve_decision. Defined.

#[global] Instance TileAddress_countable : Countable TileAddress.
Proof.
  apply (inj_countable' (λ a, (level a, row a, column a))
                        (λ t, mkAddress t.1.1 t.1.2 t.2)).
  by intros [].
Defined.

(* ===================================================================== *)
(** * Exceptions                                                           *)
(* ===================================================================== *)

(** The exceptions in play: the library's [ArgumentError], with the message
    key it is logged with; the [RangeError] of a DataView read outside its
    buffer; and the [TypeError] of a property read on undefined. *)
Inductive Error :=
| ArgumentError (message : string)
| RangeError
| TypeError.

Inductive Result (A : Type) :=
| Return (value : A)
| Throw (e : Error).
Arguments Return {A} value.
Arguments Throw {A} e.

Definition bind {A B : Type} (r : Result A) (f : A → Result B) : Result B :=
  match r with
  | Return a => f a
  | Throw e => Throw e
  end.

Notation "x <- r ;; k" := (bind r (λ x, k))
  (at level 100, r at next level, right associativity).

Definition throwsArgumentError {A : Type} (r : Result A) : Prop :=
  ∃ message, r = Throw (ArgumentError message).

(* ===================================================================== *)
(** * Constants  (src/constants.js)                                        *)
(* ===================================================================== *)

Module WorldWind.

Definition ABSOLUTE : string := "absolute".
Definition CLAMP_TO_GROUND : string := "clampToGround".
Definition RELATIVE_TO_GLOBE : string := "relativeToGlobe".
Definition RELATIVE_TO_GROUND : string := "relativeToGround".
Definition RELATIVE_TO_SCREEN : string := "relativeToScreen".

(** [configuration.gpuCacheSize]: 250e6 bytes. *)
Definition gpuCacheSize : N := 250000000.

End WorldWind.

(* ===================================================================== *)
(** * GpuResourceCache (spec section 4.3)                                  *)
(* ===================================================================== *)

Module GpuResourceCache.

(** Spec section 3: CacheEntry is
    {key, resource handle, byteSize, lastTouchedFrame}. *)
Record CacheEntry := mkEntry {
  key : ResourceKey;
  resource : Handle;
  byteSize : N;
  lastTouchedFrame : nat
}.

(** The cache: the configured byte budget, the frame counter it is given by
    the renderer (spec section 6), the resident entries in insertion order,
    and the pool [generateCacheKey] draws from. *)
Record Cache := mkCache {
  budget : N;
  currentFrame : nat;
  entries : list CacheEntry;
  cacheKeyPool : nat
}.

Definition emptyCache (capacity : N) : Cache :=
  {| budget := capacity; currentFrame := 0; entries := []; cacheKeyPool := 0 |}.

Definition setEntries (es : list CacheEntry) (c : Cache) : Cache :=
  {| budget := budget c; currentFrame := currentFrame c;
     entries := es; cacheKeyPool := cacheKeyPool c |}.

Fixpoint totalSize (es : list CacheEntry) : N :=
  match es with
  | [] => 0
  | e :: rest => byteSize e + totalSize rest
  end.

Definition residentBytes (c : Cache) : N := totalSize (entries c).

Fixpoint findEntry (k : ResourceKey) (es : list CacheEntry) : option CacheEntry :=
  match es with
  | [] => None
  | e :: rest => if decide (key e = k) then Some e else findEntry k rest
  end.

Fixpoint removeKey (k : ResourceKey) (es : list CacheEntry) : list CacheEntry :=
  match es with
  | [] => []
  | e :: rest => if decide (key e = k) then removeKey k rest else e :: removeKey k rest
  end.

Fixpoint touchKey (k : ResourceKey) (frame : nat) (es : list CacheEntry) : list CacheEntry :=
  match es with
  | [] => []
  | e :: rest =>
      if decide (key e = k)
      then mkEntry (key e) (resource e) (byteSize e) frame :: touchKey k frame rest
      else e :: touchKey k frame rest
  end.

Definition removeKeys (ks : list ResourceKey) (es : list CacheEntry) : list CacheEntry :=
  foldl (λ acc k, removeKey k acc) es ks.

(** An entry may be evicted unless it was touched in the current frame. *)
Definition evictable (frame : nat) (e : CacheEntry) : bool :=
  negb (lastTouchedFrame e =? frame).

(** The next victim: the least recently touched evictable entry; among
    entries touched in the same frame, the one inserted first. *)
Fixpoint lruCandidate (frame : nat) (es : list CacheEntry) : option CacheEntry :=
  match es with
  | [] => None
  | e :: rest =>
      if evictable frame e then
        match lruCandidate frame rest with
        | Some b => if lastTouchedFrame e <=? lastTouchedFrame b then Some e else Some b
        | None => Some e
        end
      else lruCandidate frame rest
  end.

(** "evicts least-recently-touched entries (excluding entries touched in the
    current frame) until budget is satisfied": the loop removes one victim
    per round while the new resource does not fit and a victim exists.  It
    returns the surviving entries and the victims in eviction order.  Every
    round removes an entry, so [length es] rounds always suffice. *)
Fixpoint makeSpace (rounds : nat) (frame : nat) (capacity size : N)
    (es : list CacheEntry) : list CacheEntry * list CacheEntry :=
  match rounds with
  | O => (es, [])
  | S rounds' =>
      if (capacity <? totalSize es + size)%N then
        match lruCandidate frame es with
        | Some victim =>
            let '(kept, evicted) :=
              makeSpace rounds' frame capacity size (removeKey (key victim) es) in
            (kept, victim :: evicted)
        | None => (es, [])
        end
      else (es, [])
  end.

(** The outcome of [putResource]: the entries whose resources were released
    (the replaced entry, then the victims in eviction order), or the
    [CacheOverflow] failure of spec section 7. *)
Inductive PutOutcome :=
| Inserted (released : list CacheEntry)
| CacheOverflow.

(** Modelled from the spec: GpuResourceCache.resourceForKey, whose code is
    not among the sources: "resourceForKey(key) -> handle or absent ...
    touching a present entry updates its recency marker". *)
Definition resourceForKey (k : ResourceKey) (c : Cache) : option Handle * Cache :=
  match findEntry k (entries c) with
  | Some e => (Some (resource e), setEntries (touchKey k (currentFrame c) (entries c)) c)
  | None => (None, c)
  end.

(** Modelled from the spec: GpuResourceCache.putResource, whose code is not
    among the sources: "inserts or replaces; if inserting would exceed the
    configured byte budget, evicts least-recently-touched entries (excluding
    entries touched in the current frame ...) until budget is satisfied,
    then inserts.  If a single resource's size exceeds the entire budget,
    insertion fails and is reported as CacheOverflow."  The budget is a
    "strong post-condition" of the call: when the entries that may be
    evicted do not make room for the resource, nothing is evicted and the
    insertion fails, reported as CacheOverflow as well. *)
Definition putResource (k : ResourceKey) (r : Handle) (size : N) (c : Cache)
    : PutOutcome * Cache :=
  if (budget c <? size)%N then (CacheOverflow, c)
  else
    let replaced := match findEntry k (entries c) with Some e => [e] | None => [] end in
    let others := removeKey k (entries c) in
    let '(kept, evicted) :=
      makeSpace (length others) (currentFrame c) (budget c) size others in
    if (budget c <? totalSize kept + size)%N then (CacheOverflow, c)
    else
      (Inserted (replaced ++ evicted),
       setEntries (kept ++ [mkEntry k r size (currentFrame c)]) c).

(** Modelled from the spec: GpuResourceCache.removeResource and clear, whose
    code is not among the sources: "explicit release". *)
Definition removeResource (k : ResourceKey) (c : Cache) : Cache :=
  setEntries (removeKey k (entries c)) c.

Definition clear (c : Cache) : Cache := setEntries [] c.

(** Modelled from the spec: GpuResourceCache.generateCacheKey, whose code is
    not among the sources: "issues a fresh unique token". *)
Definition generateCacheKey (c : Cache) : ResourceKey * Cache :=
  (GeneratedKey (S (cacheKeyPool c)),
   {| budget := budget c; currentFrame := currentFrame c;
      entries := entries c; cacheKeyPool := S (cacheKeyPool c) |}).

(** Modelled from the spec: the frame counter, "consumed from
    LayerRenderer ... for recency marking" (section 6): the renderer moves
    it on at the start of a frame. *)
Definition beginFrame (c : Cache) : Cache :=
  {| budget := budget c; currentFrame := S (currentFrame c);
     entries := entries c; cacheKeyPool := cacheKeyPool c |}.

(** Sequences of cache calls, as the render thread issues them. *)
Inductive Op :=
| PutResource (k : ResourceKey) (r : Handle) (size : N)
| RemoveResource (k : ResourceKey)
| Clear
| ResourceForKey (k : ResourceKey)
| BeginFrame.

Definition step (op : Op) (c : Cache) : Cache :=
  match op with
  | PutResource k r size => snd (putResource k r size c)
  | RemoveResource k => removeResource k c
  | Clear => clear c
  | ResourceForKey k => snd (resourceForKey k c)
  | BeginFrame => beginFrame c
  end.

(** The entries a call releases: evicted, removed or replaced. *)
Definition released (op : Op) (c : Cache) : list CacheEntry :=
  match op with
  | PutResource k r size =>
      match fst (putResource k r size c) with
      | Inserted rel => rel
      | CacheOverflow => []
      end
  | RemoveResource k => match findEntry k (entries c) with Some e => [e] | None => [] end
  | Clear => entries c
  | ResourceForKey _ => []
  | BeginFrame => []
  end.

Fixpoint run (ops : list Op) (c : Cache) : Cache :=
  match ops with
  | [] => c
  | op :: rest => run rest (step op c)
  end.

Definition resident (k : ResourceKey) (c : Cache) : bool :=
  match findEntry k (entries c) with Some _ => true | None => false end.

Definition withinBudget (c : Cache) : Prop := (residentBytes c <= budget c)%N.

(** Bytes held by the entries a [putResource] on [k] may not evict: those
    touched in the current frame, other than the entry being replaced. *)
Fixpoint pinnedBytes (k : ResourceKey) (frame : nat) (es : list CacheEntry) : N :=
  match es with
  | [] => 0
  | e :: rest =>
      if decide (key e = k) then pinnedBytes k frame rest
      else if evictable frame e then pinnedBytes k frame rest
      else byteSize e + pinnedBytes k frame rest
  end.

(** A call releases [k] when it evicts, removes or replaces [k]'s entry. *)
Definition releases (k : ResourceKey) (op : Op) (c : Cache) : bool :=
  bool_decide (k ∈ key <$> released op c).

(** No call of the sequence releases [k]. *)
Fixpoint keeps (k : ResourceKey) (ops : list Op) (c : Cache) : bool :=
  match ops with
  | [] => true
  | op :: rest => negb (releases k op c) && keeps k rest (step op c)
  end.

(** "At most one entry per key". *)
Definition uniqueKeys (c : Cache) : Prop := NoDup (key <$> entries c).

(** The resource the cache holds for a key. *)
Definition holds (k : ResourceKey) (r : Handle) (c : Cache) : Prop :=
  ∃ e, findEntry k (entries c) = Some e ∧ resource e = r.

(** An entry is fresh when it is the only one under its key and was touched
    in the current frame. *)
Definition fresh (k : ResourceKey) (r : Handle) (c : Cache) : Prop :=
  ∃ kept s, entries c = kept ++ [mkEntry k r s (currentFrame c)] ∧
            ∀ e, e ∈ kept → key e ≠ k.

End GpuResourceCache.

(* ===================================================================== *)
(** * RetrievalPipeline (spec sections 4.4 and 5)                          *)
(* ===================================================================== *)

Module RetrievalPipeline.

(** "State machine per PendingRequest: QUEUED -> IN_FLIGHT -> {DONE, FAILED}" *)
Inductive RequestState := QUEUED | IN_FLIGHT | DONE | FAILED.

#[global] Instance RequestState_eq_dec : EqDecision RequestState.
Proof. solve_decision. Defined.

(** Spec section 4.2: the reasons a fetch may fail. *)
Inductive FailureReason := NetworkUnavailable | NotFound | Timeout | DecodeError.

(** [Timeout] and [NetworkUnavailable] are transient, the others permanent
    (spec section 7). *)
Definition transient (reason : FailureReason) : bool :=
  match reason with
  | Timeout | NetworkUnavailable => true
  | NotFound | DecodeError => false
  end.

(** What a worker reports when its fetch and decode end. *)
Inductive FetchResult :=
| Decoded (resource : Handle) (byteSize : N)
| Failure (reason : FailureReason).

(** A tile source is named by its discriminator; a request is identified by
    the (source, address) pair. *)
Abbreviation RequestId := (string * TileAddress)%type.

(** Spec section 3: PendingRequest is {address, resourceKey, state}; the
    attempt count serves the retry limit, and [cancelled] marks an
    in-flight request whose result is to be discarded. *)
Record PendingRequest := mkRequest {
  address : TileAddress;
  resourceKey : ResourceKey;
  state : RequestState;
  attempts : nat;
  cancelled : bool
}.

(** The pipeline (spec section 5): the de-duplication table, which holds
    the requests that are QUEUED or IN_FLIGHT; the "queue of
    completed/failed PendingRequests" that the render thread drains; the
    fetches on the worker pool whose result is awaited; the fetches whose
    deadline has passed while their I/O is still pending; the fetches ever
    started; and the keys recorded as permanently absent. *)
Record Pipeline := mkPipeline {
  retryLimit : nat;
  table : gmap RequestId PendingRequest;
  completed : list (RequestId * PendingRequest);
  running : list RequestId;
  overdue : list RequestId;
  started : list RequestId;
  absent : gset RequestId
}.

Definition emptyPipeline (limit : nat) : Pipeline :=
  {| retryLimit := limit; table := ∅; completed := []; running := [];
     overdue := []; started := []; absent := ∅ |}.

Definition setTable (t : gmap RequestId PendingRequest) (p : Pipeline) : Pipeline :=
  {| retryLimit := retryLimit p; table := t; completed := completed p;
     running := running p; overdue := overdue p;
     started := started p; absent := absent p |}.

Definition withState (s : RequestState) (r : PendingRequest) : PendingRequest :=
  {| address := address r; resourceKey := resourceKey r; state := s;
     attempts := attempts r; cancelled := cancelled r |}.

Definition pending (r : PendingRequest) : bool :=
  match state r with
  | QUEUED | IN_FLIGHT => true
  | DONE | FAILED => false
  end.

Fixpoint removeOne (id : RequestId) (l : list RequestId) : list RequestId :=
  match l with
  | [] => []
  | x :: rest => if decide (x = id) then rest else x :: removeOne id rest
  end.

Section WithKeys.

(** The key a source derives for an address (spec section 4.2, [keyFor]). *)
Variable keyFor : string → TileAddress → ResourceKey.

(** Modelled from the spec: RetrievalPipeline.requestTile, whose code is not
    among the sources: "if a PendingRequest already exists for this
    (source, address) in QUEUED or IN_FLIGHT, returns the existing one".
    The check and the insertion are one critical section (spec section 5),
    so the call is one atomic step.  A key recorded as permanently absent
    gets a FAILED request and no fetch (spec section 7). *)
Definition requestTile (addr : TileAddress) (source : string) (p : Pipeline)
    : PendingRequest * Pipeline :=
  match table p !! (source, addr) with
  | Some existing => (existing, p)
  | None =>
      if decide ((source, addr) ∈ absent p)
      then (mkRequest addr (keyFor source addr) FAILED 0 false, p)
      else
        let fresh := mkRequest addr (keyFor source addr) QUEUED 0 false in
        (fresh, setTable (<[(source, addr) := fresh]> (table p)) p)
  end.

(** Modelled from the spec: the start of a fetch, whose code is not among
    the sources: a worker takes a request that is QUEUED, which becomes
    IN_FLIGHT ("QUEUED -> IN_FLIGHT"), and its fetch runs from then on. *)
Definition workerStart (id : RequestId) (p : Pipeline) : Pipeline :=
  match table p !! id with
  | Some r =>
      match state r with
      | QUEUED =>
          {| retryLimit := retryLimit p;
             table := <[id := mkRequest (address r) (resourceKey r) IN_FLIGHT
                                        (S (attempts r)) (cancelled r)]> (table p);
             completed := completed p;
             running := id :: running p;
             overdue := overdue p;
             started := id :: started p;
             absent := absent p |}
      | _ => p
      end
  | None => p
  end.

(** Modelled from the spec: what becomes of an in-flight request when its
    attempt ends with [result]: success "transitions to DONE; on failure
    with Timeout, re-queues up to a configured retry limit ...; on
    NotFound/DecodeError, transitions to FAILED permanently".  A request
    that is DONE or FAILED leaves the table for the queue of completed
    requests; a permanent failure is "recorded per key"; the result of a
    cancelled request is discarded. *)
Definition settle (id : RequestId) (r : PendingRequest) (result : FetchResult)
    (p : Pipeline) : Pipeline :=
  if cancelled r then setTable (delete id (table p)) p
  else
    match result with
    | Decoded _ _ =>
        {| retryLimit := retryLimit p; table := delete id (table p);
           completed := completed p ++ [(id, withState DONE r)];
           running := running p; overdue := overdue p;
           started := started p; absent := absent p |}
    | Failure reason =>
        if transient reason && (attempts r <? retryLimit p)
        then setTable (<[id := withState QUEUED r]> (table p)) p
        else
          {| retryLimit := retryLimit p; table := delete id (table p);
             completed := completed p ++ [(id, withState FAILED r)];
             running := running p; overdue := overdue p;
             started := started p; absent := absent p ∪ {[id]} |}
    end.

(** Modelled from the spec: the completion of a fetch, whose code is not
    among the sources: the fetch of an in-flight request ends and reports
    its result. *)
Definition workerFinish (id : RequestId) (result : FetchResult) (p : Pipeline) : Pipeline :=
  match table p !! id with
  | Some r =>
      match state r with
      | IN_FLIGHT =>
          let p := settle id r result p in
          {| retryLimit := retryLimit p; table := table p;
             completed := completed p;
             running := removeOne id (running p);
             overdue := overdue p;
             started := started p; absent := absent p |}
      | _ => p
      end
  | None => p
  end.

(** Modelled from the spec: the deadline of a request (section 5), whose
    code is not among the sources: "a configurable per-request deadline
    after which Timeout failure fires even if the underlying I/O is still
    pending".  The request is settled as failed with Timeout; its fetch is
    not terminated ("no forced thread termination") and stays pending, its
    result no longer awaited. *)
Definition deadlinePassed (id : RequestId) (p : Pipeline) : Pipeline :=
  match table p !! id with
  | Some r =>
      match state r with
      | IN_FLIGHT =>
          let p := settle id r (Failure Timeout) p in
          {| retryLimit := retryLimit p; table := table p;
             completed := completed p;
             running := removeOne id (running p);
             overdue := id :: overdue p;
             started := started p; absent := absent p |}
      | _ => p
      end
  | None => p
  end.

(** The I/O of a fetch whose deadline has passed ends; what it brings is
    discarded. *)
Definition overdueFinish (id : RequestId) (p : Pipeline) : Pipeline :=
  {| retryLimit := retryLimit p; table := table p; completed := completed p;
     running := running p;
     overdue := removeOne id (overdue p);
     started := started p; absent := absent p |}.

(** Modelled from the spec: cancellation (section 5), whose code is not
    among the sources: a queued request is "removed from the worker queue if
    not yet started; allowed to complete and be discarded if already
    IN_FLIGHT". *)
Definition cancel (id : RequestId) (p : Pipeline) : Pipeline :=
  match table p !! id with
  | Some r =>
      match state r with
      | QUEUED => setTable (delete id (table p)) p
      | IN_FLIGHT =>
          setTable (<[id := mkRequest (address r) (resourceKey r) IN_FLIGHT
                                      (attempts r) true]> (table p)) p
      | _ => p
      end
  | None => p
  end.

(** Modelled from the spec: RetrievalPipeline.drainCompleted, whose code is
    not among the sources: the render loop takes the completed and failed
    requests once per frame; they are destroyed once consumed. *)
Definition drainCompleted (p : Pipeline) : list (RequestId * PendingRequest) * Pipeline :=
  (completed p,
   {| retryLimit := retryLimit p; table := table p; completed := [];
      running := running p; overdue := overdue p;
      started := started p; absent := absent p |}).

(** The atomic steps of the pipeline.  Calls from several threads interleave
    in some order; a schedule is the list of steps in that order. *)
Inductive Event :=
| RequestTile (addr : TileAddress) (source : string)
| WorkerStart (id : RequestId)
| WorkerFinish (id : RequestId) (result : FetchResult)
| DeadlinePassed (id : RequestId)
| OverdueFinish (id : RequestId)
| Cancel (id : RequestId)
| DrainCompleted.

Definition step (e : Event) (p : Pipeline) : Pipeline :=
  match e with
  | RequestTile addr source => snd (requestTile addr source p)
  | WorkerStart id => workerStart id p
  | WorkerFinish id result => workerFinish id result p
  | DeadlinePassed id => deadlinePassed id p
  | OverdueFinish id => overdueFinish id p
  | Cancel id => cancel id p
  | DrainCompleted => snd (drainCompleted p)
  end.

Fixpoint run (schedule : list Event) (p : Pipeline) : Pipeline :=
  match schedule with
  | [] => p
  | e :: rest => run rest (step e p)
  end.

(** The fetches, among those given, that fetch the resource of key [K]. *)
Definition fetchesFor (K : ResourceKey) (fetches : list RequestId) : list RequestId :=
  filter (λ id, keyFor id.1 id.2 = K) fetches.

(** The number of fetches for [K] whose result is awaited. *)
Definition awaited (K : ResourceKey) (p : Pipeline) : nat :=
  length (fetchesFor K (running p)).

(** The number of underlying fetches for [K] that are in flight: those
    awaited and those whose deadline has passed. *)
Definition inFlight (K : ResourceKey) (p : Pipeline) : nat :=
  length (fetchesFor K (running p ++ overdue p)).

(** Spec section 4.2: keys are "unique within this source's namespace;
    namespaces from different sources never collide". *)
Definition collisionFree : Prop :=
  ∀ source addr source' addr',
    keyFor source addr = keyFor source' addr' → source = source' ∧ addr = addr'.

End WithKeys.

Definition isDeadline (e : Event) : bool :=
  match e with DeadlinePassed _ => true | _ => false end.

(** The steps of callers and of workers taking up requests. *)
Definition isRequestOrStart (e : Event) : bool :=
  match e with RequestTile _ _ | WorkerStart _ => true | _ => false end.

(** A key function that keeps the contract: the token is the number of the
    (source, address) pair, in decimal. *)
Definition numberedKey (source : string) (addr : TileAddress) : ResourceKey :=
  NamedKey (pretty (Npos (encode (source, addr)))).

(** The number of awaited fetches for the request [id]. *)
Definition fetching (id : RequestId) (p : Pipeline) : nat :=
  length (filter (λ x, x = id) (running p)).

(** The number of fetches the table accounts for: one for a request that
    is IN_FLIGHT, none otherwise. *)
Definition flying (id : RequestId) (p : Pipeline) : nat :=
  match table p !! id with
  | Some r => match state r with IN_FLIGHT => 1 | _ => 0 end
  | None => 0
  end.

(** The awaited fetches and the table agree, and the table holds pending
    requests only. *)
Definition consistent (p : Pipeline) : Prop :=
  (∀ id, fetching id p = flying id p) ∧
  (∀ id r, table p !! id = Some r → pending r = true).

End RetrievalPipeline.

(* ===================================================================== *)
(** * TileLevelSet (spec sections 3 and 4.1)                               *)
(* ===================================================================== *)

Module TileLevelSet.

(** Spec section 3: a Sector is "min/max latitude & longitude (degrees)".
    Angles are exact rationals. *)
Record Sector := mkSector {
  minLatitude : Q;
  maxLatitude : Q;
  minLongitude : Q;
  maxLongitude : Q
}.

(** [Sector.FULL_SPHERE], the extent every layer of the sources passes to
    its tiled base class. *)
Definition FULL_SPHERE : Sector := mkSector (-90) 90 (-180) 180.

Definition contains (s : Sector) (latitude longitude : Q) : Prop :=
  (minLatitude s <= latitude)%Q ∧ (latitude <= maxLatitude s)%Q ∧
  (minLongitude s <= longitude)%Q ∧ (longitude <= maxLongitude s)%Q.

(** Spec section 2: a TileLevelSet "describes the pyramid: number of levels,
    tile pixel size, geographic extent, resolution per level"; the tile
    count of a level is the level-0 tile count times 2^level (section 3). *)
Record LevelSet := mkLevelSet {
  extent : Sector;
  numLevels : nat;
  tileSize : positive;
  levelZeroRows : positive;
  levelZeroColumns : positive
}.

(** The pyramids the layers of the sources configure: extent, level-zero
    tile delta (45 by 45 degrees: 4 rows, 8 columns), number of levels, and
    256-pixel tiles.  BMNGLayer has 5 levels, WcsEarthElevationModel 12,
    BMNGLandsatLayer 10, BingWMSLayer 16. *)
Definition BMNGLayer : LevelSet := mkLevelSet FULL_SPHERE 5 256 4 8.
Definition WcsEarthElevationModel : LevelSet := mkLevelSet FULL_SPHERE 12 256 4 8.
Definition BMNGLandsatLayer : LevelSet := mkLevelSet FULL_SPHERE 10 256 4 8.
Definition BingWMSLayer : LevelSet := mkLevelSet FULL_SPHERE 16 256 4 8.

Definition rowsAt (ls : LevelSet) (l : nat) : Z :=
  Z.pos (levelZeroRows ls) * 2 ^ Z.of_nat l.

Definition columnsAt (ls : LevelSet) (l : nat) : Z :=
  Z.pos (levelZeroColumns ls) * 2 ^ Z.of_nat l.

Definition deltaLatitude (ls : LevelSet) (l : nat) : Q :=
  (maxLatitude (extent ls) - minLatitude (extent ls)) / inject_Z (rowsAt ls l).

Definition deltaLongitude (ls : LevelSet) (l : nat) : Q :=
  (maxLongitude (extent ls) - minLongitude (extent ls)) / inject_Z (columnsAt ls l).

(** Resolution of a level, in degrees per pixel: smaller is finer. *)
Definition resolution (ls : LevelSet) (l : nat) : Q :=
  deltaLatitude ls l / inject_Z (Z.pos (tileSize ls)).

(** A Tile's sector is "computed from address + pyramid geometry". *)
Definition tileSector (ls : LevelSet) (a : TileAddress) : Sector :=
  let dLat := deltaLatitude ls (level a) in
  let dLon := deltaLongitude ls (level a) in
  mkSector
    (minLatitude (extent ls) + inject_Z (Z.of_nat (row a)) * dLat)
    (minLatitude (extent ls) + inject_Z (Z.of_nat (row a) + 1) * dLat)
    (minLongitude (extent ls) + inject_Z (Z.of_nat (column a)) * dLon)
    (minLongitude (extent ls) + inject_Z (Z.of_nat (column a) + 1) * dLon).

(** "selects the coarsest level whose per-tile resolution is <=
    targetResolution": levels are tried from the coarsest on.  The spec does
    not say what is selected when even the finest level is too coarse; the
    search then ends at the finest level. *)
Fixpoint searchLevel (ls : LevelSet) (target : Q) (l remaining : nat) : nat :=
  match remaining with
  | O => l
  | S k => if Qle_bool (resolution ls l) target then l
           else searchLevel ls target (S l) k
  end.

Definition levelFor (ls : LevelSet) (target : Q) : nat :=
  searchLevel ls target 0 (numLevels ls - 1).

(** "sector exceeding the pyramid's configured extent clips to it". *)
Definition clip (s e : Sector) : option Sector :=
  let c := mkSector (Qmax (minLatitude s) (minLatitude e))
                    (Qmin (maxLatitude s) (maxLatitude e))
                    (Qmax (minLongitude s) (minLongitude e))
                    (Qmin (maxLongitude s) (maxLongitude e)) in
  if Qle_bool (minLatitude c) (maxLatitude c)
     && Qle_bool (minLongitude c) (maxLongitude c)
  then Some c else None.

(** The cell of a regular grid holding [x]; the upper edge of the grid
    belongs to the last cell. *)
Definition cellOf (origin delta x : Q) (count : Z) : Z :=
  Z.min (Qfloor ((x - origin) / delta)) (count - 1).

Definition rowOf (ls : LevelSet) (l : nat) (latitude : Q) : Z :=
  cellOf (minLatitude (extent ls)) (deltaLatitude ls l) latitude (rowsAt ls l).

Definition columnOf (ls : LevelSet) (l : nat) (longitude : Q) : Z :=
  cellOf (minLongitude (extent ls)) (deltaLongitude ls l) longitude (columnsAt ls l).

Definition span (first last : Z) : list nat :=
  Z.to_nat <$> seqZ first (last - first + 1).

(** One coverage query: the tiles of level [l] that meet the clipped sector,
    in row-major order. *)
Definition coverage (ls : LevelSet) (l : nat) (s : Sector) : list TileAddress :=
  match clip s (extent ls) with
  | None => []
  | Some c =>
      flat_map
        (λ r, (λ col, mkAddress l r col)
                <$> span (columnOf ls l (minLongitude c)) (columnOf ls l (maxLongitude c)))
        (span (rowOf ls l (minLatitude c)) (rowOf ls l (maxLatitude c)))
  end.

(** Modelled from the spec: TileLevelSet.tilesForSector, whose code is not
    among the sources: "selects the coarsest level whose per-tile resolution
    is <= targetResolution"; "canonical order is row-major within level";
    "sector spanning the antimeridian splits into two coverage queries;
    sector exceeding the pyramid's configured extent clips to it".  A sector
    has its minimum below its maximum (section 3), so it spans the
    antimeridian when its maximum longitude exceeds 180 degrees or its
    minimum longitude is below -180 degrees; the second query is for the
    part beyond, at its place on the globe. *)
Definition tilesForSector (ls : LevelSet) (s : Sector) (targetResolution : Q)
    : list TileAddress :=
  let l := levelFor ls targetResolution in
  if negb (Qle_bool (maxLongitude s) 180) then
    coverage ls l (mkSector (minLatitude s) (maxLatitude s) (minLongitude s) 180)
    ++ coverage ls l (mkSector (minLatitude s) (maxLatitude s)
                               (-180) (maxLongitude s - 360))
  else if negb (Qle_bool (-180) (minLongitude s)) then
    coverage ls l (mkSector (minLatitude s) (maxLatitude s) (-180) (maxLongitude s))
    ++ coverage ls l (mkSector (minLatitude s) (maxLatitude s)
                               (minLongitude s + 360) 180)
  else coverage ls l s.

(** The place on the globe, between -180 and 180 degrees, of a longitude
    that reaches beyond the antimeridian. *)
Definition wrapLongitude (longitude : Q) : Q :=
  if negb (Qle_bool longitude 180) then longitude - 360
  else if negb (Qle_bool (-180) longitude) then longitude + 360
  else longitude.

(** "ancestor address of A at level L" as a pure function: each step up
    halves row and column. *)
Definition ancestor (a : TileAddress) (l : nat) : TileAddress :=
  mkAddress l (row a / 2 ^ (level a - l)) (column a / 2 ^ (level a - l)).

(** A pyramid has at least one level and an extent of positive size on the
    globe, between -180 and 180 degrees of longitude. *)
Definition wellFormed (ls : LevelSet) : Prop :=
  0 < numLevels ls ∧
  (minLatitude (extent ls) < maxLatitude (extent ls))%Q ∧
  (minLongitude (extent ls) < maxLongitude (extent ls))%Q ∧
  (-180 <= minLongitude (extent ls))%Q ∧
  (maxLongitude (extent ls) <= 180)%Q.

End TileLevelSet.

(* ===================================================================== *)
(** * GeoTiffUtil  (src/formats/geotiff/GeoTiffUtil.js)                    *)
(* ===================================================================== *)

Module GeoTiffUtil.

(** A number read from the buffer: an integer, or an IEEE 754 binary64
    value. *)
Inductive Number :=
| Integer (z : Z)
| Double (f : spec_float).

(** A DataView is a window on the bytes of an ArrayBuffer. *)
Definition DataView := list byte.

Definition bytesAt (view : DataView) (byteOffset : Z) (count : nat)
    : Result (list byte) :=
  if (byteOffset <? 0)%Z
     || (Z.of_nat (length view) <? byteOffset + Z.of_nat count)%Z
  then Throw RangeError
  else Return (take count (drop (Z.to_nat byteOffset) view)).

Fixpoint bigEndian (bytes : list byte) (acc : Z) : Z :=
  match bytes with
  | [] => acc
  | b :: rest => bigEndian rest (acc * 256 + Z.of_N (Byte.to_N b))
  end.

Definition unsignedValue (littleEndian : bool) (bytes : list byte) : Z :=
  bigEndian (if littleEndian then rev bytes else bytes) 0.

(** Two's complement reading of a [width]-bit pattern. *)
Definition signedValue (width : Z) (u : Z) : Z :=
  if (u <? 2 ^ (width - 1))%Z then u else (u - 2 ^ width)%Z.

Definition getUint8 (view : DataView) (byteOffset : Z) : Result Z :=
  bytes <- bytesAt view byteOffset 1 ;; Return (unsignedValue false bytes).

Definition getInt8 (view : DataView) (byteOffset : Z) : Result Z :=
  bytes <- bytesAt view byteOffset 1 ;; Return (signedValue 8 (unsignedValue false bytes)).

Definition getUint16 (view : DataView) (byteOffset : Z) (littleEndian : bool) : Result Z :=
  bytes <- bytesAt view byteOffset 2 ;; Return (unsignedValue littleEndian bytes).

Definition getInt16 (view : DataView) (byteOffset : Z) (littleEndian : bool) : Result Z :=
  bytes <- bytesAt view byteOffset 2 ;;
  Return (signedValue 16 (unsignedValue littleEndian bytes)).

Definition getUint32 (view : DataView) (byteOffset : Z) (littleEndian : bool) : Result Z :=
  bytes <- bytesAt view byteOffset 4 ;; Return (unsignedValue littleEndian bytes).

Definition getInt32 (view : DataView) (byteOffset : Z) (littleEndian : bool) : Result Z :=
  bytes <- bytesAt view byteOffset 4 ;;
  Return (signedValue 32 (unsignedValue littleEndian bytes)).

(** The binary64 value of a 64-bit pattern: sign, 11 exponent bits, 52
    fraction bits. *)
Definition decodeFloat64 (bits : Z) : spec_float :=
  let sign := Z.testbit bits 63 in
  let e := Z.land (Z.shiftr bits 52) 2047 in
  let m := Z.land bits (2 ^ 52 - 1) in
  if (e =? 0)%Z then
    if (m =? 0)%Z then S754_zero sign else S754_finite sign (Z.to_pos m) (-1074)
  else if (e =? 2047)%Z then
    if (m =? 0)%Z then S754_infinity sign else S754_nan
  else S754_finite sign (Z.to_pos (m + 2 ^ 52)) (e - 1075).

Definition getFloat64 (view : DataView) (byteOffset : Z) (littleEndian : bool)
    : Result spec_float :=
  bytes <- bytesAt view byteOffset 8 ;;
  Return (decodeFloat64 (unsignedValue littleEndian bytes)).

(** The operator [>>>]: the left operand is taken modulo 2^32, the shift
    count modulo 32. *)
Definition zeroFillShiftRight (x count : Z) : Z :=
  Z.shiftr (x mod 2 ^ 32) (count mod 32).

(** A byte count as a caller passes it: undefined, or a number, which is
    NaN, an infinity, or a finite value, not always whole (the reader divides
    a bit count by 8). *)
Inductive ByteCount :=
| Undefined
| NotANumber
| Infinite (negative : bool)
| Bytes (n : Q).

(** [numOfBytes <= bound]: undefined is compared as NaN, and a comparison
    with NaN is false. *)
Definition atMost (numOfBytes : ByteCount) (bound : Q) : bool :=
  match numOfBytes with
  | Undefined | NotANumber => false
  | Infinite negative => negative
  | Bytes n => Qle_bool n bound
  end.

(** [numOfBytes > bound] *)
Definition above (numOfBytes : ByteCount) (bound : Q) : bool :=
  match numOfBytes with
  | Undefined | NotANumber => false
  | Infinite negative => negb negative
  | Bytes n => negb (Qle_bool n bound)
  end.

(** [numOfBytes == value] *)
Definition equalTo (numOfBytes : ByteCount) (value : Q) : bool :=
  match numOfBytes with
  | Bytes n => Qeq_bool n value
  | _ => false
  end.

(** GeoTiffUtil.getBytes *)
Definition getBytes (geoTiffData : DataView) (byteOffset : Z) (numOfBytes : ByteCount)
    (isLittleEndian isSigned : bool) : Result Number :=
  if atMost numOfBytes 0 then
    Throw (ArgumentError "noBytesRequested")
  else if atMost numOfBytes 1 then
    if isSigned
    then v <- getInt8 geoTiffData byteOffset ;; Return (Integer v)
    else v <- getUint8 geoTiffData byteOffset ;; Return (Integer v)
  else if atMost numOfBytes 2 then
    if isSigned
    then v <- getInt16 geoTiffData byteOffset isLittleEndian ;; Return (Integer v)
    else v <- getUint16 geoTiffData byteOffset isLittleEndian ;; Return (Integer v)
  else if atMost numOfBytes 3 then
    if isSigned
    then v <- getInt32 geoTiffData byteOffset isLittleEndian ;;
         Return (Integer (zeroFillShiftRight v 8))
    else v <- getUint32 geoTiffData byteOffset isLittleEndian ;;
         Return (Integer (zeroFillShiftRight v 8))
  else if atMost numOfBytes 4 then
    if isSigned
    then v <- getInt32 geoTiffData byteOffset isLittleEndian ;; Return (Integer v)
    else v <- getUint32 geoTiffData byteOffset isLittleEndian ;; Return (Integer v)
  else if atMost numOfBytes 8 then
    v <- getFloat64 geoTiffData byteOffset isLittleEndian ;; Return (Double v)
  else
    Throw (ArgumentError "tooManyBytesRequested").

(** ** getSampleBytes *)

(** The keys of TiffConstants.SampleFormat that the switch names
    (TiffConstants.js is not among the sources); a value that is none of
    them takes the default branch. *)
Inductive SampleFormat :=
| UNSIGNED
| SIGNED
| IEEE_FLOAT
| UNDEFINED
| UnlistedFormat.

(** A finite value in the canonical form of binary64; it is exact for
    every binary32 value. *)
Definition toBinary64 (f : spec_float) : spec_float :=
  match f with
  | S754_finite s m e => binary_normalize 53 1024 (cond_Zopp s (Z.pos m)) e s
  | _ => f
  end.

(** The binary32 value of a 32-bit pattern: sign, 8 exponent bits, 23
    fraction bits; as a number it is the binary64 value equal to it. *)
Definition decodeFloat32 (bits : Z) : spec_float :=
  let sign := Z.testbit bits 31 in
  let e := Z.land (Z.shiftr bits 23) 255 in
  let m := Z.land bits (2 ^ 23 - 1) in
  if (e =? 0)%Z then
    if (m =? 0)%Z then S754_zero sign else toBinary64 (S754_finite sign (Z.to_pos m) (-149))
  else if (e =? 255)%Z then
    if (m =? 0)%Z then S754_infinity sign else S754_nan
  else toBinary64 (S754_finite sign (Z.to_pos (m + 2 ^ 23)) (e - 150)).

Definition getFloat32 (view : DataView) (byteOffset : Z) (littleEndian : bool)
    : Result spec_float :=
  bytes <- bytesAt view byteOffset 4 ;;
  Return (decodeFloat32 (unsignedValue littleEndian bytes)).

(** The integer a bit operator takes from a number: zero for NaN and the
    infinities, otherwise the value with its fraction dropped (the operator
    then reduces it modulo 2^32). *)
Definition toInteger (f : spec_float) : Z :=
  match f with
  | S754_finite s m e =>
      cond_Zopp s (if (0 <=? e)%Z then Z.pos m * 2 ^ e else Z.pos m / 2 ^ (- e))%Z
  | _ => 0%Z
  end.

(** GeoTiffUtil.getSampleBytes; [None] is the undefined that [res] keeps
    when no branch assigns it. *)
Definition getSampleBytes (geoTiffData : DataView) (byteOffset : Z)
    (numOfBytes : ByteCount) (sampleFormat : SampleFormat) (isLittleEndian : bool)
    : Result (option Number) :=
  match sampleFormat with
  | UNSIGNED =>
      res <- getBytes geoTiffData byteOffset numOfBytes isLittleEndian false ;;
      Return (Some res)
  | SIGNED =>
      res <- getBytes geoTiffData byteOffset numOfBytes isLittleEndian true ;;
      Return (Some res)
  | IEEE_FLOAT =>
      if equalTo numOfBytes 3 then
        v <- getFloat32 geoTiffData byteOffset isLittleEndian ;;
        Return (Some (Integer (zeroFillShiftRight (toInteger v) 8)))
      else if equalTo numOfBytes 4 then
        v <- getFloat32 geoTiffData byteOffset isLittleEndian ;;
        Return (Some (Double v))
      else if equalTo numOfBytes 8 then
        v <- getFloat64 geoTiffData byteOffset isLittleEndian ;;
        Return (Some (Double v))
      else Return None
  | UNDEFINED | UnlistedFormat =>
      res <- getBytes geoTiffData byteOffset numOfBytes isLittleEndian false ;;
      Return (Some res)
  end.


(** ** getTagValueAsString *)

(** [tagName] is one of the tables of TiffConstants: an object that maps
    names to integer codes.  It is given by its properties in the order in
    which [for ... in] visits them; [None] is undefined. *)
Fixpoint getTagValueAsString (tagName : list (string * Z)) (tagValue : Z)
    : option string :=
  match tagName with
  | [] => None
  | (property, value) :: rest =>
      if (value =? tagValue)%Z then Some property
      else getTagValueAsString rest tagValue
  end.

(** ** clampColorSample *)

#[global] Instance spec_float_eq_dec : EqDecision spec_float.
Proof. solve_decision. Defined.

(** Numbers are IEEE 754 binary64 values, with the arithmetic of SpecFloat. *)
Definition prec : Z := 53.
Definition emax : Z := 1024.

Definition fromInteger (z : Z) : spec_float := binary_normalize prec emax z 0 false.

(** [Math.pow(2, k)] for a whole number [k]: the power of two, exact
    wherever binary64 has it. *)
Definition pow2 (k : Z) : spec_float := binary_normalize prec emax 1 k false.

(** [Math.floor]: a number without a fraction is returned as it is. *)
Definition floor (f : spec_float) : spec_float :=
  match f with
  | S754_finite s m e =>
      if (0 <=? e)%Z then f
      else binary_normalize prec emax (cond_Zopp s (Z.pos m) / 2 ^ (- e)) 0 s
  | _ => f
  end.

(** GeoTiffUtil.clampColorSample.  [bitsPerSample] is a whole number, so
    that [8 - bitsPerSample] is exact. *)
Definition clampColorSample (colorSample : spec_float) (bitsPerSample : Z)
    : spec_float :=
  let multiplier := pow2 (8 - bitsPerSample) in
  floor (SFadd prec emax (SFmul prec emax colorSample multiplier)
                         (SFsub prec emax multiplier (fromInteger 1))).

(** ** getMinMaxGeotiffSamples *)

(** A sample as the comparisons see it: not a number, an infinity, or a
    finite value. *)
Inductive Sample :=
| NaN
| NegativeInfinity
| Finite (value : Q)
| PositiveInfinity.

(** [x < y] *)
Definition lessThan (x y : Sample) : bool :=
  match x, y with
  | NaN, _ | _, NaN => false
  | _, NegativeInfinity => false
  | NegativeInfinity, _ => true
  | PositiveInfinity, _ => false
  | Finite _, PositiveInfinity => true
  | Finite a, Finite b => negb (Qle_bool b a)
  end.

(** [x == noDataValue], where [noDataValue] may be undefined ([None]). *)
Definition looseEquals (x : Sample) (noDataValue : option Sample) : bool :=
  match x, noDataValue with
  | NegativeInfinity, Some NegativeInfinity => true
  | PositiveInfinity, Some PositiveInfinity => true
  | Finite a, Some (Finite b) => Qeq_bool a b
  | _, _ => false
  end.

Module MinMax.
Record t := mk { max : Sample; min : Sample }.
End MinMax.

(** The body of the innermost loop. *)
Definition visit (noDataValue : option Sample) (acc : MinMax.t) (sample : Sample)
    : MinMax.t :=
  if looseEquals sample noDataValue then acc
  else
    MinMax.mk
      (if lessThan (MinMax.max acc) sample then sample else MinMax.max acc)
      (if lessThan sample (MinMax.min acc) then sample else MinMax.min acc).

Definition getMinMaxGeotiffSamples (geotiffSampleArray : list (list (list Sample)))
    (noDataValue : option Sample) : MinMax.t :=
  foldl (foldl (foldl (visit noDataValue)))
        (MinMax.mk NegativeInfinity PositiveInfinity) geotiffSampleArray.

(** The samples that count: every sample but the NaNs and those equal to
    the no-data value. *)
Definition isData (noDataValue : option Sample) (x : Sample) : bool :=
  match x with NaN => false | _ => negb (looseEquals x noDataValue) end.

Definition dataSamples (geotiffSampleArray : list (list (list Sample)))
    (noDataValue : option Sample) : list Sample :=
  filter (λ x, isData noDataValue x = true) (concat (concat geotiffSampleArray)).

(** The number of bytes that [getBytes] takes from the buffer for a byte
    count between 0 and 8. *)
Definition bytesRead (numOfBytes : Q) : nat :=
  if Qle_bool numOfBytes 1 then 1
  else if Qle_bool numOfBytes 2 then 2
  else if Qle_bool numOfBytes 4 then 4
  else 8.

End GeoTiffUtil.

(* ===================================================================== *)
(** * CompassLayer  (src/layer/CompassLayer.js)                            *)
(* ===================================================================== *)

Module CompassLayer.

(** The values a script can assign to the [compass] property: the
    primitives, and objects with the constructor they were made by. *)
Inductive Constructor :=
| Compass
| OtherConstructor (name : string).

Inductive Value :=
| Null
| Undefined
| Boolean (b : bool)
| Num (z : Z)
| Str (s : string)
| Object (madeBy : Constructor) (identity : nat).

(** What [if (v)] takes as true. *)
Definition truthy (v : Value) : bool :=
  match v with
  | Null | Undefined => false
  | Boolean b => b
  | Num z => negb (z =? 0)%Z
  | Str s => negb (String.eqb s "")
  | Object _ _ => true
  end.

(** [v instanceof Compass] *)
Definition instanceofCompass (v : Value) : bool :=
  match v with
  | Object Compass _ => true
  | _ => false
  end.

(** A compass layer: the renderables list of the RenderableLayer it
    augments, and the compass it displays. *)
Record Layer := mkLayer {
  displayName : string;
  renderables : list Value;
  _compass : Value
}.

(** Modelled from the spec: RenderableLayer.removeAllRenderables and
    addRenderable, whose code is not among the sources; the spec does not
    describe them either, so they are taken by their names: the first
    empties the layer's renderables list, the second appends to it. *)
Definition removeAllRenderables (this : Layer) : Layer :=
  {| displayName := displayName this; renderables := []; _compass := _compass this |}.

Definition addRenderable (renderable : Value) (this : Layer) : Layer :=
  {| displayName := displayName this;
     renderables := renderables this ++ [renderable];
     _compass := _compass this |}.

(** The constructor: [new Compass(null, null)] is a fresh Compass object. *)
Definition new (freshIdentity : nat) : Layer :=
  let this := mkLayer "Compass" [] Undefined in
  let this := mkLayer (displayName this) (renderables this)
                      (Object Compass freshIdentity) in
  addRenderable (_compass this) this.

(** The [compass] property. *)
Definition get_compass (this : Layer) : Value := _compass this.

Definition set_compass (compass : Value) (this : Layer) : Layer :=
  if truthy compass && instanceofCompass compass then
    let this := removeAllRenderables this in
    let this := addRenderable compass this in
    mkLayer (displayName this) (renderables this) compass
  else this.

End CompassLayer.

(* ===================================================================== *)
(** * ColladaScene  (src/formats/collada/ColladaScene.js)                  *)
(* ===================================================================== *)

Module ColladaScene.
Import GpuResourceCache.

(** ** Collaborators that are not among the sources *)

(** Modelled from the spec: positions, vectors, the globe and matrices, whose
    code (Position.js, Vec3.js, Globe.js, Matrix.js) is not among the
    sources; the spec leaves "coordinate/projection math" to external
    collaborators.  They are carried as data. *)
Record Position := mkPosition {
  latitude : Q;
  longitude : Q;
  altitude : Q
}.

Definition Vec3 : Type := Q * Q * Q.
Definition vec3 (x y z : Q) : Vec3 := (x, y, z).

Record Globe := mkGlobe { globeIdentity : nat }.

(** A matrix is represented by the operations applied to the identity, in
    order; what they compute is left to the matrix library. *)
Inductive MatrixOp :=
| LocalCoordinateTransform (origin : Vec3) (globe : Globe)
| Rotation (x y z : Z) (angleDegrees : Q)
| Scale (x y z : Q)
| Translation (x y z : Q)
| UnitYFlip.

Definition Matrix : Type := list MatrixOp.

Definition fromIdentity : Matrix := [].
Definition setToIdentity (m : Matrix) : Matrix := [].
Definition setToUnitYFlip (m : Matrix) : Matrix := [UnitYFlip].
Definition multiplyByLocalCoordinateTransform (origin : Vec3) (globe : Globe)
    (m : Matrix) : Matrix := m ++ [LocalCoordinateTransform origin globe].
Definition multiplyByRotation (x y z : Z) (angleDegrees : Q) (m : Matrix) : Matrix :=
  m ++ [Rotation x y z angleDegrees].
Definition multiplyByScale (x y z : Q) (m : Matrix) : Matrix := m ++ [Scale x y z].
Definition multiplyByTranslation (x y z : Q) (m : Matrix) : Matrix :=
  m ++ [Translation x y z].

(** ** The scene data a Collada parser hands over *)

Module NodeMaterial.
Record t := mk { symbol : string; id : string }.
End NodeMaterial.

Module Node.
#[local] Unset Elimination Schemes.
Inductive t :=
| mk (id : string) (mesh : option string) (materials : list NodeMaterial.t)
     (children : list t) (worldMatrix : option Matrix).
#[local] Set Elimination Schemes.
Definition id (n : t) : string := let 'mk i _ _ _ _ := n in i.
Definition mesh (n : t) : option string := let 'mk _ m _ _ _ := n in m.
Definition materials (n : t) : list NodeMaterial.t := let 'mk _ _ ms _ _ := n in ms.
Definition children (n : t) : list t := let 'mk _ _ _ cs _ := n in cs.
Definition worldMatrix (n : t) : option Matrix := let 'mk _ _ _ _ w := n in w.
End Node.

Module MeshBuffers.
Record t := mk {
  material : string;
  vertices : list Q;
  uvs : list Q;
  indices : list N;
  indexedRendering : bool;
  isClamp : bool
}.
End MeshBuffers.

Module Mesh.
Record t := mk { buffers : list MeshBuffers.t }.
End Mesh.

Module TextureMap.
Record t := mk { mapId : string }.
End TextureMap.

Module Textures.
Record t := mk { diffuse : option TextureMap.t; reflective : option TextureMap.t }.
End Textures.

Module Material.
Record t := mk { textures : option Textures.t; techniqueType : string }.
End Material.

Module Image.
Record t := mk { path : string; filename : string }.
End Image.

Module SceneData.
Record t := mk {
  rootChildren : list Node.t;
  meshes : gmap string Mesh.t;
  materials : gmap string Material.t;
  images : gmap string Image.t;
  up_axis : string;
  dirPath : string
}.
End SceneData.

(** ** The scene *)

(** What [flattenModel] pushes on [this.entities], with the properties
    [loadTextures] and [setupBuffers] add later (undefined until then). *)
Module Entity.
Record t := mk {
  mesh : MeshBuffers.t;
  material : Material.t;
  node : Node.t;
  texture : option string;
  textureLoaded : option bool;
  vertexOffset : option nat;
  uvOffset : option nat;
  indicesOffset : option nat
}.
Definition with_textureLoaded (v : option bool) (e : t) : t :=
  mk (mesh e) (material e) (node e) (texture e) v
     (vertexOffset e) (uvOffset e) (indicesOffset e).
Definition with_vertexOffset (v : option nat) (e : t) : t :=
  mk (mesh e) (material e) (node e) (texture e) (textureLoaded e)
     v (uvOffset e) (indicesOffset e).
Definition with_uvOffset (v : option nat) (e : t) : t :=
  mk (mesh e) (material e) (node e) (texture e) (textureLoaded e)
     (vertexOffset e) v (indicesOffset e).
Definition with_indicesOffset (v : option nat) (e : t) : t :=
  mk (mesh e) (material e) (node e) (texture e) (textureLoaded e)
     (vertexOffset e) (uvOffset e) v.
End Entity.

(** The placement properties and the matrix computed from them. *)
Record Transform := mkTransform {
  _position : Position;
  _xRotation : Q;
  _yRotation : Q;
  _zRotation : Q;
  preX : Q;
  preY : Q;
  preZ : Q;
  _xTranslation : Q;
  _yTranslation : Q;
  _zTranslation : Q;
  _scale : Q;
  _altitudeMode : string;
  _placePoint : Vec3;
  _transformationMatrix : Matrix;
  mustUpdate : bool
}.

(** The parsed model and the options that steer its flattening. *)
Record Model := mkModel {
  _nodes : list Node.t;
  _meshes : gmap string Mesh.t;
  _materials : gmap string Material.t;
  _images : gmap string Image.t;
  _upAxis : string;
  _dirPath : string;
  _useTexturePaths : bool;
  _nodesToHide : list string;
  _hideNodes : bool
}.

(** The bookkeeping of drawing.  [allTexturesLoaded] and
    [partialTexturesLoaded] are undefined until [loadTextures] sets them;
    undefined counts as false wherever they are read. *)
Record Drawing := mkDrawing {
  allTexturesLoaded : bool;
  partialTexturesLoaded : bool;
  textureLoaded : option Handle;
  _activeTexture : option Handle;
  vboCahckeKey : option ResourceKey;
  iboCahckeKey : option ResourceKey;
  hasIbo : option bool;
  greyedOut : bool;
  pickColor : option nat
}.

Record Scene := mkScene {
  transform : Transform;
  model : Model;
  entities : list Entity.t;
  drawing : Drawing
}.

(** Assignments to one property. *)
Definition with_position (v : Position) (this : Transform) : Transform :=
  mkTransform v (_xRotation this) (_yRotation this) (_zRotation this)
    (preX this) (preY this) (preZ this) (_xTranslation this)
    (_yTranslation this) (_zTranslation this) (_scale this)
    (_altitudeMode this) (_placePoint this) (_transformationMatrix this)
    (mustUpdate this).

Definition with_xRotation (v : Q) (this : Transform) : Transform :=
  mkTransform (_position this) v (_yRotation this) (_zRotation this)
    (preX this) (preY this) (preZ this) (_xTranslation this)
    (_yTranslation this) (_zTranslation this) (_scale this)
    (_altitudeMode this) (_placePoint this) (_transformationMatrix this)
    (mustUpdate this).

Definition with_yRotation (v : Q) (this : Transform) : Transform :=
  mkTransform (_position this) (_xRotation this) v (_zRotation this)
    (preX this) (preY this) (preZ this) (_xTranslation this)
    (_yTranslation this) (_zTranslation this) (_scale this)
    (_altitudeMode this) (_placePoint this) (_transformationMatrix this)
    (mustUpdate this).

Definition with_zRotation (v : Q) (this : Transform) : Transform :=
  mkTransform (_position this) (_xRotation this) (_yRotation this) v
    (preX this) (preY this) (preZ this) (_xTranslation this)
    (_yTranslation this) (_zTranslation this) (_scale this)
    (_altitudeMode this) (_placePoint this) (_transformationMatrix this)
    (mustUpdate this).

Definition with_xTranslation (v : Q) (this : Transform) : Transform :=
  mkTransform (_position this) (_xRotation this) (_yRotation this)
    (_zRotation this) (preX this) (preY this) (preZ this) v
    (_yTranslation this) (_zTranslation this) (_scale this)
    (_altitudeMode this) (_placePoint this) (_transformationMatrix this)
    (mustUpdate this).

Definition with_yTranslation (v : Q) (this : Transform) : Transform :=
  mkTransform (_position this) (_xRotation this) (_yRotation this)
    (_zRotation this) (preX this) (preY this) (preZ this)
    (_xTranslation this) v (_zTranslation this) (_scale this)
    (_altitudeMode this) (_placePoint this) (_transformationMatrix this)
    (mustUpdate this).

Definition with_zTranslation (v : Q) (this : Transform) : Transform :=
  mkTransform (_position this) (_xRotation this) (_yRotation this)
    (_zRotation this) (preX this) (preY this) (preZ this)
    (_xTranslation this) (_yTranslation this) v (_scale this)
    (_altitudeMode this) (_placePoint this) (_transformationMatrix this)
    (mustUpdate this).

Definition with_scale (v : Q) (this : Transform) : Transform :=
  mkTransform (_position this) (_xRotation this) (_yRotation this)
    (_zRotation this) (preX this) (preY this) (preZ this)
    (_xTranslation this) (_yTranslation this) (_zTranslation this) v
    (_altitudeMode this) (_placePoint this) (_transformationMatrix this)
    (mustUpdate this).

Definition with_altitudeMode (v : string) (this : Transform) : Transform :=
  mkTransform (_position this) (_xRotation this) (_yRotation this)
    (_zRotation this) (preX this) (preY this) (preZ this)
    (_xTranslation this) (_yTranslation this) (_zTranslation this)
    (_scale this) v (_placePoint this) (_transformationMatrix this)
    (mustUpdate this).

Definition with_placePoint (v : Vec3) (this : Transform) : Transform :=
  mkTransform (_position this) (_xRotation this) (_yRotation this)
    (_zRotation this) (preX this) (preY this) (preZ this)
    (_xTranslation this) (_yTranslation this) (_zTranslation this)
    (_scale this) (_altitudeMode this) v (_transformationMatrix this)
    (mustUpdate this).

Definition with_transformationMatrix (v : Matrix) (this : Transform) : Transform :=
  mkTransform (_position this) (_xRotation this) (_yRotation this)
    (_zRotation this) (preX this) (preY this) (preZ this)
    (_xTranslation this) (_yTranslation this) (_zTranslation this)
    (_scale this) (_altitudeMode this) (_placePoint this) v (mustUpdate this).

Definition with_mustUpdate (v : bool) (this : Transform) : Transform :=
  mkTransform (_position this) (_xRotation this) (_yRotation this)
    (_zRotation this) (preX this) (preY this) (preZ this)
    (_xTranslation this) (_yTranslation this) (_zTranslation this)
    (_scale this) (_altitudeMode this) (_placePoint this)
    (_transformationMatrix this) v.

Definition with_allTexturesLoaded (v : bool) (this : Drawing) : Drawing :=
  mkDrawing v (partialTexturesLoaded this) (textureLoaded this)
    (_activeTexture this) (vboCahckeKey this) (iboCahckeKey this)
    (hasIbo this) (greyedOut this) (pickColor this).

Definition with_partialTexturesLoaded (v : bool) (this : Drawing) : Drawing :=
  mkDrawing (allTexturesLoaded this) v (textureLoaded this)
    (_activeTexture this) (vboCahckeKey this) (iboCahckeKey this)
    (hasIbo this) (greyedOut this) (pickColor this).

Definition with_textureLoaded (v : option Handle) (this : Drawing) : Drawing :=
  mkDrawing (allTexturesLoaded this) (partialTexturesLoaded this) v
    (_activeTexture this) (vboCahckeKey this) (iboCahckeKey this)
    (hasIbo this) (greyedOut this) (pickColor this).

Definition with_activeTexture (v : option Handle) (this : Drawing) : Drawing :=
  mkDrawing (allTexturesLoaded this) (partialTexturesLoaded this)
    (textureLoaded this) v (vboCahckeKey this) (iboCahckeKey this)
    (hasIbo this) (greyedOut this) (pickColor this).

Definition with_vboCahckeKey (v : option ResourceKey) (this : Drawing) : Drawing :=
  mkDrawing (allTexturesLoaded this) (partialTexturesLoaded this)
    (textureLoaded this) (_activeTexture this) v (iboCahckeKey this)
    (hasIbo this) (greyedOut this) (pickColor this).

Definition with_iboCahckeKey (v : option ResourceKey) (this : Drawing) : Drawing :=
  mkDrawing (allTexturesLoaded this) (partialTexturesLoaded this)
    (textureLoaded this) (_activeTexture this) (vboCahckeKey this) v
    (hasIbo this) (greyedOut this) (pickColor this).

Definition with_hasIbo (v : option bool) (this : Drawing) : Drawing :=
  mkDrawing (allTexturesLoaded this) (partialTexturesLoaded this)
    (textureLoaded this) (_activeTexture this) (vboCahckeKey this)
    (iboCahckeKey this) v (greyedOut this) (pickColor this).

Definition with_greyedOut (v : bool) (this : Drawing) : Drawing :=
  mkDrawing (allTexturesLoaded this) (partialTexturesLoaded this)
    (textureLoaded this) (_activeTexture this) (vboCahckeKey this)
    (iboCahckeKey this) (hasIbo this) v (pickColor this).

Definition with_pickColor (v : option nat) (this : Drawing) : Drawing :=
  mkDrawing (allTexturesLoaded this) (partialTexturesLoaded this)
    (textureLoaded this) (_activeTexture this) (vboCahckeKey this)
    (iboCahckeKey this) (hasIbo this) (greyedOut this) v.

Definition with_transform (v : Transform) (this : Scene) : Scene :=
  mkScene v (model this) (entities this) (drawing this).

Definition with_model (v : Model) (this : Scene) : Scene :=
  mkScene (transform this) v (entities this) (drawing this).

Definition with_entities (v : list Entity.t) (this : Scene) : Scene :=
  mkScene (transform this) (model this) v (drawing this).

Definition with_drawing (v : Drawing) (this : Scene) : Scene :=
  mkScene (transform this) (model this) (entities this) v.

Definition onTransform (f : Transform → Transform) (this : Scene) : Scene :=
  with_transform (f (transform this)) this.

Definition onDrawing (f : Drawing → Drawing) (this : Scene) : Scene :=
  with_drawing (f (drawing this)) this.

(** ** Properties (Object.defineProperties) *)

Definition position (this : Scene) : Position := _position (transform this).
Definition set_position (value : Position) (this : Scene) : Scene :=
  onTransform (with_mustUpdate true) (onTransform (with_position value) this).

Definition xRotation (this : Scene) : Q := _xRotation (transform this).
Definition set_xRotation (value : Q) (this : Scene) : Scene :=
  onTransform (with_mustUpdate true) (onTransform (with_xRotation value) this).

Definition yRotation (this : Scene) : Q := _yRotation (transform this).
Definition set_yRotation (value : Q) (this : Scene) : Scene :=
  onTransform (with_mustUpdate true) (onTransform (with_yRotation value) this).

Definition zRotation (this : Scene) : Q := _zRotation (transform this).
Definition set_zRotation (value : Q) (this : Scene) : Scene :=
  onTransform (with_mustUpdate true) (onTransform (with_zRotation value) this).

Definition xTranslation (this : Scene) : Q := _xTranslation (transform this).
Definition set_xTranslation (value : Q) (this : Scene) : Scene :=
  onTransform (with_mustUpdate true) (onTransform (with_xTranslation value) this).

Definition yTranslation (this : Scene) : Q := _yTranslation (transform this).
Definition set_yTranslation (value : Q) (this : Scene) : Scene :=
  onTransform (with_mustUpdate true) (onTransform (with_yTranslation value) this).

Definition zTranslation (this : Scene) : Q := _zTranslation (transform this).
Definition set_zTranslation (value : Q) (this : Scene) : Scene :=
  onTransform (with_mustUpdate true) (onTransform (with_zTranslation value) this).

Definition scale (this : Scene) : Q := _scale (transform this).
Definition set_scale (value : Q) (this : Scene) : Scene :=
  onTransform (with_mustUpdate true) (onTransform (with_scale value) this).

Definition altitudeMode (this : Scene) : string := _altitudeMode (transform this).
Definition set_altitudeMode (value : string) (this : Scene) : Scene :=
  onTransform (with_mustUpdate true) (onTransform (with_altitudeMode value) this).

Definition placePoint (this : Scene) : Vec3 := _placePoint (transform this).
Definition set_placePoint (value : Vec3) (this : Scene) : Scene :=
  onTransform (with_placePoint value) this.

Definition transformationMatrix (this : Scene) : Matrix :=
  _transformationMatrix (transform this).
Definition set_transformationMatrix (value : Matrix) (this : Scene) : Scene :=
  onTransform (with_transformationMatrix value) this.

(** The setters that raise the dirty flag, by property name. *)
Inductive Placed :=
| SetPosition (value : Position)
| SetXRotation (value : Q)
| SetYRotation (value : Q)
| SetZRotation (value : Q)
| SetXTranslation (value : Q)
| SetYTranslation (value : Q)
| SetZTranslation (value : Q)
| SetScale (value : Q)
| SetAltitudeMode (value : string).

Definition assign (p : Placed) (this : Scene) : Scene :=
  match p with
  | SetPosition value => set_position value this
  | SetXRotation value => set_xRotation value this
  | SetYRotation value => set_yRotation value this
  | SetZRotation value => set_zRotation value this
  | SetXTranslation value => set_xTranslation value this
  | SetYTranslation value => set_yTranslation value this
  | SetZTranslation value => set_zTranslation value this
  | SetScale value => set_scale value this
  | SetAltitudeMode value => set_altitudeMode value this
  end.

(** ** computeTransformationMatrix *)

Definition computeTransformationMatrix (globe : Globe) (this : Scene) : Scene :=
  if negb (mustUpdate (transform this)) then this
  else
    let m := setToIdentity (transformationMatrix this) in
    let m := multiplyByLocalCoordinateTransform (placePoint this) globe m in
    let m := multiplyByRotation 1 0 0 (xRotation this) m in
    let m := multiplyByRotation 0 1 0 (yRotation this) m in
    let m := multiplyByRotation 0 0 1 (zRotation this) m in
    let m := multiplyByScale (scale this) (scale this) (scale this) m in
    let m := multiplyByTranslation (xTranslation this) (yTranslation this)
                                   (zTranslation this) m in
    let m := multiplyByRotation 1 0 0 (preX (transform this)) m in
    let m := multiplyByRotation 0 1 0 (preY (transform this)) m in
    let m := multiplyByRotation 0 0 1 (preZ (transform this)) m in
    onTransform (with_mustUpdate false)
      (onTransform (with_transformationMatrix m) this).

(** ** Flattening the node tree *)

Definition mustRenderNode (nodeId : string) (m : Model) : bool :=
  if _hideNodes m then negb (bool_decide (nodeId ∈ _nodesToHide m)) else true.

(** What [if (s)] takes as true for a string or null. *)
Definition truthy (s : option string) : bool :=
  match s with
  | Some s => negb (String.eqb s "")
  | None => false
  end.

(** The inner loop of [flattenModel]: the material of the node whose symbol
    is the buffer's material.  [materialKey] is a [var] of the function: when
    no symbol matches, it keeps what an earlier buffer left in it. *)
Fixpoint findMaterialKey (materialBuf : string) (materials : list NodeMaterial.t)
    (materialKey : option string) : option string :=
  match materials with
  | [] => materialKey
  | m :: rest =>
      if String.eqb materialBuf (NodeMaterial.symbol m)
      then Some (NodeMaterial.id m)
      else findMaterialKey materialBuf rest materialKey
  end.

(** The key under which a texture image is cached: the directory of the
    Collada file followed by the image's path, or by its file name when
    [useTexturePaths] is off. *)
Definition imageName (m : Model) (image : Image.t) : string :=
  if _useTexturePaths m then Image.path image else Image.filename image.

Definition textureCacheKey (m : Model) (image : Image.t) : string :=
  _dirPath m +:+ imageName m image.

(** The texture key of a material: null without textures; a property read
    on undefined throws a TypeError. *)
Definition textureKeyOf (m : Model) (material : Material.t) : Result (option string) :=
  match Material.textures material with
  | None => Return None
  | Some textures =>
      imageKey <-
        match Textures.diffuse textures with
        | Some diffuse => Return (TextureMap.mapId diffuse)
        | None =>
            match Textures.reflective textures with
            | Some reflective => Return (TextureMap.mapId reflective)
            | None => Throw TypeError
            end
        end ;;
      match _images m !! imageKey with
      | Some image => Return (Some (textureCacheKey m image))
      | None => Throw TypeError
      end
  end.

(** The loop over the buffers of a node's mesh. *)
Fixpoint flattenBuffers (m : Model) (node : Node.t) (buffers : list MeshBuffers.t)
    (materialKey : option string) (entities : list Entity.t)
    : Result (list Entity.t) :=
  match buffers with
  | [] => Return entities
  | buffer :: rest =>
      let materialKey :=
        findMaterialKey (MeshBuffers.material buffer) (Node.materials node) materialKey in
      match materialKey ≫= (λ k, _materials m !! k) with
      | None => Throw TypeError
      | Some material =>
          textureCacheKey <- textureKeyOf m material ;;
          flattenBuffers m node rest materialKey
            (entities ++ [Entity.mk buffer material node textureCacheKey
                                    None None None None])
      end
  end.

Fixpoint flattenModel (m : Model) (node : Node.t) (entities : list Entity.t)
    : Result (list Entity.t) :=
  if mustRenderNode (Node.id node) m then
    entities <-
      match Node.mesh node with
      | Some meshKey =>
          if String.eqb meshKey "" then Return entities
          else
            match _meshes m !! meshKey with
            | Some mesh => flattenBuffers m node (Mesh.buffers mesh) None entities
            | None => Throw TypeError
            end
      | None => Return entities
      end ;;
    (fix flattenChildren (children : list Node.t) (entities : list Entity.t)
       : Result (list Entity.t) :=
       match children with
       | [] => Return entities
       | child :: rest =>
           entities <- flattenModel m child entities ;;
           flattenChildren rest entities
       end) (match node with Node.mk _ _ _ children _ => children end) entities
  else Return entities.

Fixpoint flattenNodes (m : Model) (nodes : list Node.t) (entities : list Entity.t)
    : Result (list Entity.t) :=
  match nodes with
  | [] => Return entities
  | node :: rest =>
      entities <- flattenModel m node entities ;;
      flattenNodes m rest entities
  end.

(** [flattenModelBegin]: flatten every root node, then sort the entities.
    The comparator maps an entity to the empty string when its texture is
    null and to the text of the entity object otherwise, which is the same
    for every entity; the stable sort therefore puts the entities without a
    texture first and keeps the order within both groups. *)
Definition sortEntities (entities : list Entity.t) : list Entity.t :=
  filter (λ e, Entity.texture e = None) entities
  ++ filter (λ e, Entity.texture e ≠ None) entities.

Definition flattenModelBegin (this : Scene) : Result Scene :=
  entities <- flattenNodes (model this) (_nodes (model this)) (entities this) ;;
  Return (with_entities (sortEntities entities) this).

Definition setSceneData (sceneData : option SceneData.t) (this : Scene) : Result Scene :=
  match sceneData with
  | Some data =>
      let m := model this in
      flattenModelBegin
        (with_model
           (mkModel (SceneData.rootChildren data) (SceneData.meshes data)
                    (SceneData.materials data) (SceneData.images data)
                    (SceneData.up_axis data) (SceneData.dirPath data)
                    (_useTexturePaths m) (_nodesToHide m) (_hideNodes m))
           this)
  | None => Return this
  end.

(** The constructor. *)
Definition new (position : option Position) (sceneData : option SceneData.t)
    : Result Scene :=
  match position with
  | None => Throw (ArgumentError "missingPosition")
  | Some position =>
      this <-
        setSceneData sceneData
          (mkScene
             (mkTransform position 0 0 0 0 0 0 0 0 0 1 WorldWind.ABSOLUTE
                          (vec3 0 0 0) fromIdentity false)
             (mkModel [] ∅ ∅ ∅ "" "" true [] false)
             []
             (mkDrawing false false None None None None None false None)) ;;
      Return
        (onDrawing (with_greyedOut false)
           (onDrawing (with_hasIbo None)
              (onDrawing (with_vboCahckeKey None)
                 (onDrawing (with_iboCahckeKey None)
                    (onDrawing (with_activeTexture None)
                       (onTransform (with_mustUpdate true)
                          (onTransform (with_transformationMatrix fromIdentity)
                             (onTransform (with_placePoint (vec3 0 0 0)) this))))))))
  end.

(** ** The draw context *)

Inductive Target := ARRAY_BUFFER | ELEMENT_ARRAY_BUFFER.

Inductive WrapMode := CLAMP_TO_EDGE | REPEAT.

(** The calls on the graphics context and on the bound program that the
    drawing code issues.  Offsets are undefined until [setupBuffers] has
    set them.  The loading of colours, opacity and matrices (applyColor,
    applyMatrix) touches neither the cache nor the decision what to draw
    and is left out. *)
Inductive GlCall :=
| BindBuffer (target : Target) (buffer : option Handle)
| BufferData (target : Target) (size : N)
| BufferSubData (target : Target) (offset : N) (count : nat)
| EnableVertexAttribArray (index : nat)
| DisableVertexAttribArray (index : nat)
| VertexAttribPointer (index size stride : nat) (offset : option N)
| DrawElements (count : nat) (offset : option N)
| DrawArrays (first count : nat)
| LoadTextureEnabled (enabled : bool)
| LoadModulateColor (enabled : bool)
| LoadApplyLighting (enabled : bool)
| ResolvePick (color : option nat).

Definition isDraw (call : GlCall) : bool :=
  match call with
  | DrawElements _ _ | DrawArrays _ _ => true
  | _ => false
  end.

(** Modelled from the spec: the DrawContext, whose code is not among the
    sources; the spec names it only as the render thread that "owns all GPU
    state".  It is the state the scene's methods read and change: the GPU
    resource cache, the texture retrievals under way, the picking mode, the
    globe, the calls issued so far, the buffers and pick colours handed out,
    and whether binding a texture succeeds. *)
Record DrawContext := mkDrawContext {
  gpuResourceCache : Cache;
  currentRetrievals : list string;
  pickingMode : bool;
  globe : Globe;
  glCalls : list GlCall;
  buffersCreated : nat;
  pickColorsIssued : nat;
  textureBinds : Handle → bool
}.

Definition with_cache (c : Cache) (dc : DrawContext) : DrawContext :=
  mkDrawContext c (currentRetrievals dc) (pickingMode dc) (globe dc) (glCalls dc)
                (buffersCreated dc) (pickColorsIssued dc) (textureBinds dc).

(** One call on the graphics context. *)
Definition gl (call : GlCall) (dc : DrawContext) : DrawContext :=
  mkDrawContext (gpuResourceCache dc) (currentRetrievals dc) (pickingMode dc) (globe dc)
                (glCalls dc ++ [call])
                (buffersCreated dc) (pickColorsIssued dc) (textureBinds dc).

(** [gl.createBuffer()]: a buffer not handed out before. *)
Definition createBuffer (dc : DrawContext) : Handle * DrawContext :=
  (BufferHandle (S (buffersCreated dc)),
   mkDrawContext (gpuResourceCache dc) (currentRetrievals dc) (pickingMode dc) (globe dc)
                 (glCalls dc) (S (buffersCreated dc)) (pickColorsIssued dc)
                 (textureBinds dc)).

(** [dc.uniquePickColor()] *)
Definition uniquePickColor (dc : DrawContext) : nat * DrawContext :=
  (S (pickColorsIssued dc),
   mkDrawContext (gpuResourceCache dc) (currentRetrievals dc) (pickingMode dc) (globe dc)
                 (glCalls dc) (buffersCreated dc) (S (pickColorsIssued dc))
                 (textureBinds dc)).

(** [dc.gpuResourceCache.resourceForKey(key)], where the key may be null. *)
Definition cacheLookup (k : option ResourceKey) (dc : DrawContext)
    : option Handle * DrawContext :=
  match k with
  | Some k =>
      let '(r, c) := resourceForKey k (gpuResourceCache dc) in (r, with_cache c dc)
  | None => (None, dc)
  end.

(** Modelled from the spec: GpuResourceCache.retrieveTexture, whose code is
    not among the sources: on a miss the fetch is enqueued and runs
    "asynchronously without blocking rendering"; the resource is written to
    the cache on completion, so that "next frame's lookup hits".  The call
    itself returns no texture. *)
Definition retrieveTexture (textureKey : string) (wrapMode : WrapMode)
    (dc : DrawContext) : option Handle * DrawContext :=
  (None,
   if bool_decide (textureKey ∈ currentRetrievals dc) then dc
   else mkDrawContext (gpuResourceCache dc) (currentRetrievals dc ++ [textureKey])
                      (pickingMode dc) (globe dc) (glCalls dc)
                      (buffersCreated dc) (pickColorsIssued dc) (textureBinds dc)).

Definition wrapModeOf (buffers : MeshBuffers.t) : WrapMode :=
  if MeshBuffers.isClamp buffers then CLAMP_TO_EDGE else REPEAT.

(** ** loadTextures *)

(** The body of the loop of [loadTextures], for one entity: the entity as
    it is left, the value left in [this.textureLoaded], and whether
    [this.partialTexturesLoaded] is cleared. *)
Definition loadTexture (e : Entity.t) (dc : DrawContext)
    : Entity.t * option (option Handle) * bool * DrawContext :=
  if negb (truthy (Entity.texture e))
     || match Entity.textureLoaded e with Some true => true | _ => false end
  then (e, None, false, dc)
  else
    let textureId := default "" (Entity.texture e) in
    let '(found, dc) := cacheLookup (Some (NamedKey textureId)) dc in
    match found with
    | None =>
        let '(retrieved, dc) := retrieveTexture textureId (wrapModeOf (Entity.mesh e)) dc in
        (Entity.with_textureLoaded (Some false) e, Some retrieved, true, dc)
    | Some texture =>
        (Entity.with_textureLoaded (Some true) e, Some found, false, dc)
    end.

Fixpoint loadTexturesLoop (es : list Entity.t) (this : Drawing) (dc : DrawContext)
    : list Entity.t * Drawing * DrawContext :=
  match es with
  | [] => ([], this, dc)
  | e :: rest =>
      let '(e, loaded, missing, dc) := loadTexture e dc in
      let this := match loaded with
                  | Some value => with_textureLoaded value this
                  | None => this
                  end in
      let this := if missing then with_partialTexturesLoaded false this else this in
      let '(rest, this, dc) := loadTexturesLoop rest this dc in
      (e :: rest, this, dc)
  end.

Definition loadTextures (dc : DrawContext) (this : Scene) : Scene * DrawContext :=
  if allTexturesLoaded (drawing this) then (this, dc)
  else
    let '(es, d, dc) :=
      loadTexturesLoop (entities this)
                       (with_partialTexturesLoaded true (drawing this)) dc in
    let d := if partialTexturesLoaded d then with_allTexturesLoaded true d else d in
    (with_drawing d (with_entities es this), dc).

(** ** setupBuffers *)

Definition sizeOfFloat32 : N := 4.
Definition sizeOfUint16 : N := 2.

Fixpoint countIndices (es : list Entity.t) : nat :=
  match es with
  | [] => 0
  | e :: rest =>
      (if MeshBuffers.indexedRendering (Entity.mesh e)
       then length (MeshBuffers.indices (Entity.mesh e)) else 0)
      + countIndices rest
  end.

Fixpoint countVertices (es : list Entity.t) : nat :=
  match es with
  | [] => 0
  | e :: rest =>
      length (MeshBuffers.vertices (Entity.mesh e))
      + (if truthy (Entity.texture e)
         then length (MeshBuffers.uvs (Entity.mesh e)) else 0)
      + countVertices rest
  end.

Fixpoint uploadVertices (es : list Entity.t) (offset : nat) (dc : DrawContext)
    : list Entity.t * nat * DrawContext :=
  match es with
  | [] => ([], offset, dc)
  | e :: rest =>
      let data := MeshBuffers.vertices (Entity.mesh e) in
      let dc := gl (BufferSubData ARRAY_BUFFER (N.of_nat offset * sizeOfFloat32)
                                  (length data)) dc in
      let '(rest, final, dc) := uploadVertices rest (offset + length data) dc in
      (Entity.with_vertexOffset (Some offset) e :: rest, final, dc)
  end.

Fixpoint uploadUvs (es : list Entity.t) (offset : nat) (dc : DrawContext)
    : list Entity.t * nat * DrawContext :=
  match es with
  | [] => ([], offset, dc)
  | e :: rest =>
      if truthy (Entity.texture e) then
        let data := MeshBuffers.uvs (Entity.mesh e) in
        let dc := gl (BufferSubData ARRAY_BUFFER (N.of_nat offset * sizeOfFloat32)
                                    (length data)) dc in
        let '(rest, final, dc) := uploadUvs rest (offset + length data) dc in
        (Entity.with_uvOffset (Some offset) e :: rest, final, dc)
      else
        let '(rest, final, dc) := uploadUvs rest offset dc in
        (e :: rest, final, dc)
  end.

Fixpoint uploadIndices (es : list Entity.t) (offset : nat) (dc : DrawContext)
    : list Entity.t * nat * DrawContext :=
  match es with
  | [] => ([], offset, dc)
  | e :: rest =>
      if MeshBuffers.indexedRendering (Entity.mesh e) then
        let data := MeshBuffers.indices (Entity.mesh e) in
        let dc := gl (BufferSubData ELEMENT_ARRAY_BUFFER
                                    (N.of_nat offset * sizeOfUint16) (length data)) dc in
        let '(rest, final, dc) := uploadIndices rest (offset + length data) dc in
        (Entity.with_indicesOffset (Some offset) e :: rest, final, dc)
      else
        let '(rest, final, dc) := uploadIndices rest offset dc in
        (e :: rest, final, dc)
  end.

(** [dc.gpuResourceCache.putResource(key, resource, size)] *)
Definition cachePut (k : ResourceKey) (r : Handle) (size : N) (dc : DrawContext)
    : DrawContext :=
  with_cache (snd (putResource k r size (gpuResourceCache dc))) dc.

(** [dc.gpuResourceCache.generateCacheKey()] *)
Definition cacheGenerateKey (dc : DrawContext) : ResourceKey * DrawContext :=
  let '(k, c) := generateCacheKey (gpuResourceCache dc) in (k, with_cache c dc).

Definition setupBuffers (dc : DrawContext) (this : Scene) : Scene * DrawContext :=
  let numIndices := countIndices (entities this) in
  let numVertices := countVertices (entities this) in
  let '(vbo, dc) := createBuffer dc in
  let dc := gl (BindBuffer ARRAY_BUFFER (Some vbo)) dc in
  let dc := gl (BufferData ARRAY_BUFFER (sizeOfFloat32 * N.of_nat numVertices)) dc in
  let '(es, offset, dc) := uploadVertices (entities this) 0 dc in
  let '(es, _, dc) := uploadUvs es offset dc in
  let '(ibo, es, dc) :=
    if negb (numIndices =? 0) then
      let '(ibo, dc) := createBuffer dc in
      let dc := gl (BindBuffer ELEMENT_ARRAY_BUFFER (Some ibo)) dc in
      let dc := gl (BufferData ELEMENT_ARRAY_BUFFER
                               (sizeOfUint16 * N.of_nat numIndices)) dc in
      let '(es, _, dc) := uploadIndices es 0 dc in
      (Some ibo, es, dc)
    else (None, es, dc) in
  let '(vboKey, dc) := cacheGenerateKey dc in
  let dc := cachePut vboKey vbo (N.of_nat numVertices * sizeOfFloat32) dc in
  let this := onDrawing (with_vboCahckeKey (Some vboKey)) (with_entities es this) in
  match ibo with
  | Some ibo =>
      let '(iboKey, dc) := cacheGenerateKey dc in
      let dc := cachePut iboKey ibo (N.of_nat numIndices * sizeOfUint16) dc in
      (onDrawing (with_hasIbo (Some true))
         (onDrawing (with_iboCahckeKey (Some iboKey)) this), dc)
  | None => (onDrawing (with_hasIbo (Some false)) this, dc)
  end.

(** ** Drawing one entity *)

(** [applyMatrix] resets [_activeTexture] once the texture matrix has been
    loaded. *)
Definition applyMatrix (hasTexture : bool) (this : Scene) : Scene :=
  if hasTexture && bool_decide (_activeTexture (drawing this) ≠ None)
  then onDrawing (with_activeTexture None) this
  else this.

Definition drawGeometry (e : Entity.t) (dc : DrawContext) : DrawContext :=
  let buffers := Entity.mesh e in
  let dc := gl (VertexAttribPointer 0 3 12
                  ((λ o, N.of_nat o * 4)%N <$> Entity.vertexOffset e)) dc in
  if MeshBuffers.indexedRendering buffers
  then gl (DrawElements (length (MeshBuffers.indices buffers))
                        ((λ o, N.of_nat o * 2)%N <$> Entity.indicesOffset e)) dc
  else gl (DrawArrays 0 (length (MeshBuffers.vertices buffers) / 3)) dc.

Definition draw (dc : DrawContext) (e : Entity.t) (this : Scene) : Scene * DrawContext :=
  let buffers := Entity.mesh e in
  let textureCacheKey := Entity.texture e in
  let '(this, dc) :=
    if truthy textureCacheKey then
      let key := default "" textureCacheKey in
      let '(found, dc) := cacheLookup (Some (NamedKey key)) dc in
      let '(active, dc) :=
        match found with
        | Some texture => (found, dc)
        | None => retrieveTexture key (wrapModeOf buffers) dc
        end in
      let this := onDrawing (with_activeTexture active) this in
      let textureBound :=
        match active with
        | Some texture => textureBinds dc texture
        | None => false
        end in
      if textureBound then
        let dc := gl (LoadTextureEnabled true) dc in
        let dc := gl (VertexAttribPointer 2 2 8
                        ((λ o, N.of_nat o * 4)%N <$> Entity.uvOffset e)) dc in
        let dc := gl (EnableVertexAttribArray 2) dc in
        let dc := gl (LoadModulateColor (pickingMode dc)) dc in
        (this, dc)
      else
        let dc := gl (LoadTextureEnabled false) dc in
        let dc := gl (DisableVertexAttribArray 2) dc in
        (this, dc)
    else
      let dc := gl (LoadTextureEnabled false) dc in
      let dc := gl (DisableVertexAttribArray 2) dc in
      (this, dc) in
  let this := applyMatrix (truthy textureCacheKey) this in
  (this, drawGeometry e dc).

Definition drawGreyedOut (dc : DrawContext) (e : Entity.t) (this : Scene)
    : Scene * DrawContext :=
  let dc := gl (LoadTextureEnabled false) dc in
  let dc := gl (DisableVertexAttribArray 2) dc in
  let this := applyMatrix false this in
  (this, drawGeometry e dc).

(** ** Drawing the scene *)

Fixpoint drawEntities (es : list Entity.t) (dc : DrawContext) (this : Scene)
    : Scene * DrawContext :=
  match es with
  | [] => (this, dc)
  | e :: rest =>
      let '(this, dc) :=
        if greyedOut (drawing this) then drawGreyedOut dc e this else draw dc e this in
      drawEntities rest dc this
  end.

Definition beginDrawing (dc : DrawContext) (this : Scene) : Scene * DrawContext :=
  let '(vboId, dc) := cacheLookup (vboCahckeKey (drawing this)) dc in
  let '(iboId, dc) := cacheLookup (iboCahckeKey (drawing this)) dc in
  let '(this, dc) :=
    match hasIbo (drawing this) with
    | None => setupBuffers dc this
    | Some _ => (this, dc)
    end in
  let '(this, dc) :=
    if bool_decide (vboId = None)
       || (bool_decide (iboId = None) && bool_decide (hasIbo (drawing this) = Some true))
    then setupBuffers dc this
    else
      let dc := gl (BindBuffer ARRAY_BUFFER vboId) dc in
      let dc := gl (BindBuffer ELEMENT_ARRAY_BUFFER iboId) dc in
      (this, dc) in
  let dc := gl (EnableVertexAttribArray 0) dc in
  let dc := gl (DisableVertexAttribArray 1) dc in
  let '(this, dc) :=
    if pickingMode dc then
      let '(color, dc) := uniquePickColor dc in
      (onDrawing (with_pickColor (Some color)) this, dc)
    else (this, dc) in
  let this := computeTransformationMatrix (globe dc) this in
  drawEntities (entities this) dc this.

Definition endDrawing (dc : DrawContext) (this : Scene) : Scene * DrawContext :=
  let dc := gl (LoadApplyLighting false) dc in
  let dc := gl (DisableVertexAttribArray 2) dc in
  (this, dc).

Definition drawOrderedScene (dc : DrawContext) (this : Scene) : Scene * DrawContext :=
  let '(this, dc) := beginDrawing dc this in
  endDrawing dc this.

Definition renderOrdered (dc : DrawContext) (this : Scene) : Scene * DrawContext :=
  let '(this, dc) := loadTextures dc this in
  if negb (allTexturesLoaded (drawing this)) then (this, dc)
  else
    let '(this, dc) := drawOrderedScene dc this in
    if pickingMode dc then (this, gl (ResolvePick (pickColor (drawing this))) dc)
    else (this, dc).

(** The draw calls among the calls issued. *)
Definition drawCalls (dc : DrawContext) : list GlCall := filter (λ c, isDraw c = true) (glCalls dc).

Definition draws (dc : DrawContext) : nat := length (drawCalls dc).

(** The calls [draw] ends with: the vertex pointer and the draw call. *)
Definition geometryCalls (e : Entity.t) : list GlCall :=
  [VertexAttribPointer 0 3 12 ((λ o, N.of_nat o * 4)%N <$> Entity.vertexOffset e);
   if MeshBuffers.indexedRendering (Entity.mesh e)
   then DrawElements (length (MeshBuffers.indices (Entity.mesh e)))
                     ((λ o, N.of_nat o * 2)%N <$> Entity.indicesOffset e)
   else DrawArrays 0 (length (MeshBuffers.vertices (Entity.mesh e)) / 3)].

(** An entity waits for its texture when it has one that [loadTextures] has
    not yet seen in the cache and that is not there now. *)
Definition awaitsTexture (dc : DrawContext) (e : Entity.t) : bool :=
  truthy (Entity.texture e)
  && negb (bool_decide (Entity.textureLoaded e = Some true))
  && negb (resident (NamedKey (default "" (Entity.texture e))) (gpuResourceCache dc)).

(** An entity's texture key is null or the key of one of the model's
    images. *)
Definition keyed (m : Model) (e : Entity.t) : Prop :=
  Entity.texture e = None ∨
  ∃ imageKey image, _images m !! imageKey = Some image ∧
                    Entity.texture e = Some (textureCacheKey m image).

(** ** The layout of the buffers *)

(** A slice of a buffer: the byte offset at which it begins and the number
    of elements in it.  [setupBuffers] leaves with each entity the offsets of
    the slices that hold its vertices, its texture coordinates and its
    indices. *)
Definition Slice : Type := N * nat.

Definition vertexSlice (e : Entity.t) : option Slice :=
  (λ offset, (N.of_nat offset * sizeOfFloat32,
              length (MeshBuffers.vertices (Entity.mesh e))))%N
  <$> Entity.vertexOffset e.

Definition uvSlice (e : Entity.t) : option Slice :=
  if truthy (Entity.texture e) then
    (λ offset, (N.of_nat offset * sizeOfFloat32,
                length (MeshBuffers.uvs (Entity.mesh e))))%N
    <$> Entity.uvOffset e
  else None.

Definition indexSlice (e : Entity.t) : option Slice :=
  if MeshBuffers.indexedRendering (Entity.mesh e) then
    (λ offset, (N.of_nat offset * sizeOfUint16,
                length (MeshBuffers.indices (Entity.mesh e))))%N
    <$> Entity.indicesOffset e
  else None.

(** The call that writes a slice. *)
Definition writeSlice (target : Target) (slice : Slice) : GlCall :=
  BufferSubData target slice.1 slice.2.

(** Slices of elements of [elementSize] bytes tile the bytes from [start] to
    [stop] when each begins where the one before it ends. *)
Fixpoint tiles (elementSize start : N) (slices : list Slice) (stop : N) : Prop :=
  match slices with
  | [] => start = stop
  | slice :: rest =>
      slice.1 = start ∧
      tiles elementSize (start + elementSize * N.of_nat slice.2) rest stop
  end.

(** What [setupBuffers] leaves of an entity as it was: the buffer it draws
    and its texture key. *)
Definition sameGeometry (e e' : Entity.t) : Prop :=
  Entity.mesh e' = Entity.mesh e ∧ Entity.texture e' = Entity.texture e.

(** ** The nodes that are flattened *)

(** The nodes that [flattenModel] visits from a node, in the order of the
    visit: a node that is not to be rendered is left out with everything
    below it. *)
Fixpoint renderedNodes (m : Model) (node : Node.t) : list Node.t :=
  if mustRenderNode (Node.id node) m then
    node :: flat_map (renderedNodes m)
                     (match node with Node.mk _ _ _ children _ => children end)
  else [].

(** The buffers of a node's mesh. *)
Definition buffersOf (m : Model) (node : Node.t) : list MeshBuffers.t :=
  match Node.mesh node with
  | Some meshKey =>
      if String.eqb meshKey "" then []
      else match _meshes m !! meshKey with
           | Some mesh => Mesh.buffers mesh
           | None => []
           end
  | None => []
  end.

(** The node and the buffer that an entity draws. *)
Definition drawn (e : Entity.t) : Node.t * MeshBuffers.t :=
  (Entity.node e, Entity.mesh e).

Definition toDraw (m : Model) (nodes : list Node.t) : list (Node.t * MeshBuffers.t) :=
  flat_map (λ node, (λ buffer, (node, buffer)) <$> buffersOf m node)
           (flat_map (renderedNodes m) nodes).

(** ** render: queueing the scene for ordered rendering *)

(** What the scene has of the Renderable it augments, besides its own state:
    [enabled], which Renderable sets to true, and the properties that
    [render] and [makeOrderedRenderable] add to the object, undefined until
    then. *)
Record Renderable := mkRenderable {
  scene : Scene;
  enabled : bool;
  lastFrameTime : option N;
  eyeDistance : option Q;
  layer : option nat
}.

(** Modelled from the spec: what [render] uses of the draw context, whose
    code is not among the sources: the frame's timestamp, the frustum of the
    navigator, the globe's surface point for a position and an altitude mode,
    the distance from the eye, the layer being rendered and the queue of
    ordered renderables, on which a queued scene is put as it is then. *)
Record FrameContext := mkFrameContext {
  timestamp : N;
  frustumContainsPoint : Vec3 → bool;
  surfacePointForMode : Q → Q → Q → string → Vec3;
  eyeDistanceTo : Vec3 → Q;
  currentLayer : nat;
  orderedRenderables : list Renderable
}.

Definition addOrderedRenderable (orderedRenderable : Renderable) (dc : FrameContext)
    : FrameContext :=
  mkFrameContext (timestamp dc) (frustumContainsPoint dc) (surfacePointForMode dc)
                 (eyeDistanceTo dc) (currentLayer dc)
                 (orderedRenderables dc ++ [orderedRenderable]).

(** [surfacePointForMode] writes its result into [this.placePoint]. *)
Definition makeOrderedRenderable (dc : FrameContext) (this : Renderable) : Renderable :=
  let point :=
    surfacePointForMode dc (latitude (position (scene this)))
                        (longitude (position (scene this)))
                        (altitude (position (scene this)))
                        (altitudeMode (scene this)) in
  let this := mkRenderable (onTransform (with_placePoint point) (scene this))
                           (enabled this) (lastFrameTime this) (eyeDistance this)
                           (layer this) in
  mkRenderable (scene this) (enabled this) (lastFrameTime this)
               (Some (eyeDistanceTo dc (placePoint (scene this)))) (layer this).

Definition render (dc : FrameContext) (this : Renderable) : Renderable * FrameContext :=
  if negb (enabled this) then (this, dc)
  else
    let '(orderedScene, this) :=
      if bool_decide (lastFrameTime this ≠ Some (timestamp dc))
      then (true, makeOrderedRenderable dc this)
      else (false, this) in
    if negb orderedScene then (this, dc)
    else if negb (frustumContainsPoint dc (_placePoint (transform (scene this))))
    then (this, dc)
    else
      let orderedScene :=
        mkRenderable (scene this) (enabled this) (lastFrameTime this)
                     (eyeDistance this) (Some (currentLayer dc)) in
      let this :=
        mkRenderable (scene orderedScene) (enabled orderedScene)
                     (Some (timestamp dc)) (eyeDistance orderedScene)
                     (layer orderedScene) in
      (this, addOrderedRenderable this dc).

(** The surface point at which a frame puts the scene. *)
Definition surfacePoint (dc : FrameContext) (this : Scene) : Vec3 :=
  surfacePointForMode dc (latitude (position this)) (longitude (position this))
                      (altitude (position this)) (altitudeMode this).

(** A frame queues the scene when the scene is enabled, has not been queued
    in this frame, and its surface point is in the frustum. *)
Definition queues (dc : FrameContext) (this : Renderable) : bool :=
  enabled this
  && bool_decide (lastFrameTime this ≠ Some (timestamp dc))
  && frustumContainsPoint dc (surfacePoint dc (scene this)).

(** The scene as [render] leaves it when it queues it. *)
Definition queued (dc : FrameContext) (this : Renderable) : Renderable :=
  mkRenderable (scene (makeOrderedRenderable dc this)) true (Some (timestamp dc))
               (eyeDistance (makeOrderedRenderable dc this)) (Some (currentLayer dc)).

(** The matrix that [computeTransformationMatrix] builds for a scene placed
    at a point. *)
Definition placedAt (point : Vec3) (globe : Globe) (this : Scene) : Matrix :=
  [LocalCoordinateTransform point globe;
   Rotation 1 0 0 (xRotation this);
   Rotation 0 1 0 (yRotation this);
   Rotation 0 0 1 (zRotation this);
   Scale (scale this) (scale this) (scale this);
   Translation (xTranslation this) (yTranslation this) (zTranslation this);
   Rotation 1 0 0 (preX (transform this));
   Rotation 0 1 0 (preY (transform this));
   Rotation 0 0 1 (preZ (transform this))].

(** ** Example scenes *)

Module Examples.

Definition triangle (material : string) : MeshBuffers.t :=
  MeshBuffers.mk material [0; 0; 0; 1; 0; 0; 1; 1; 0]%Q [0; 0; 1; 0; 1; 1]%Q
                 [0; 1; 2]%N true false.

(** A car: an untextured body with a textured wheel below it. *)
Definition car (dirPath imagePath : string) : SceneData.t :=
  SceneData.mk
    [Node.mk "body" (Some "bodyMesh") [NodeMaterial.mk "paintSymbol" "paint"]
       [Node.mk "wheel" (Some "wheelMesh") [NodeMaterial.mk "tyreSymbol" "tyre"]
                [] None]
       None]
    {[ "bodyMesh" := Mesh.mk [triangle "paintSymbol"];
       "wheelMesh" := Mesh.mk [triangle "tyreSymbol"] ]}
    {[ "paint" := Material.mk None "lambert";
       "tyre" := Material.mk (Some (Textures.mk (Some (TextureMap.mk "image0")) None))
                             "lambert" ]}
    {[ "image0" := Image.mk imagePath "tyre.png" ]}
    "Z_UP" dirPath.

Definition origin : Position := mkPosition 0 0 0.

(** A draw context at the start of a frame, with the configured cache. *)
Definition freshContext (cache : Cache) : DrawContext :=
  mkDrawContext cache [] false (mkGlobe 0) [] 0 0 (λ _, true).

End Examples.

End ColladaScene.

(* ===================================================================== *)
(** * The atmosphere programs                                              *)
(* ===================================================================== *)

(** What GroundProgram and SkyProgram share: vectors and matrices of
    binary64 numbers, and the calls they make on the graphics context. *)
Module Glsl.

(** Modelled from the spec: Vec3 and Matrix (geom/Vec3.js, geom/Matrix.js)
    and GpuProgram.loadUniformMatrix, whose code is not among the sources
    and which the spec leaves to "external collaborators"; they are taken by
    their names.  [equals] compares component by component with [===],
    [copy] takes over the components, [magnitudeSquared] is the dot
    product of the vector with itself, and [loadUniformMatrix] hands the
    matrix to the uniform at the location. *)
Definition Vec3 : Type := spec_float * spec_float * spec_float.

Definition Matrix : Type := list spec_float.

Definition zero : spec_float := S754_zero false.
Definition one : spec_float := S754_finite false 4503599627370496 (-52).

Definition Vec3_equals (this vector : Vec3) : bool :=
  SFeqb this.1.1 vector.1.1 && SFeqb this.1.2 vector.1.2 && SFeqb this.2 vector.2.

Definition Vec3_copy (vector : Vec3) (this : Vec3) : Vec3 := vector.

Definition magnitudeSquared (vector : Vec3) : spec_float :=
  SFadd 53 1024
    (SFadd 53 1024 (SFmul 53 1024 vector.1.1 vector.1.1)
                   (SFmul 53 1024 vector.1.2 vector.1.2))
    (SFmul 53 1024 vector.2 vector.2).

Definition fromIdentity : Matrix :=
  [one; zero; zero; zero;
   zero; one; zero; zero;
   zero; zero; one; zero;
   zero; zero; zero; one].

Fixpoint Matrix_equals (this matrix : Matrix) : bool :=
  match this, matrix with
  | [], [] => true
  | a :: this, b :: matrix => SFeqb a b && Matrix_equals this matrix
  | _, _ => false
  end.

Definition Matrix_copy (matrix : Matrix) (this : Matrix) : Matrix := matrix.

(** The uniforms of the two programs, by the name of the field that holds
    their location. *)
Inductive Location :=
| fragModeLocation
| mvpMatrixLocation
| texCoordMatrixLocation
| vertexOriginLocation
| eyePointLocation
| eyeMagnitude2Location
| lightDirectionLocation
| textureUnitLocation.

#[global] Instance Location_eq_dec : EqDecision Location.
Proof. solve_decision. Defined.

(** The calls on the graphics context. *)
Inductive GlCall :=
| uniform1i (location : Location) (value : Z)
| uniform1f (location : Location) (value : spec_float)
| uniform3f (location : Location) (x y z : spec_float)
| uniformMatrix3fv (location : Location) (transpose : bool) (value : Matrix)
| loadUniformMatrix (matrix : Matrix) (location : Location).

(** The graphics context, as the calls made on it so far. *)
Definition Gl : Type := list GlCall.

(** [gl.TEXTURE0] *)
Definition TEXTURE0 : Z := 33984.

(** What a uniform holds after the calls: the value of the last call that
    set it. *)
Definition vectorAt (location : Location) (gl : Gl) : option Vec3 :=
  last (omap (λ call, match call with
                      | uniform3f l x y z =>
                          if decide (l = location) then Some (x, y, z) else None
                      | _ => None
                      end) gl).

Definition matrixAt (location : Location) (gl : Gl) : option Matrix :=
  last (omap (λ call, match call with
                      | loadUniformMatrix matrix l =>
                          if decide (l = location) then Some matrix else None
                      | _ => None
                      end) gl).

(** A vector is remembered by an entry of [localState] when the entry holds
    it, or holds one that [equals] takes for it; likewise a matrix. *)
Definition remembers (entry : option Vec3) (vector : Vec3) : Prop :=
  ∃ cached, entry = Some cached ∧ (cached = vector ∨ Vec3_equals cached vector = true).

Definition remembersMatrix (entry : option Matrix) (matrix : Matrix) : Prop :=
  ∃ cached, entry = Some cached ∧ (cached = matrix ∨ Matrix_equals cached matrix = true).

End Glsl.

(* ===================================================================== *)
(** * GroundProgram  (src/shaders/GroundProgram.js)                        *)
(* ===================================================================== *)

(** The sources carry the module behind GeoTiffUtil, in
    src/formats/geotiff/GeoTiffUtil.js from line 158 on. *)

Module GroundProgram.
Import Glsl.

(** [this.localState]: what the program remembers of the uniforms it has
    loaded; null until the first load.  Of its six entries the program
    uses two. *)
Record LocalState := mkLocalState {
  eyePoint : option Vec3;
  lightDirection : option Vec3;
  vertexOrigin : option Vec3;
  fragMode : option Z;
  mvpMatrix : option Matrix;
  texCoordMatrix : option Matrix
}.

Definition with_lightDirection (v : option Vec3) (this : LocalState) : LocalState :=
  mkLocalState (eyePoint this) v (vertexOrigin this) (fragMode this)
               (mvpMatrix this) (texCoordMatrix this).

Definition with_vertexOrigin (v : option Vec3) (this : LocalState) : LocalState :=
  mkLocalState (eyePoint this) (lightDirection this) v (fragMode this)
               (mvpMatrix this) (texCoordMatrix this).

(** The constructor leaves every entry of [localState] null. *)
Definition new : LocalState := mkLocalState None None None None None None.

Definition loadFragMode (gl : Gl) (fragMode : Z) (this : LocalState)
    : LocalState * Gl :=
  (this, gl ++ [uniform1i fragModeLocation fragMode]).

Definition loadModelviewProjection (gl : Gl) (matrix : Matrix) (this : LocalState)
    : LocalState * Gl :=
  (this, gl ++ [loadUniformMatrix matrix mvpMatrixLocation]).

Definition loadVertexOrigin (gl : Gl) (vector : Vec3) (this : LocalState)
    : LocalState * Gl :=
  let forceLoad := false in
  let '(this, forceLoad) :=
    match vertexOrigin this with
    | None => (with_vertexOrigin (Some (zero, zero, zero)) this, true)
    | Some _ => (this, forceLoad)
    end in
  if forceLoad
     || negb (Vec3_equals (default (zero, zero, zero) (vertexOrigin this)) vector)
  then
    let gl := gl ++ [uniform3f vertexOriginLocation vector.1.1 vector.1.2 vector.2] in
    (with_vertexOrigin (Vec3_copy vector <$> vertexOrigin this) this, gl)
  else (this, gl).

Definition loadLightDirection (gl : Gl) (vector : Vec3) (this : LocalState)
    : LocalState * Gl :=
  let forceLoad := false in
  let '(this, forceLoad) :=
    match lightDirection this with
    | None => (with_lightDirection (Some (zero, zero, zero)) this, true)
    | Some _ => (this, forceLoad)
    end in
  if forceLoad
     || negb (Vec3_equals (default (zero, zero, zero) (lightDirection this)) vector)
  then
    let gl := gl ++ [uniform3f lightDirectionLocation vector.1.1 vector.1.2 vector.2] in
    (with_lightDirection (Vec3_copy vector <$> lightDirection this) this, gl)
  else (this, gl).

Definition loadEyePoint (gl : Gl) (vector : Vec3) (this : LocalState)
    : LocalState * Gl :=
  let gl := gl ++ [uniform3f eyePointLocation vector.1.1 vector.1.2 vector.2] in
  let gl := gl ++ [uniform1f eyeMagnitude2Location (magnitudeSquared vector)] in
  (this, gl).

(** [matrix.columnMajorComponents(this.scratchArray9)] is carried as the
    matrix. *)
Definition loadTexMatrix (gl : Gl) (matrix : Matrix) (this : LocalState)
    : LocalState * Gl :=
  (this, gl ++ [uniformMatrix3fv texCoordMatrixLocation false matrix]).

Definition loadTextureUnit (gl : Gl) (unit : Z) (this : LocalState)
    : LocalState * Gl :=
  (this, gl ++ [uniform1i textureUnitLocation (unit - TEXTURE0)]).

(** The loads a caller can make, and a run of them. *)
Inductive Load :=
| LoadFragMode (fragMode : Z)
| LoadModelviewProjection (matrix : Matrix)
| LoadVertexOrigin (vector : Vec3)
| LoadLightDirection (vector : Vec3)
| LoadEyePoint (vector : Vec3)
| LoadTexMatrix (matrix : Matrix)
| LoadTextureUnit (unit : Z).

Definition step (state : LocalState * Gl) (load : Load) : LocalState * Gl :=
  let '(this, gl) := state in
  match load with
  | LoadFragMode fragMode => loadFragMode gl fragMode this
  | LoadModelviewProjection matrix => loadModelviewProjection gl matrix this
  | LoadVertexOrigin vector => loadVertexOrigin gl vector this
  | LoadLightDirection vector => loadLightDirection gl vector this
  | LoadEyePoint vector => loadEyePoint gl vector this
  | LoadTexMatrix matrix => loadTexMatrix gl matrix this
  | LoadTextureUnit unit => loadTextureUnit gl unit this
  end.

Definition run (loads : list Load) (state : LocalState * Gl) : LocalState * Gl :=
  foldl step state loads.

(** The vector of the last load of the vertex origin, and of the light
    direction, in a run. *)
Definition lastVertexOrigin (loads : list Load) : option Vec3 :=
  last (omap (λ load, match load with LoadVertexOrigin v => Some v | _ => None end) loads).

Definition lastLightDirection (loads : list Load) : option Vec3 :=
  last (omap (λ load, match load with LoadLightDirection v => Some v | _ => None end) loads).

End GroundProgram.

(* ===================================================================== *)
(** * SkyProgram  (src/shaders/SkyProgram.js)                              *)
(* ===================================================================== *)

Module SkyProgram.
Import Glsl.

Record LocalState := mkLocalState {
  mvpMatrix : option Matrix;
  lightDirection : option Vec3
}.

Definition new : LocalState := mkLocalState None None.

Definition loadModelviewProjection (gl : Gl) (matrix : Matrix) (this : LocalState)
    : LocalState * Gl :=
  let forceLoad := false in
  let '(this, forceLoad) :=
    match mvpMatrix this with
    | None => (mkLocalState (Some fromIdentity) (lightDirection this), true)
    | Some _ => (this, forceLoad)
    end in
  if forceLoad || negb (Matrix_equals (default fromIdentity (mvpMatrix this)) matrix)
  then
    let gl := gl ++ [loadUniformMatrix matrix mvpMatrixLocation] in
    (mkLocalState (Matrix_copy matrix <$> mvpMatrix this) (lightDirection this), gl)
  else (this, gl).

Definition loadLightDirection (gl : Gl) (vector : Vec3) (this : LocalState)
    : LocalState * Gl :=
  let forceLoad := false in
  let '(this, forceLoad) :=
    match lightDirection this with
    | None => (mkLocalState (mvpMatrix this) (Some (zero, zero, zero)), true)
    | Some _ => (this, forceLoad)
    end in
  if forceLoad
     || negb (Vec3_equals (default (zero, zero, zero) (lightDirection this)) vector)
  then
    let gl := gl ++ [uniform3f lightDirectionLocation vector.1.1 vector.1.2 vector.2] in
    (mkLocalState (mvpMatrix this) (Vec3_copy vector <$> lightDirection this), gl)
  else (this, gl).

Definition loadEyePoint (gl : Gl) (vector : Vec3) (this : LocalState)
    : LocalState * Gl :=
  let gl := gl ++ [uniform3f eyePointLocation vector.1.1 vector.1.2 vector.2] in
  let gl := gl ++ [uniform1f eyeMagnitude2Location (magnitudeSquared vector)] in
  (this, gl).

Inductive Load :=
| LoadModelviewProjection (matrix : Matrix)
| LoadLightDirection (vector : Vec3)
| LoadEyePoint (vector : Vec3).

Definition step (state : LocalState * Gl) (load : Load) : LocalState * Gl :=
  let '(this, gl) := state in
  match load with
  | LoadModelviewProjection matrix => loadModelviewProjection gl matrix this
  | LoadLightDirection vector => loadLightDirection gl vector this
  | LoadEyePoint vector => loadEyePoint gl vector this
  end.

Definition run (loads : list Load) (state : LocalState * Gl) : LocalState * Gl :=
  foldl step state loads.

Definition lastModelviewProjection (loads : list Load) : option Matrix :=
  last (omap (λ load, match load with LoadModelviewProjection m => Some m | _ => None end)
             loads).

Definition lastLightDirection (loads : list Load) : option Vec3 :=
  last (omap (λ load, match load with LoadLightDirection v => Some v | _ => None end) loads).

End SkyProgram.

(* ===================================================================== *)
(** * Facts about GpuResourceCache                                         *)
(* ===================================================================== *)

Module GpuResourceCacheFacts.
Import GpuResourceCache.

(** ** Sizes *)

Lemma totalSize_app (l1 l2 : list CacheEntry) :
  totalSize (l1 ++ l2) = (totalSize l1 + totalSize l2)%N.
Proof. induction l1 as [|e l1 IH]; simpl; [done | rewrite IH; lia]. Qed.

Lemma totalSize_touchKey k f (es : list CacheEntry) :
  totalSize (touchKey k f es) = totalSize es.
Proof.
  induction es as [|e es IH]; simpl; [done|].
  destruct (decide (key e = k)); simpl; by rewrite IH.
Qed.

Lemma totalSize_sublist (l1 l2 : list CacheEntry) :
  l1 `sublist_of` l2 → (totalSize l1 <= totalSize l2)%N.
Proof. induction 1; simpl; lia. Qed.

Lemma removeKey_sublist k (es : list CacheEntry) : removeKey k es `sublist_of` es.
Proof.
  induction es as [|e es IH]; simpl; [constructor|].
  destruct (decide (key e = k)); by constructor.
Qed.

Lemma totalSize_removeKey k es : (totalSize (removeKey k es) <= totalSize es)%N.
Proof. apply totalSize_sublist, removeKey_sublist. Qed.

(** ** Lookup, removal and touching *)

Lemma elem_of_removeKey k (es : list CacheEntry) e :
  e ∈ removeKey k es ↔ e ∈ es ∧ key e ≠ k.
Proof.
  induction es as [|x es IH]; simpl.
  - split; [by intros ?%elem_of_nil | by intros [?%elem_of_nil _]].
  - destruct (decide (key x = k)) as [Hx|Hx].
    + rewrite IH, elem_of_cons. split.
      * intros [? ?]. split; [by right | done].
      * intros [[->|?] ?]; [congruence | done].
    + rewrite !elem_of_cons, IH. split.
      * intros [->|[? ?]]; [split; [by left | done] | split; [by right | done]].
      * intros [[->|?] ?]; [by left | by right].
Qed.

Lemma findEntry_Some k (es : list CacheEntry) e :
  findEntry k es = Some e → e ∈ es ∧ key e = k.
Proof.
  induction es as [|x es IH]; simpl; [done|].
  destruct (decide (key x = k)).
  - intros [= ->]. split; [left | done].
  - intros [? ?]%IH. split; [by right | done].
Qed.

Lemma findEntry_None k (es : list CacheEntry) :
  findEntry k es = None ↔ ∀ e, e ∈ es → key e ≠ k.
Proof.
  induction es as [|x es IH]; simpl.
  - split; [by intros _ ? ?%elem_of_nil | done].
  - destruct (decide (key x = k)) as [Hx|Hx].
    + split; [done|]. intros H. exfalso. apply (H x); [left | done].
    + rewrite IH. split.
      * intros H e [->|?]%elem_of_cons; auto.
      * intros H e ?. apply H. by right.
Qed.

Lemma findEntry_removeKey_eq k es : findEntry k (removeKey k es) = None.
Proof. apply findEntry_None. by intros e [_ ?]%elem_of_removeKey. Qed.

Lemma findEntry_removeKey_ne k k' es :
  k ≠ k' → findEntry k (removeKey k' es) = findEntry k es.
Proof.
  intros Hne. induction es as [|x es IH]; simpl; [done|].
  destruct (decide (key x = k')) as [Hx|Hx]; simpl.
  - destruct (decide (key x = k)); [congruence | done].
  - destruct (decide (key x = k)); [done | apply IH].
Qed.

Lemma findEntry_app k (l1 l2 : list CacheEntry) :
  findEntry k (l1 ++ l2) =
  match findEntry k l1 with Some e => Some e | None => findEntry k l2 end.
Proof.
  induction l1 as [|x l1 IH]; simpl; [done|].
  by destruct (decide (key x = k)).
Qed.

Lemma findEntry_touchKey_eq k f es :
  findEntry k (touchKey k f es) =
  (λ e, mkEntry (key e) (resource e) (byteSize e) f) <$> findEntry k es.
Proof.
  induction es as [|x es IH]; simpl; [done|].
  destruct (decide (key x = k)) as [Hx|Hx]; simpl.
  - by rewrite decide_True.
  - by rewrite decide_False.
Qed.

Lemma findEntry_touchKey_ne k k' f es :
  k ≠ k' → findEntry k (touchKey k' f es) = findEntry k es.
Proof.
  intros Hne. induction es as [|x es IH]; simpl; [done|].
  destruct (decide (key x = k')) as [Hx|Hx]; simpl.
  - destruct (decide (key x = k)); [congruence | done].
  - destruct (decide (key x = k)); [done | apply IH].
Qed.

(** ** The victim chosen by [lruCandidate] *)

Lemma lruCandidate_Some f (es : list CacheEntry) v :
  lruCandidate f es = Some v →
  v ∈ es ∧ evictable f v = true ∧
  ∀ e, e ∈ es → evictable f e = true → lastTouchedFrame v ≤ lastTouchedFrame e.
Proof.
  revert v. induction es as [|x es IH]; simpl; [done|]. intros v.
  destruct (evictable f x) eqn:Hx.
  - destruct (lruCandidate f es) as [b|] eqn:Hb.
    + destruct (IH b eq_refl) as (Hin & Hev & Hmin).
      destruct (lastTouchedFrame x <=? lastTouchedFrame b) eqn:Hle; intros [= <-].
      * apply Nat.leb_le in Hle. split; [left|]. split; [done|].
        intros e [->|He]%elem_of_cons Hee; [lia|]. specialize (Hmin e He Hee). lia.
      * apply Nat.leb_gt in Hle. split; [by right|]. split; [done|].
        intros e [->|He]%elem_of_cons Hee; [lia | by apply Hmin].
    + intros [= <-]. split; [left|]. split; [done|].
      intros e [->|He]%elem_of_cons Hee; [lia|].
      clear IH. exfalso. induction es as [|y es IHes]; [by apply elem_of_nil in He|].
      simpl in Hb. apply elem_of_cons in He as [->|He].
      * rewrite Hee in Hb. by destruct (lruCandidate f es) as [b|]; [destruct (_ <=? _)|].
      * destruct (evictable f y); [|by apply IHes].
        by destruct (lruCandidate f es) as [b|]; [destruct (_ <=? _)|].
  - intros Hv. destruct (IH v Hv) as (Hin & Hev & Hmin).
    split; [by right|]. split; [done|].
    intros e [->|He]%elem_of_cons Hee; [congruence | by apply Hmin].
Qed.

Lemma lruCandidate_None f (es : list CacheEntry) :
  lruCandidate f es = None → ∀ e, e ∈ es → evictable f e = false.
Proof.
  induction es as [|x es IH]; simpl; [by intros _ ? ?%elem_of_nil|].
  destruct (evictable f x) eqn:Hx.
  - by destruct (lruCandidate f es) as [b|]; [destruct (_ <=? _)|].
  - intros H e [->|He]%elem_of_cons; [done | by apply IH].
Qed.

Lemma length_removeKey_lt (es : list CacheEntry) v :
  v ∈ es → length (removeKey (key v) es) < length es.
Proof.
  induction es as [|x es IH]; simpl; [by intros ?%elem_of_nil|].
  intros Hv. destruct (decide (key x = key v)) as [Hx|Hx].
  - pose proof (sublist_length _ _ (removeKey_sublist (key v) es)). lia.
  - apply elem_of_cons in Hv as [->|Hv]; [done|]. simpl. specialize (IH Hv). lia.
Qed.

(** ** The eviction loop *)

Lemma removeKeys_sublist ks (es : list CacheEntry) : removeKeys ks es `sublist_of` es.
Proof.
  revert es. induction ks as [|k ks IH]; intros es; simpl; [done|].
  etrans; [apply IH | apply removeKey_sublist].
Qed.

Lemma elem_of_removeKeys ks (es : list CacheEntry) e :
  e ∈ removeKeys ks es ↔ e ∈ es ∧ key e ∉ ks.
Proof.
  revert es. induction ks as [|k ks IH]; intros es; simpl.
  - split; [intros ?; split; [done | by intros ?%elem_of_nil] | by intros [? _]].
  - rewrite IH, elem_of_removeKey, not_elem_of_cons. tauto.
Qed.

(** The shape of what [makeSpace] returns: the survivors are the entries
    whose keys were not evicted, and every victim was a resident entry not
    touched in the current frame. *)
Lemma makeSpace_shape n f cap s (es kept ev : list CacheEntry) :
  makeSpace n f cap s es = (kept, ev) →
  kept = removeKeys (key <$> ev) es ∧
  ∀ v, v ∈ ev → v ∈ es ∧ evictable f v = true.
Proof.
  revert es kept ev. induction n as [|n IH]; intros es kept ev; simpl.
  - intros [= <- <-]. split; [done | by intros ? ?%elem_of_nil].
  - destruct (cap <? totalSize es + s)%N;
      [|intros [= <- <-]; split; [done | by intros ? ?%elem_of_nil]].
    destruct (lruCandidate f es) as [v|] eqn:Hv;
      [|intros [= <- <-]; split; [done | by intros ? ?%elem_of_nil]].
    destruct (lruCandidate_Some _ _ _ Hv) as (Hin & Hev & _).
    destruct (makeSpace n f cap s (removeKey (key v) es)) as [kept' ev'] eqn:Hrec.
    intros [= <- <-]. destruct (IH _ _ _ Hrec) as [Hk Hvs].
    split; [done|].
    intros w [->|Hw]%elem_of_cons; [done|].
    destruct (Hvs w Hw) as [[? _]%elem_of_removeKey ?]. done.
Qed.

(** With enough rounds the loop ends because the resource fits, or because
    no survivor may be evicted. *)
Lemma makeSpace_exit n f cap s (es kept ev : list CacheEntry) :
  length es ≤ n →
  makeSpace n f cap s es = (kept, ev) →
  (totalSize kept + s <= cap)%N ∨ ∀ e, e ∈ kept → evictable f e = false.
Proof.
  revert es kept ev. induction n as [|n IH]; intros es kept ev Hlen; simpl.
  - intros [= <- <-]. destruct es; [|simpl in Hlen; lia].
    right. by intros ? ?%elem_of_nil.
  - destruct (cap <? totalSize es + s)%N eqn:Hfit;
      [|intros [= <- <-]; apply N.ltb_ge in Hfit; by left].
    destruct (lruCandidate f es) as [v|] eqn:Hv;
      [|intros [= <- <-]; right; by apply lruCandidate_None].
    destruct (lruCandidate_Some _ _ _ Hv) as (Hin & _ & _).
    destruct (makeSpace n f cap s (removeKey (key v) es)) as [kept' ev'] eqn:Hrec.
    intros [= <- <-].
    pose proof (length_removeKey_lt _ _ Hin) as Hlt.
    eapply IH; [|exact Hrec]. lia.
Qed.

(** Victims leave least recently touched first, and no survivor that could
    have been evicted is older than a victim. *)
Lemma makeSpace_lru n f cap s (es kept ev : list CacheEntry) :
  makeSpace n f cap s es = (kept, ev) →
  StronglySorted (λ a b, lastTouchedFrame a ≤ lastTouchedFrame b) ev ∧
  ∀ v e, v ∈ ev → e ∈ kept → evictable f e = true →
         lastTouchedFrame v ≤ lastTouchedFrame e.
Proof.
  revert es kept ev. induction n as [|n IH]; intros es kept ev; simpl.
  - intros [= <- <-]. split; [constructor | by intros ? ? ?%elem_of_nil].
  - destruct (cap <? totalSize es + s)%N;
      [|intros [= <- <-]; split; [constructor | by intros ? ? ?%elem_of_nil]].
    destruct (lruCandidate f es) as [v|] eqn:Hv;
      [|intros [= <- <-]; split; [constructor | by intros ? ? ?%elem_of_nil]].
    destruct (lruCandidate_Some _ _ _ Hv) as (Hin & Hev & Hmin).
    destruct (makeSpace n f cap s (removeKey (key v) es)) as [kept' ev'] eqn:Hrec.
    intros [= <- <-]. destruct (IH _ _ _ Hrec) as [Hsorted Hold].
    destruct (makeSpace_shape _ _ _ _ _ _ _ Hrec) as [Hk Hvs].
    split.
    + constructor; [done|]. apply Forall_forall. intros w Hw.
      destruct (Hvs w Hw) as [[? _]%elem_of_removeKey ?]. by apply Hmin.
    + intros w e [->|Hw]%elem_of_cons He Hee; [|by eapply Hold].
      apply Hmin; [|done]. subst kept'.
      by apply elem_of_removeKeys in He as [[? _]%elem_of_removeKey _].
Qed.

(** Every eviction happened while the resource did not fit. *)
Lemma makeSpace_forced n f cap s (es kept ev ev1 ev2 : list CacheEntry) v :
  makeSpace n f cap s es = (kept, ev) →
  ev = ev1 ++ v :: ev2 →
  (cap < totalSize (removeKeys (key <$> ev1) es) + s)%N.
Proof.
  revert es kept ev ev1. induction n as [|n IH]; intros es kept ev ev1; simpl.
  - intros [= <- <-] H. by destruct ev1.
  - destruct (cap <? totalSize es + s)%N eqn:Hfit;
      [|intros [= <- <-] H; by destruct ev1].
    destruct (lruCandidate f es) as [w|] eqn:Hw;
      [|intros [= <- <-] H; by destruct ev1].
    destruct (makeSpace n f cap s (removeKey (key w) es)) as [kept' ev'] eqn:Hrec.
    intros [= <- <-] H. destruct ev1 as [|x ev1]; simpl in *.
    + by apply N.ltb_lt.
    + injection H as <- ->. by eapply IH.
Qed.

(** ** The byte budget *)

Lemma pinnedBytes_removeKey k f es :
  pinnedBytes k f (removeKey k es) = pinnedBytes k f es.
Proof.
  induction es as [|e es IH]; simpl; [done|].
  destruct (decide (key e = k)) as [He|He]; simpl; [done|].
  rewrite decide_False by done. by rewrite IH.
Qed.

Lemma pinnedBytes_sublist k f (l1 l2 : list CacheEntry) :
  l1 `sublist_of` l2 → (pinnedBytes k f l1 <= pinnedBytes k f l2)%N.
Proof.
  induction 1 as [|e l1 l2 _ IH|e l1 l2 _ IH]; simpl; [done| |];
    destruct (decide (key e = k)); try destruct (evictable f e); lia.
Qed.

Lemma totalSize_all_pinned k f (es : list CacheEntry) :
  (∀ e, e ∈ es → key e ≠ k) →
  (∀ e, e ∈ es → evictable f e = false) →
  totalSize es = pinnedBytes k f es.
Proof.
  induction es as [|e es IH]; simpl; [done|]. intros Hk Hp.
  rewrite decide_False by (apply Hk; left).
  rewrite (Hp e) by left. rewrite IH; [done| |]; intros x Hx; [apply Hk | apply Hp]; by right.
Qed.

Lemma pinnedBytes_le_totalSize k f es : (pinnedBytes k f es <= totalSize es)%N.
Proof.
  induction es as [|e es IH]; simpl; [done|].
  destruct (decide (key e = k)); try destruct (evictable f e); lia.
Qed.

(** What [putResource] does, by cases: it refuses and leaves the cache as it
    is, or it inserts after the eviction loop has made room. *)
Lemma putResource_cases k r s c :
  putResource k r s c = (CacheOverflow, c) ∨
  ∃ kept ev,
    makeSpace (length (removeKey k (entries c))) (currentFrame c) (budget c) s
              (removeKey k (entries c)) = (kept, ev) ∧
    (totalSize kept + s <= budget c)%N ∧
    putResource k r s c =
      (Inserted (match findEntry k (entries c) with Some e => [e] | None => [] end ++ ev),
       setEntries (kept ++ [mkEntry k r s (currentFrame c)]) c).
Proof.
  unfold putResource. destruct (budget c <? s)%N; [by left|].
  destruct (makeSpace _ _ _ _ _) as [kept ev] eqn:Hms.
  destruct (budget c <? totalSize kept + s)%N eqn:Hroom; [by left|].
  right. exists kept, ev. apply N.ltb_ge in Hroom. done.
Qed.

(** [putResource] leaves a cache that was within budget within budget. *)
Lemma putResource_withinBudget k r s c :
  withinBudget c → withinBudget (snd (putResource k r s c)).
Proof.
  intros Hc. destruct (putResource_cases k r s c) as [->|(kept & ev & _ & Hroom & ->)];
    [done|].
  unfold withinBudget, residentBytes. simpl. rewrite totalSize_app. simpl. lia.
Qed.

Lemma putResource_overflow k r s c :
  (budget c < s)%N → putResource k r s c = (CacheOverflow, c).
Proof. intros H. unfold putResource. apply N.ltb_lt in H. by rewrite H. Qed.

Lemma step_budget op c : budget (step op c) = budget c.
Proof.
  destruct op as [k r s|k| |k|]; simpl; try done.
  - by destruct (putResource_cases k r s c) as [->|(kept & ev & _ & _ & ->)].
  - unfold resourceForKey. by destruct (findEntry _ _).
Qed.

(** Every call leaves a cache that was within budget within budget. *)
Lemma step_withinBudget op c : withinBudget c → withinBudget (step op c).
Proof.
  intros Hc. destruct op as [k r s|k| |k|]; simpl in *.
  - by apply putResource_withinBudget.
  - unfold withinBudget, residentBytes in *. simpl.
    pose proof (totalSize_removeKey k (entries c)). lia.
  - unfold withinBudget, residentBytes. simpl. lia.
  - unfold resourceForKey. destruct (findEntry _ _); [|done].
    unfold withinBudget, residentBytes in *. simpl. by rewrite totalSize_touchKey.
  - done.
Qed.

Lemma run_app ops1 ops2 c : run (ops1 ++ ops2) c = run ops2 (run ops1 c).
Proof. revert c. induction ops1 as [|op ops1 IH]; intros c; simpl; [done | apply IH]. Qed.

(** Claim C2: over every sequence of cache calls and frames, issued to a
    cache that is within its budget (an empty one is), the resident bytes
    are within the configured budget after every call. *)
Theorem budget_respected_after_every_call (ops : list Op) (c : Cache) (n : nat) :
  withinBudget c →
  withinBudget (run (take n ops) c).
Proof.
  revert c n. induction ops as [|op ops IH]; intros c n Hc.
  - by rewrite take_nil.
  - destruct n as [|n]; [done|]. simpl. by apply IH, step_withinBudget.
Qed.

Lemma budget_respected_after_every_call_witness :
  let ops := [PutResource (NamedKey "A") (TextureHandle 1) 150000000;
              PutResource (NamedKey "B") (TextureHandle 2) 150000000;
              ResourceForKey (NamedKey "A");
              BeginFrame;
              PutResource (NamedKey "B") (TextureHandle 2) 150000000;
              RemoveResource (NamedKey "B")] in
  withinBudget (emptyCache WorldWind.gpuCacheSize) ∧
  withinBudget (run (take 2 ops) (emptyCache WorldWind.gpuCacheSize)) ∧
  withinBudget (run (take 5 ops) (emptyCache WorldWind.gpuCacheSize)).
Proof.
  intros ops.
  assert (Hempty : withinBudget (emptyCache WorldWind.gpuCacheSize))
    by (unfold withinBudget; vm_compute; discriminate).
  exact (conj Hempty
           (conj (budget_respected_after_every_call ops _ 2 Hempty)
                 (budget_respected_after_every_call ops _ 5 Hempty))).
Defined.

(** ** At most one entry per key *)

Lemma NoDup_keys_sublist (l1 l2 : list CacheEntry) :
  l1 `sublist_of` l2 → NoDup (key <$> l2) → NoDup (key <$> l1).
Proof. intros H Hnd. eapply sublist_NoDup; [done | by apply fmap_sublist]. Qed.

Lemma keys_touchKey k f es : key <$> touchKey k f es = key <$> es.
Proof.
  induction es as [|e es IH]; [done|]. cbn [touchKey].
  destruct (decide (key e = k)); rewrite !fmap_cons; by rewrite IH.
Qed.

(** "Invariant: at most one entry per key": every call keeps it. *)
Lemma step_uniqueKeys op c : uniqueKeys c → uniqueKeys (step op c).
Proof.
  unfold uniqueKeys. intros Hc. destruct op as [k r s|k| |k|]; simpl.
  - destruct (putResource_cases k r s c) as [->|(kept & ev & Hms & _ & ->)]; [done|].
    simpl. destruct (makeSpace_shape _ _ _ _ _ _ _ Hms) as [-> _].
    rewrite fmap_app. simpl. apply NoDup_app. split; [|split].
    + eapply NoDup_keys_sublist; [|exact Hc].
      etrans; [apply removeKeys_sublist | apply removeKey_sublist].
    + intros x (e & -> & [[_ He]%elem_of_removeKey _]%elem_of_removeKeys)%list_elem_of_fmap.
      by intros ?%list_elem_of_singleton.
    + apply NoDup_singleton.
  - eapply NoDup_keys_sublist; [apply removeKey_sublist | done].
  - constructor.
  - unfold resourceForKey. destruct (findEntry _ _); [|done]. simpl.
    by rewrite keys_touchKey.
  - done.
Qed.

Lemma removeKey_absent k (es : list CacheEntry) :
  k ∉ (key <$> es) → removeKey k es = es.
Proof.
  induction es as [|e es IH]; simpl; [done|]. intros [Hne Hk]%not_elem_of_cons.
  rewrite decide_False by done. by rewrite IH.
Qed.

Lemma pinnedBytes_removeKey_victim k f (es : list CacheEntry) v :
  NoDup (key <$> es) → v ∈ es → evictable f v = true →
  pinnedBytes k f (removeKey (key v) es) = pinnedBytes k f es.
Proof.
  induction es as [|e es IH]; simpl; [done|].
  intros [Hnotin Hnd]%NoDup_cons Hv Hev.
  destruct (decide (key e = key v)) as [Hk|Hk].
  - assert (e = v) as ->.
    { apply elem_of_cons in Hv as [->|Hv]; [done|]. exfalso. apply Hnotin.
      rewrite Hk. apply list_elem_of_fmap. by exists v. }
    rewrite removeKey_absent by done. rewrite Hev. by destruct (decide (key v = k)).
  - apply elem_of_cons in Hv as [->|Hv]; [done|]. simpl.
    rewrite IH by done. done.
Qed.

(** With one entry per key, the eviction loop leaves every entry it may not
    evict in place. *)
Lemma makeSpace_keeps_pinned k n f cap s (es kept ev : list CacheEntry) :
  NoDup (key <$> es) →
  makeSpace n f cap s es = (kept, ev) →
  pinnedBytes k f kept = pinnedBytes k f es.
Proof.
  revert es kept ev. induction n as [|n IH]; intros es kept ev Hnd; simpl.
  - by intros [= <- _].
  - destruct (cap <? totalSize es + s)%N; [|by intros [= <- _]].
    destruct (lruCandidate f es) as [v|] eqn:Hv; [|by intros [= <- _]].
    destruct (lruCandidate_Some _ _ _ Hv) as (Hin & Hev & _).
    destruct (makeSpace n f cap s (removeKey (key v) es)) as [kept' ev'] eqn:Hrec.
    intros [= <- _].
    rewrite (IH _ _ _ (NoDup_keys_sublist _ _ (removeKey_sublist _ _) Hnd) Hrec).
    by apply pinnedBytes_removeKey_victim.
Qed.

(** [putResource] inserts when the resource fits the budget beside the
    entries it may not evict. *)
Lemma putResource_room k r s c :
  (s + pinnedBytes k (currentFrame c) (entries c) <= budget c)%N →
  ∃ kept ev,
    makeSpace (length (removeKey k (entries c))) (currentFrame c) (budget c) s
              (removeKey k (entries c)) = (kept, ev) ∧
    (totalSize kept + s <= budget c)%N ∧
    putResource k r s c =
      (Inserted (match findEntry k (entries c) with Some e => [e] | None => [] end ++ ev),
       setEntries (kept ++ [mkEntry k r s (currentFrame c)]) c).
Proof.
  intros Hfit. unfold putResource.
  assert (Hs : (budget c <? s)%N = false) by (apply N.ltb_ge; lia). rewrite Hs.
  destruct (makeSpace _ _ _ _ _) as [kept ev] eqn:Hms.
  assert (Hroom : (totalSize kept + s <= budget c)%N).
  { destruct (makeSpace_shape _ _ _ _ _ _ _ Hms) as [Hk Hv].
    destruct (makeSpace_exit _ _ _ _ _ _ _ (le_n _) Hms) as [?|Hall]; [done|].
    rewrite (totalSize_all_pinned k (currentFrame c)); [| |done].
    - pose proof (pinnedBytes_sublist k (currentFrame c) kept (removeKey k (entries c)))
        as Hle.
      rewrite pinnedBytes_removeKey in Hle. subst kept.
      specialize (Hle (removeKeys_sublist _ _)). lia.
    - intros e He. subst kept.
      by apply elem_of_removeKeys in He as [[_ ?]%elem_of_removeKey _]. }
  exists kept, ev. pose proof Hroom as Hb. apply N.ltb_ge in Hb. by rewrite Hb.
Qed.

(** It refuses, and leaves the cache as it is, when the resource does not
    fit beside them. *)
Lemma putResource_no_room k r s c :
  uniqueKeys c →
  (budget c < s + pinnedBytes k (currentFrame c) (entries c))%N →
  putResource k r s c = (CacheOverflow, c).
Proof.
  intros Hnd Hover.
  destruct (putResource_cases k r s c) as [->|(kept & ev & Hms & Hroom & _)]; [done|].
  exfalso.
  pose proof (makeSpace_keeps_pinned k _ _ _ _ _ _ _
                (NoDup_keys_sublist _ _ (removeKey_sublist k _) Hnd) Hms) as Hkeep.
  rewrite pinnedBytes_removeKey in Hkeep.
  pose proof (pinnedBytes_le_totalSize k (currentFrame c) kept). lia.
Qed.

(** ** Round trip *)

Lemma findEntry_removeKeys k ks es :
  k ∉ ks → findEntry k (removeKeys ks es) = findEntry k es.
Proof.
  revert es. induction ks as [|k' ks IH]; intros es Hk; simpl; [done|].
  apply not_elem_of_cons in Hk as [Hne Hk].
  rewrite IH by done. by apply findEntry_removeKey_ne.
Qed.

Lemma putResource_holds k r s c rel :
  fst (putResource k r s c) = Inserted rel → holds k r (snd (putResource k r s c)).
Proof.
  destruct (putResource_cases k r s c) as [->|(kept & ev & Hms & _ & ->)]; [done|].
  simpl. intros _.
  destruct (makeSpace_shape _ _ _ _ _ _ _ Hms) as [-> _].
  exists (mkEntry k r s (currentFrame c)). split; [|done].
  simpl. rewrite findEntry_app.
  assert (findEntry k (removeKeys (key <$> ev) (removeKey k (entries c))) = None) as ->.
  { apply findEntry_None. by intros e [[_ ?]%elem_of_removeKey _]%elem_of_removeKeys. }
  simpl. by rewrite decide_True.
Qed.

Lemma step_holds k r op c :
  holds k r c → releases k op c = false → holds k r (step op c).
Proof.
  intros (e & He & Hr) Hrel. unfold releases in Hrel.
  apply bool_decide_eq_false in Hrel.
  destruct op as [k' r' s'|k'| |k'|]; simpl in *.
  - destruct (putResource_cases k' r' s' c) as [->|(kept & ev & Hms & _ & Hput)];
      [by exists e|].
    rewrite Hput in *. simpl in *.
    destruct (makeSpace_shape _ _ _ _ _ _ _ Hms) as [-> _].
    destruct (decide (k' = k)) as [->|Hne].
    + exfalso. apply Hrel. rewrite He. simpl.
      destruct (findEntry_Some _ _ _ He) as [_ <-]. left.
    + exists e. split; [|done]. simpl. rewrite findEntry_app, findEntry_removeKeys.
      * rewrite findEntry_removeKey_ne by done. by rewrite He.
      * intros Hin. apply Hrel. rewrite fmap_app. apply elem_of_app. by right.
  - destruct (decide (k' = k)) as [->|Hne].
    + exfalso. apply Hrel. rewrite He. simpl.
      destruct (findEntry_Some _ _ _ He) as [_ <-]. left.
    + exists e. simpl. by rewrite findEntry_removeKey_ne.
  - exfalso. apply Hrel. destruct (findEntry_Some _ _ _ He) as [Hin <-].
    apply list_elem_of_fmap. by exists e.
  - unfold resourceForKey. destruct (findEntry k' (entries c)) eqn:Hk'; [|by exists e].
    simpl. destruct (decide (k' = k)) as [->|Hne].
    + unfold holds. simpl. rewrite findEntry_touchKey_eq, He. simpl. by eexists.
    + exists e. simpl. by rewrite findEntry_touchKey_ne.
  - by exists e.
Qed.

Lemma resourceForKey_holds k r c : holds k r c → fst (resourceForKey k c) = Some r.
Proof. intros (e & He & <-). unfold resourceForKey. by rewrite He. Qed.

(** Claim C5: after a successful [putResource k r s], [resourceForKey k]
    returns [r], in the same frame and in every later one, whatever calls
    come in between, as long as none of them evicts, removes or replaces
    [k]'s entry. *)
Theorem put_then_resourceForKey (k : ResourceKey) (r : Handle) (s : N)
    (c : Cache) (rel : list CacheEntry) (ops : list Op) :
  fst (putResource k r s c) = Inserted rel →
  keeps k ops (snd (putResource k r s c)) = true →
  fst (resourceForKey k (run ops (snd (putResource k r s c)))) = Some r.
Proof.
  intros Hput Hkeep. apply resourceForKey_holds.
  apply putResource_holds in Hput. revert Hput Hkeep.
  generalize (snd (putResource k r s c)) as c1.
  induction ops as [|op ops IH]; intros c1 Hc1 Hkeep; simpl in *; [done|].
  apply andb_true_iff in Hkeep as [Hrel Hkeep].
  apply negb_true_iff in Hrel.
  apply IH; [by apply step_holds | done].
Qed.

Lemma put_then_resourceForKey_witness :
  fst (resourceForKey (GeneratedKey 1)
         (run [ResourceForKey (GeneratedKey 1); BeginFrame;
               PutResource (NamedKey "t") (TextureHandle 2) 5; BeginFrame]
              (snd (putResource (GeneratedKey 1) (BufferHandle 7) 4 (emptyCache 10)))))
  = Some (BufferHandle 7).
Proof.
  apply (put_then_resourceForKey _ _ _ _ []); reflexivity.
Defined.

(** ** Eviction order *)

Lemma evictable_true f e : evictable f e = true ↔ lastTouchedFrame e ≠ f.
Proof. unfold evictable. rewrite negb_true_iff. apply Nat.eqb_neq. Qed.

Lemma evictable_false f e : evictable f e = false ↔ lastTouchedFrame e = f.
Proof. unfold evictable. rewrite negb_false_iff. apply Nat.eqb_eq. Qed.

Lemma putResource_eviction k r s c :
  (s + pinnedBytes k (currentFrame c) (entries c) <= budget c)%N →
  ∃ victims,
    let others := removeKey k (entries c) in
    let kept := removeKeys (key <$> victims) others in
    putResource k r s c =
      (Inserted (match findEntry k (entries c) with Some e => [e] | None => [] end
                 ++ victims),
       setEntries (kept ++ [mkEntry k r s (currentFrame c)]) c) ∧
    (∀ v, v ∈ victims →
          v ∈ entries c ∧ key v ≠ k ∧ lastTouchedFrame v ≠ currentFrame c) ∧
    StronglySorted (λ a b, lastTouchedFrame a ≤ lastTouchedFrame b) victims ∧
    (∀ v e, v ∈ victims → e ∈ kept → lastTouchedFrame e ≠ currentFrame c →
            lastTouchedFrame v ≤ lastTouchedFrame e) ∧
    (∀ before v after, victims = before ++ v :: after →
       (budget c < totalSize (removeKeys (key <$> before) others) + s)%N) ∧
    (totalSize kept + s <= budget c)%N.
Proof.
  intros Hfit. destruct (putResource_room k r s c Hfit) as (kept & ev & Hms & Hroom & Hput).
  destruct (makeSpace_shape _ _ _ _ _ _ _ Hms) as [Hk Hv].
  destruct (makeSpace_lru _ _ _ _ _ _ _ Hms) as [Hsorted Hold].
  exists ev. cbn zeta. rewrite <- Hk. split; [done|]. split; [|split; [done|split; [|split]]].
  - intros v [[Hin Hne]%elem_of_removeKey Hev%evictable_true]%Hv. done.
  - intros v e Hvin Hein He. apply (Hold v e Hvin Hein). by apply evictable_true.
  - intros before v after Heq. by eapply makeSpace_forced.
  - done.
Qed.

(** ** Fresh entries *)

Lemma putResource_fresh k r s c :
  (s + pinnedBytes k (currentFrame c) (entries c) <= budget c)%N →
  fresh k r (snd (putResource k r s c)).
Proof.
  intros Hfit. destruct (putResource_room k r s c Hfit) as (kept & ev & Hms & _ & ->).
  simpl. destruct (makeSpace_shape _ _ _ _ _ _ _ Hms) as [-> _].
  eexists _, s. split; [done|].
  by intros e [[_ ?]%elem_of_removeKey _]%elem_of_removeKeys.
Qed.

Lemma fresh_holds k r c : fresh k r c → holds k r c.
Proof.
  intros (kept & s & Hentries & Hkept).
  exists (mkEntry k r s (currentFrame c)). split; [|done].
  rewrite Hentries, findEntry_app.
  rewrite (proj2 (findEntry_None k kept)) by done. simpl. by rewrite decide_True.
Qed.

(** A fresh entry survives a [putResource] on another key: it may not be
    evicted. *)
Lemma putResource_keeps_fresh k r k' r' s' c :
  k ≠ k' → fresh k r c → holds k r (snd (putResource k' r' s' c)).
Proof.
  intros Hne Hfresh. pose proof (fresh_holds _ _ _ Hfresh) as (e & Hfind & Hr).
  destruct Hfresh as (kept & s & Hentries & Hkept).
  exists e. split; [|done].
  destruct (putResource_cases k' r' s' c) as [->|(kept' & ev & Hms & _ & ->)]; [done|].
  simpl. destruct (makeSpace_shape _ _ _ _ _ _ _ Hms) as [-> Hvictims].
  rewrite findEntry_app, findEntry_removeKeys.
  - rewrite findEntry_removeKey_ne by done. by rewrite Hfind.
  - intros (v & Hkey & Hv)%list_elem_of_fmap.
    destruct (Hvictims v Hv) as [[Hin _]%elem_of_removeKey Hev].
    rewrite Hentries in Hin. apply elem_of_app in Hin as [Hin|Hin].
    + by apply (Hkept v).
    + apply list_elem_of_singleton in Hin as ->.
      apply evictable_true in Hev. simpl in Hev. congruence.
Qed.

Lemma cacheKeyPool_putResource k r s c :
  cacheKeyPool (snd (putResource k r s c)) = cacheKeyPool c.
Proof.
  by destruct (putResource_cases k r s c) as [->|(kept & ev & _ & _ & ->)].
Qed.

Lemma run_beginFrames n c :
  run (repeat BeginFrame n) c =
  {| budget := budget c; currentFrame := n + currentFrame c;
     entries := entries c; cacheKeyPool := cacheKeyPool c |}.
Proof.
  revert c. induction n as [|n IH]; intros c; simpl; [by destruct c|].
  rewrite IH. simpl. f_equal. lia.
Qed.

Ltac decide_keys :=
  repeat first [rewrite decide_True by done | rewrite decide_False by congruence].

Lemma lru_example (a b c d : ResourceKey) (ra rb rc rd : Handle) (n m : nat) :
  NoDup [a; b; c; d] → 0 < n →
  let before :=
    run ([PutResource a ra 1; PutResource b rb 1; PutResource c rc 1]
         ++ repeat BeginFrame n ++ [ResourceForKey a] ++ repeat BeginFrame m)
        (emptyCache 2) in
  releases b (PutResource d rd 1) before = true ∧
  resident b (step (PutResource d rd 1) before) = false ∧
  resident a (step (PutResource d rd 1) before) = true ∧
  resident d (step (PutResource d rd 1) before) = true.
Proof.
  intros Hnd Hn.
  assert (a ≠ b ∧ a ≠ c ∧ a ≠ d ∧ b ≠ c ∧ b ≠ d ∧ c ≠ d)
    as (Hab & Hac & Had & Hbc & Hbd & Hcd).
  { repeat match goal with
           | H : NoDup (_ :: _) |- _ => apply NoDup_cons in H as [? ?]
           | H : _ ∉ _ :: _ |- _ => apply not_elem_of_cons in H as [? ?]
           end. done. }
  set (ea f := mkEntry a ra 1 f). set (eb := mkEntry b rb 1 0).
  assert (H3 : run [PutResource a ra 1; PutResource b rb 1; PutResource c rc 1]
                   (emptyCache 2) = mkCache 2 0 [ea 0; eb] 0).
  { unfold emptyCache. simpl. unfold putResource. simpl. decide_keys. simpl.
    decide_keys. done. }
  assert (H4 : run [ResourceForKey a] (mkCache 2 n [ea 0; eb] 0)
               = mkCache 2 n [ea n; eb] 0).
  { simpl. unfold resourceForKey. simpl. decide_keys. simpl. decide_keys. done. }
  intros before.
  assert (Hbefore : before = mkCache 2 (m + n) [ea n; eb] 0).
  { subst before. rewrite !run_app, H3, (run_beginFrames n).
    cbn [budget currentFrame entries cacheKeyPool].
    rewrite Nat.add_0_r, H4, run_beginFrames. done. }
  rewrite Hbefore. clear before Hbefore H3 H4.
  assert (Hput : putResource d rd 1 (mkCache 2 (m + n) [ea n; eb] 0)
                 = (Inserted [eb],
                    mkCache 2 (m + n) [ea n; mkEntry d rd 1 (m + n)] 0)).
  { assert (H0 : evictable (m + n) eb = true) by (apply evictable_true; simpl; lia).
    assert (Hv1 : lruCandidate (m + n) [ea n; eb] = Some eb).
    { simpl. rewrite H0.
      destruct (evictable (m + n) (ea n)); [|done].
      cbn [lastTouchedFrame ea eb].
      destruct (Nat.leb_spec n 0); [lia | done]. }
    unfold putResource.
    cbn [budget entries currentFrame findEntry removeKey key ea eb].
    decide_keys. cbn [length makeSpace totalSize byteSize ea eb].
    change (2 <? 1)%N with false. change (2 <? 1 + (1 + 0) + 1)%N with true.
    cbn iota. fold (ea n) eb. rewrite Hv1.
    cbn [removeKey key ea eb]. decide_keys.
    cbn [totalSize byteSize ea eb]. change (2 <? 1 + 0 + 1)%N with false.
    done. }
  unfold releases, resident. simpl. rewrite Hput. simpl. decide_keys.
  split; [|done]. apply bool_decide_eq_true. set_solver.
Qed.

(** Claim C3, as amended: a [putResource] whose resource fits the budget
    beside the entries touched in the current frame evicts entries other
    than the one it replaces, never one touched in the current frame, least
    recently touched first, each one only while the resource does not fit,
    until it fits, and then inserts; one whose resource does not fit beside
    them evicts nothing and is refused.  In particular, with a budget of two
    unit-size entries: when A, B and C are inserted in one frame, A is
    touched in a later frame and D is inserted in that frame or after, B is
    evicted and A and D are resident. *)
Theorem putResource_evicts_least_recently_touched
    (k : ResourceKey) (r : Handle) (s : N) (cache : Cache)
    (a b c d : ResourceKey) (ra rb rc rd : Handle) (n m : nat) :
  uniqueKeys cache →
  NoDup [a; b; c; d] →
  0 < n →
  ((s + pinnedBytes k (currentFrame cache) (entries cache) <= budget cache)%N →
   ∃ victims,
    let others := removeKey k (entries cache) in
    let kept := removeKeys (key <$> victims) others in
    putResource k r s cache =
      (Inserted (match findEntry k (entries cache) with Some e => [e] | None => [] end
                 ++ victims),
       setEntries (kept ++ [mkEntry k r s (currentFrame cache)]) cache) ∧
    (∀ v, v ∈ victims →
          v ∈ entries cache ∧ key v ≠ k ∧ lastTouchedFrame v ≠ currentFrame cache) ∧
    StronglySorted (λ x y, lastTouchedFrame x ≤ lastTouchedFrame y) victims ∧
    (∀ v e, v ∈ victims → e ∈ kept → lastTouchedFrame e ≠ currentFrame cache →
            lastTouchedFrame v ≤ lastTouchedFrame e) ∧
    (∀ before v after, victims = before ++ v :: after →
       (budget cache < totalSize (removeKeys (key <$> before) others) + s)%N) ∧
    (totalSize kept + s <= budget cache)%N)
  ∧
  ((budget cache < s + pinnedBytes k (currentFrame cache) (entries cache))%N →
   putResource k r s cache = (CacheOverflow, cache))
  ∧
  (let before :=
     run ([PutResource a ra 1; PutResource b rb 1; PutResource c rc 1]
          ++ repeat BeginFrame n ++ [ResourceForKey a] ++ repeat BeginFrame m)
         (emptyCache 2) in
   releases b (PutResource d rd 1) before = true ∧
   resident b (step (PutResource d rd 1) before) = false ∧
   resident a (step (PutResource d rd 1) before) = true ∧
   resident d (step (PutResource d rd 1) before) = true).
Proof.
  intros Hunique Hnd Hn. split; [|split].
  - apply putResource_eviction.
  - by apply putResource_no_room.
  - by apply lru_example.
Qed.

Lemma putResource_evicts_least_recently_touched_witness :
  let A := NamedKey "A" in let B := NamedKey "B" in
  let C := NamedKey "C" in let D := NamedKey "D" in
  let before :=
    run [PutResource A (TextureHandle 1) 1; PutResource B (TextureHandle 2) 1;
         PutResource C (TextureHandle 3) 1; BeginFrame; ResourceForKey A]
        (emptyCache 2) in
  uniqueKeys before ∧ NoDup [A; B; C; D] ∧ 0 < 1 ∧
  fst (putResource D (TextureHandle 4) 1 before)
  = Inserted [mkEntry B (TextureHandle 2) 1 0] ∧
  resident B (step (PutResource D (TextureHandle 4) 1) before) = false ∧
  resident A (step (PutResource D (TextureHandle 4) 1) before) = true ∧
  resident D (step (PutResource D (TextureHandle 4) 1) before) = true.
Proof.
  intros A B C D before.
  assert (Hunique : uniqueKeys before).
  { unfold uniqueKeys. apply (bool_decide_unpack _). by vm_compute. }
  assert (Hnd : NoDup [A; B; C; D]).
  { apply (bool_decide_unpack _). by vm_compute. }
  destruct (putResource_evicts_least_recently_touched
              D (TextureHandle 4) 1 before A B C D
              (TextureHandle 1) (TextureHandle 2) (TextureHandle 3) (TextureHandle 4)
              1 0 Hunique Hnd Nat.lt_0_1) as (_ & _ & _ & Hb & Ha & Hd).
  assert (Hfst : fst (putResource D (TextureHandle 4) 1 before)
                 = Inserted [mkEntry B (TextureHandle 2) 1 0]) by reflexivity.
  exact (conj Hunique (conj Hnd (conj Nat.lt_0_1 (conj Hfst (conj Hb (conj Ha Hd)))))).
Defined.

(** The example depends on the frames the calls fall into.  One frame per
    call: inserting C evicts A, the least recently touched entry, so A is
    not resident when D has been inserted.  And a resource that would exceed
    the budget while every entry was touched in the current frame is not
    inserted: nothing may be evicted for it. *)
Lemma lru_example_fails_with_one_frame_per_call :
  let A := NamedKey "A" in let B := NamedKey "B" in
  let C := NamedKey "C" in let D := NamedKey "D" in
  resident A
    (run [PutResource A (TextureHandle 1) 1; BeginFrame;
          PutResource B (TextureHandle 2) 1; BeginFrame;
          PutResource C (TextureHandle 3) 1; BeginFrame;
          ResourceForKey A; BeginFrame;
          PutResource D (TextureHandle 4) 1]
         (emptyCache 2)) = false ∧
  (let full := run [PutResource A (TextureHandle 1) 1;
                    PutResource B (TextureHandle 2) 1] (emptyCache 2) in
   (budget full < residentBytes full + 1)%N ∧
   putResource C (TextureHandle 3) 1 full = (CacheOverflow, full)).
Proof. by vm_compute. Qed.

End GpuResourceCacheFacts.

(* ===================================================================== *)
(** * Facts about RetrievalPipeline                                        *)
(* ===================================================================== *)

Module RetrievalPipelineFacts.
Import RetrievalPipeline.

Lemma filter_removeOne_ne id x (l : list RequestId) :
  x ≠ id → filter (λ y, y = id) (removeOne x l) = filter (λ y, y = id) l.
Proof.
  intros Hne. induction l as [|y l IH]; cbn [removeOne]; [done|].
  destruct (decide (y = x)) as [->|Hy].
  - by rewrite filter_cons_False.
  - rewrite !filter_cons. destruct (decide (y = id)); by rewrite IH.
Qed.

Lemma filter_removeOne_eq id (l : list RequestId) :
  length (filter (λ y, y = id) (removeOne id l)) = pred (length (filter (λ y, y = id) l)).
Proof.
  induction l as [|y l IH]; cbn [removeOne]; [done|].
  destruct (decide (y = id)) as [->|Hy].
  - by rewrite filter_cons_True.
  - by rewrite !filter_cons_False.
Qed.

(** What [settle] does to the table: the request is re-queued or leaves. *)
Lemma settle_table id r result p :
  (table (settle id r result p) = delete id (table p) ∨
   table (settle id r result p) = <[id := withState QUEUED r]> (table p)) ∧
  running (settle id r result p) = running p ∧
  overdue (settle id r result p) = overdue p ∧
  retryLimit (settle id r result p) = retryLimit p.
Proof.
  unfold settle. destruct (cancelled r); [by auto|].
  destruct result as [? ?|reason]; [by auto|].
  destruct (transient reason && _); by auto.
Qed.

Lemma consistent_empty limit : consistent (emptyPipeline limit).
Proof.
  split.
  - intros id. unfold fetching, flying. simpl. by rewrite lookup_empty.
  - intros id r. simpl. by rewrite lookup_empty.
Qed.

(** The end of an attempt, reported or by deadline, keeps the table and the
    awaited fetches in step. *)
Lemma settled_consistent id r result p o :
  consistent p → table p !! id = Some r → state r = IN_FLIGHT →
  consistent
    (mkPipeline (retryLimit (settle id r result p)) (table (settle id r result p))
                (completed (settle id r result p))
                (removeOne id (running (settle id r result p))) o
                (started (settle id r result p)) (absent (settle id r result p))).
Proof.
  intros [Hfly Hpend] Hl Hs.
  destruct (settle_table id r result p) as (Ht & Hr & _ & _). rewrite Hr.
  split.
  - intros id'. specialize (Hfly id'). unfold fetching, flying in *. simpl.
    destruct (decide (id = id')) as [<-|Hne].
    + rewrite filter_removeOne_eq, Hfly, Hl, Hs.
      destruct Ht as [-> | ->]; [by rewrite lookup_delete_eq | by rewrite lookup_insert_eq].
    + rewrite filter_removeOne_ne by done. rewrite Hfly.
      destruct Ht as [-> | ->]; [by rewrite lookup_delete_ne | by rewrite lookup_insert_ne].
  - intros id' r'. simpl. destruct Ht as [-> | ->].
    + intros [_ H]%lookup_delete_Some. by eapply Hpend.
    + intros [[_ <-]|[_ H]]%lookup_insert_Some; [done | by eapply Hpend].
Qed.

Section Facts.
Variable keyFor : string → TileAddress → ResourceKey.

Lemma step_consistent e p : consistent p → consistent (step keyFor e p).
Proof.
  intros Hp. destruct e as [addr src|id0|id0 res|id0|id0|id0|]; simpl.
  - unfold requestTile. destruct (table p !! (src, addr)) eqn:Hl; [done|].
    destruct (decide _); [done|]. destruct Hp as [Hfly Hpend]. split.
    + intros id. specialize (Hfly id). unfold fetching, flying in *. simpl.
      destruct (decide ((src, addr) = id)) as [<-|Hne].
      * rewrite lookup_insert_eq. simpl. by rewrite Hfly, Hl.
      * by rewrite lookup_insert_ne.
    + intros id r. simpl.
      intros [[_ <-]|[_ H]]%lookup_insert_Some; [done | by eapply Hpend].
  - unfold workerStart. destruct (table p !! id0) as [r|] eqn:Hl; [|done].
    destruct (state r) eqn:Hs; try done. destruct Hp as [Hfly Hpend]. split.
    + intros id. specialize (Hfly id). unfold fetching, flying in *. simpl.
      rewrite filter_cons. destruct (decide (id0 = id)) as [<-|Hne].
      * rewrite lookup_insert_eq. simpl. rewrite Hfly, Hl, Hs. done.
      * by rewrite lookup_insert_ne.
    + intros id r'. simpl.
      intros [[_ <-]|[_ H]]%lookup_insert_Some; [done | by eapply Hpend].
  - unfold workerFinish. destruct (table p !! id0) as [r|] eqn:Hl; [|done].
    destruct (state r) eqn:Hs; try done. by apply settled_consistent.
  - unfold deadlinePassed. destruct (table p !! id0) as [r|] eqn:Hl; [|done].
    destruct (state r) eqn:Hs; try done. by apply settled_consistent.
  - done.
  - unfold cancel. destruct (table p !! id0) as [r|] eqn:Hl; [|done].
    destruct (state r) eqn:Hs; try done; destruct Hp as [Hfly Hpend]; split.
    + intros id. specialize (Hfly id). unfold fetching, flying in *. simpl.
      destruct (decide (id0 = id)) as [<-|Hne].
      * rewrite lookup_delete_eq. by rewrite Hfly, Hl, Hs.
      * by rewrite lookup_delete_ne.
    + intros id r'. simpl. intros [_ H]%lookup_delete_Some. by eapply Hpend.
    + intros id. specialize (Hfly id). unfold fetching, flying in *. simpl.
      destruct (decide (id0 = id)) as [<-|Hne].
      * rewrite lookup_insert_eq. simpl. by rewrite Hfly, Hl, Hs.
      * by rewrite lookup_insert_ne.
    + intros id r'. simpl.
      intros [[_ <-]|[_ H]]%lookup_insert_Some; [done | by eapply Hpend].
  - done.
Qed.

Lemma run_consistent schedule p : consistent p → consistent (run keyFor schedule p).
Proof.
  revert p. induction schedule as [|e rest IH]; intros p Hp; simpl; [done|].
  by apply IH, step_consistent.
Qed.

Lemma flying_le_1 id p : flying id p ≤ 1.
Proof. unfold flying. destruct (table p !! id) as [r|]; [destruct (state r)|]; lia. Qed.

(** With collision-free keys, fetches of which no request has more than one
    have no more than one for a key. *)
Lemma fetchesFor_le_1 K (fetches : list RequestId) :
  collisionFree keyFor →
  (∀ id, length (filter (λ x, x = id) fetches) ≤ 1) →
  length (fetchesFor keyFor K fetches) ≤ 1.
Proof.
  intros Hfree. induction fetches as [|x l IH]; intros Hone; [simpl; lia|].
  assert (Hone' : ∀ id, length (filter (λ y, y = id) l) ≤ 1).
  { intros id. specialize (Hone id). rewrite filter_cons in Hone.
    destruct (decide (x = id)); simpl in Hone; lia. }
  unfold fetchesFor in *. rewrite filter_cons.
  destruct (decide (keyFor x.1 x.2 = K)) as [HK|HK]; [|by apply IH].
  destruct (filter (λ id, keyFor id.1 id.2 = K) l) as [|y rest] eqn:Hrest; [done|].
  exfalso.
  assert (Hy : y ∈ filter (λ id, keyFor id.1 id.2 = K) l) by (rewrite Hrest; left).
  apply list_elem_of_filter in Hy as [Hy Hin].
  assert (y = x) as ->.
  { destruct x as [s a], y as [s' a']. simpl in *.
    destruct (Hfree s' a' s a) as [-> ->]; congruence. }
  specialize (Hone x). rewrite filter_cons_True in Hone by done. simpl in Hone.
  assert (x ∈ filter (λ y, y = x) l) as Hx by (by apply list_elem_of_filter).
  destruct (filter (λ y, y = x) l); [by apply elem_of_nil in Hx | simpl in Hone; lia].
Qed.

Lemma overdue_step e p :
  isDeadline e = false → overdue p = [] → overdue (step keyFor e p) = [].
Proof.
  intros He Hp. destruct e as [addr src|id0|id0 res|id0|id0|id0|]; try done; simpl.
  - unfold requestTile. destruct (table p !! (src, addr)); [done|].
    by destruct (decide _).
  - unfold workerStart. destruct (table p !! id0) as [r|]; [|done].
    by destruct (state r).
  - unfold workerFinish. destruct (table p !! id0) as [r|]; [|done].
    destruct (state r); try done. simpl.
    by destruct (settle_table id0 r res p) as (_ & _ & -> & _).
  - by rewrite Hp.
  - unfold cancel. destruct (table p !! id0) as [r|]; [|done].
    by destruct (state r).
Qed.

Lemma overdue_run schedule p :
  Forall (λ e, isDeadline e = false) schedule → overdue p = [] →
  overdue (run keyFor schedule p) = [].
Proof.
  revert p. induction schedule as [|e rest IH]; intros p Hs Hp; simpl; [done|].
  apply Forall_cons in Hs as [He Hs]. apply IH; [done | by apply overdue_step].
Qed.

Lemma started_run schedule p :
  Forall (λ e, isRequestOrStart e = true) schedule → started p = running p →
  started (run keyFor schedule p) = running (run keyFor schedule p).
Proof.
  revert p. induction schedule as [|e rest IH]; intros p Hs Hp; simpl; [done|].
  apply Forall_cons in Hs as [He Hs]. apply IH; [done|].
  destruct e as [addr src|id0|id0 res|id0|id0|id0|]; try done; simpl.
  - unfold requestTile. destruct (table p !! (src, addr)); [done|].
    by destruct (decide _).
  - unfold workerStart. destruct (table p !! id0) as [r|]; [|done].
    destruct (state r); try done. simpl. by rewrite Hp.
Qed.

(** Claim C1, as amended: in every state that a schedule of requests,
    worker starts and completions, deadlines, cancellations and drains can
    reach, a request found in the table for (source, address) is QUEUED or
    IN_FLIGHT, and [requestTile] returns it and leaves the pipeline as it
    was (no request is queued, no fetch started); with collision-free keys
    there is, for every key, at most one fetch in flight whose deadline has
    not passed, and at most one fetch in flight at all as long as no
    deadline passes; and calls of [requestTile], however many and however
    interleaved with the workers taking up requests, have at most one fetch
    started for a key. *)
Theorem requestTile_deduplicates
    (limit : nat) (schedule : list Event) (addr : TileAddress) (source : string)
    (existing : PendingRequest) (K : ResourceKey) :
  collisionFree keyFor →
  let p := run keyFor schedule (emptyPipeline limit) in
  (table p !! (source, addr) = Some existing →
   pending existing = true ∧ requestTile keyFor addr source p = (existing, p)) ∧
  awaited keyFor K p ≤ 1 ∧
  (Forall (λ e, isDeadline e = false) schedule → inFlight keyFor K p ≤ 1) ∧
  (Forall (λ e, isRequestOrStart e = true) schedule →
   length (fetchesFor keyFor K (started p)) ≤ 1).
Proof.
  intros Hfree p.
  destruct (run_consistent schedule _ (consistent_empty limit)) as [Hfly Hpend].
  fold p in Hfly, Hpend.
  assert (Hawaited : awaited keyFor K p ≤ 1).
  { apply fetchesFor_le_1; [done|]. intros id.
    change (fetching id p ≤ 1). rewrite Hfly. apply flying_le_1. }
  split; [|split; [done|split]].
  - intros Hl. split; [by eapply Hpend|]. unfold requestTile. by rewrite Hl.
  - intros Hno. unfold inFlight.
    replace (overdue p) with (@nil RequestId) by (symmetry; by apply overdue_run).
    by rewrite app_nil_r.
  - intros Honly. unfold p. by rewrite started_run.
Qed.

End Facts.

Lemma numberedKey_collisionFree : collisionFree numberedKey.
Proof.
  intros s a s' a' H. unfold numberedKey in H. injection H as H.
  apply (inj pretty) in H. injection H as H.
  apply (inj encode) in H. by injection H.
Qed.

Lemma requestTile_deduplicates_witness :
  let a := mkAddress 2 1 3 in
  let schedule := [RequestTile a "BMNG256"; RequestTile a "BMNG256";
                   WorkerStart ("BMNG256", a); RequestTile a "BMNG256";
                   WorkerStart ("BMNG256", a); DeadlinePassed ("BMNG256", a);
                   RequestTile a "BMNG256"; WorkerStart ("BMNG256", a)] in
  let p := run numberedKey schedule (emptyPipeline 3) in
  let existing := mkRequest a (numberedKey "BMNG256" a) IN_FLIGHT 2 false in
  collisionFree numberedKey ∧
  table p !! ("BMNG256", a) = Some existing ∧
  requestTile numberedKey a "BMNG256" p = (existing, p) ∧
  awaited numberedKey (numberedKey "BMNG256" a) p ≤ 1 ∧
  length (fetchesFor numberedKey (numberedKey "BMNG256" a)
            (started (run numberedKey (take 5 schedule) (emptyPipeline 3)))) ≤ 1.
Proof.
  intros a schedule p existing.
  assert (Hl : table p !! ("BMNG256", a) = Some existing) by (by vm_compute).
  destruct (requestTile_deduplicates numberedKey 3 schedule a "BMNG256" existing
              (numberedKey "BMNG256" a) numberedKey_collisionFree)
    as (Hreturn & Hawaited & _).
  destruct (requestTile_deduplicates numberedKey 3 (take 5 schedule) a "BMNG256"
              existing (numberedKey "BMNG256" a) numberedKey_collisionFree)
    as (_ & _ & _ & Hstarted).
  exact (conj numberedKey_collisionFree
           (conj Hl (conj (proj2 (Hreturn Hl))
              (conj Hawaited (Hstarted ltac:(by repeat constructor)))))).
Defined.

(** A fetch whose deadline has passed is still pending when the retry of
    its request starts: two fetches for the key are in flight. *)
Lemma timed_out_fetch_overlaps_its_retry :
  let a := mkAddress 2 1 3 in
  let p := run numberedKey
               [RequestTile a "BMNG256"; WorkerStart ("BMNG256", a);
                DeadlinePassed ("BMNG256", a); WorkerStart ("BMNG256", a)]
               (emptyPipeline 3) in
  running p = [("BMNG256", a)] ∧ overdue p = [("BMNG256", a)] ∧
  inFlight numberedKey (numberedKey "BMNG256" a) p = 2.
Proof. by vm_compute. Qed.


End RetrievalPipelineFacts.

(* ===================================================================== *)
(** * Facts about TileLevelSet                                             *)
(* ===================================================================== *)

Module TileLevelSetFacts.
Import TileLevelSet.

(** ** Cells of a regular grid *)

Lemma cellOf_mono origin delta x y count :
  (0 < delta)%Q → (x <= y)%Q →
  (cellOf origin delta x count ≤ cellOf origin delta y count)%Z.
Proof.
  intros Hd Hxy. unfold cellOf. apply Z.min_le_compat_r, Qfloor_resp_le.
  apply Qle_shift_div_l; [done|].
  assert (E : ((x - origin) / delta * delta == x - origin)%Q)
    by (field; intros H; rewrite H in Hd; by apply Qlt_irrefl in Hd).
  rewrite E. lra.
Qed.

Lemma cellOf_bounds origin delta x count :
  (0 < delta)%Q → (0 < count)%Z →
  (origin <= x)%Q → (x <= origin + inject_Z count * delta)%Q →
  let r := cellOf origin delta x count in
  (0 ≤ r ≤ count - 1)%Z ∧
  (origin + inject_Z r * delta <= x)%Q ∧
  (x <= origin + inject_Z (r + 1) * delta)%Q.
Proof.
  intros Hd Hc Hlo Hhi r. subst r. unfold cellOf.
  set (f := Qfloor ((x - origin) / delta)).
  assert (Hne : ¬ (delta == 0)%Q)
    by (intros H; rewrite H in Hd; by apply Qlt_irrefl in Hd).
  assert (E : ((x - origin) / delta * delta == x - origin)%Q) by (by field).
  assert (Hf0 : (0 ≤ f)%Z).
  { change 0%Z with (Qfloor 0). apply Qfloor_resp_le.
    apply Qle_shift_div_l; [done|]. lra. }
  assert (Hfl : (inject_Z f * delta <= x - origin)%Q).
  { pose proof (Qfloor_le ((x - origin) / delta)) as H. fold f in H.
    apply (Qmult_le_compat_r _ _ delta) in H; [|lra].
    by rewrite E in H. }
  assert (Hfu : (x - origin <= inject_Z (f + 1) * delta)%Q).
  { pose proof (Qlt_floor ((x - origin) / delta)) as H. fold f in H.
    apply Qlt_le_weak in H.
    apply (Qmult_le_compat_r _ _ delta) in H; [|lra].
    by rewrite E in H. }
  destruct (Z.min_spec f (count - 1)) as [[Hlt ->]|[Hge ->]].
  - split; [lia|]. split; lra.
  - split; [lia|]. split.
    + assert (inject_Z (count - 1) * delta <= inject_Z f * delta)%Q; [|lra].
      apply Qmult_le_compat_r; [|lra]. rewrite <- Zle_Qle. lia.
    + replace (count - 1 + 1)%Z with count by lia. done.
Qed.

(** ** Geometry of a well-formed pyramid *)

Section Pyramid.
Variable ls : LevelSet.
Hypothesis Hwf : wellFormed ls.

Lemma rowsAt_pos l : (0 < rowsAt ls l)%Z.
Proof. unfold rowsAt. apply Z.mul_pos_pos; [done | apply Z.pow_pos_nonneg; lia]. Qed.

Lemma columnsAt_pos l : (0 < columnsAt ls l)%Z.
Proof. unfold columnsAt. apply Z.mul_pos_pos; [done | apply Z.pow_pos_nonneg; lia]. Qed.

Lemma deltaLatitude_pos l : (0 < deltaLatitude ls l)%Q.
Proof.
  destruct Hwf as (_ & Hlat & _). unfold deltaLatitude.
  apply Qlt_shift_div_l; [|lra].
  change 0%Q with (inject_Z 0). rewrite <- Zlt_Qlt. apply rowsAt_pos.
Qed.

Lemma deltaLongitude_pos l : (0 < deltaLongitude ls l)%Q.
Proof.
  destruct Hwf as (_ & _ & Hlon & _). unfold deltaLongitude.
  apply Qlt_shift_div_l; [|lra].
  change 0%Q with (inject_Z 0). rewrite <- Zlt_Qlt. apply columnsAt_pos.
Qed.

Lemma rows_span_extent l :
  (minLatitude (extent ls) + inject_Z (rowsAt ls l) * deltaLatitude ls l
   == maxLatitude (extent ls))%Q.
Proof.
  unfold deltaLatitude. field. intros H.
  pose proof (rowsAt_pos l) as Hp. rewrite Zlt_Qlt in Hp. rewrite H in Hp.
  by apply Qlt_irrefl in Hp.
Qed.

Lemma columns_span_extent l :
  (minLongitude (extent ls) + inject_Z (columnsAt ls l) * deltaLongitude ls l
   == maxLongitude (extent ls))%Q.
Proof.
  unfold deltaLongitude. field. intros H.
  pose proof (columnsAt_pos l) as Hp. rewrite Zlt_Qlt in Hp. rewrite H in Hp.
  by apply Qlt_irrefl in Hp.
Qed.

Lemma elem_of_span (first last z : Z) :
  (0 ≤ first)%Z → (first ≤ z ≤ last)%Z → Z.to_nat z ∈ span first last.
Proof.
  intros H0 Hz. unfold span. apply list_elem_of_fmap. exists z. split; [done|].
  apply elem_of_seqZ. lia.
Qed.

Lemma clip_contains s c lat lon :
  clip s (extent ls) = Some c →
  contains s lat lon → contains (extent ls) lat lon → contains c lat lon.
Proof.
  unfold clip. destruct (_ && _); [|done]. intros [= <-].
  intros (? & ? & ? & ?) (? & ? & ? & ?). unfold contains. simpl.
  repeat split; first [by apply Q.max_lub | by apply Q.min_glb].
Qed.

Lemma clip_Some s lat lon :
  contains s lat lon → contains (extent ls) lat lon → is_Some (clip s (extent ls)).
Proof.
  intros (? & ? & ? & ?) (? & ? & ? & ?). unfold clip.
  assert (Hlat : Qle_bool (Qmax (minLatitude s) (minLatitude (extent ls)))
                          (Qmin (maxLatitude s) (maxLatitude (extent ls))) = true).
  { apply Qle_bool_iff. apply Qle_trans with lat; [by apply Q.max_lub | by apply Q.min_glb]. }
  assert (Hlon : Qle_bool (Qmax (minLongitude s) (minLongitude (extent ls)))
                          (Qmin (maxLongitude s) (maxLongitude (extent ls))) = true).
  { apply Qle_bool_iff. apply Qle_trans with lon; [by apply Q.max_lub | by apply Q.min_glb]. }
  simpl. rewrite Hlat, Hlon. by eexists.
Qed.

Lemma clip_within s c :
  clip s (extent ls) = Some c →
  (minLatitude (extent ls) <= minLatitude c)%Q ∧
  (minLongitude (extent ls) <= minLongitude c)%Q.
Proof.
  unfold clip. destruct (_ && _); [|done]. intros [= <-]. simpl.
  split; apply Q.le_max_r.
Qed.

(** One coverage query covers the part of its sector inside the extent. *)
Lemma coverage_covers l s lat lon :
  contains s lat lon → contains (extent ls) lat lon →
  ∃ a, a ∈ coverage ls l s ∧ contains (tileSector ls a) lat lon.
Proof.
  intros Hs He. destruct (clip_Some s lat lon Hs He) as [c Hc].
  pose proof (clip_contains _ _ _ _ Hc Hs He) as (Hc1 & Hc2 & Hc3 & Hc4).
  destruct (clip_within _ _ Hc) as [Hw1 Hw2].
  destruct He as (He1 & He2 & He3 & He4).
  pose proof (deltaLatitude_pos l) as Hdlat.
  pose proof (deltaLongitude_pos l) as Hdlon.
  destruct (cellOf_bounds (minLatitude (extent ls)) (deltaLatitude ls l) lat
              (rowsAt ls l) Hdlat (rowsAt_pos l) He1) as (Hr & Hrlo & Hrhi).
  { by rewrite rows_span_extent. }
  destruct (cellOf_bounds (minLongitude (extent ls)) (deltaLongitude ls l) lon
              (columnsAt ls l) Hdlon (columnsAt_pos l) He3) as (Hk & Hklo & Hkhi).
  { by rewrite columns_span_extent. }
  destruct (cellOf_bounds (minLatitude (extent ls)) (deltaLatitude ls l) (minLatitude c)
              (rowsAt ls l) Hdlat (rowsAt_pos l) Hw1) as (Hr0 & _).
  { rewrite rows_span_extent. lra. }
  destruct (cellOf_bounds (minLongitude (extent ls)) (deltaLongitude ls l) (minLongitude c)
              (columnsAt ls l) Hdlon (columnsAt_pos l) Hw2) as (Hk0 & _).
  { rewrite columns_span_extent. lra. }
  fold (rowOf ls l lat) in Hr, Hrlo, Hrhi. fold (columnOf ls l lon) in Hk, Hklo, Hkhi.
  fold (rowOf ls l (minLatitude c)) in Hr0.
  fold (columnOf ls l (minLongitude c)) in Hk0.
  exists (mkAddress l (Z.to_nat (rowOf ls l lat)) (Z.to_nat (columnOf ls l lon))).
  split.
  - unfold coverage. rewrite Hc. apply list_elem_of_In, in_flat_map.
    exists (Z.to_nat (rowOf ls l lat)). split.
    + apply list_elem_of_In, elem_of_span; [lia|].
      split; apply cellOf_mono; done.
    + apply list_elem_of_In, list_elem_of_fmap. eexists. split; [done|].
      apply elem_of_span; [lia|]. split; apply cellOf_mono; done.
  - unfold contains, tileSector. simpl. rewrite !Z2Nat.id by lia. done.
Qed.

End Pyramid.

(** ** Level selection *)

Lemma searchLevel_spec ls target remaining l :
  let r := searchLevel ls target l remaining in
  l ≤ r ≤ l + remaining ∧
  (∀ j, l ≤ j < r → (target < resolution ls j)%Q) ∧
  (r < l + remaining → (resolution ls r <= target)%Q).
Proof.
  revert l. induction remaining as [|k IH]; intros l; simpl.
  - split; [lia|]. split; intros; lia.
  - destruct (Qle_bool (resolution ls l) target) eqn:Hle.
    + split; [lia|]. split; [intros; lia|]. intros _. by apply Qle_bool_iff.
    + destruct (IH (S l)) as (Hr & Hcoarser & Hfits).
      split; [lia|]. split.
      * intros j Hj. destruct (decide (j = l)) as [->|Hne].
        -- apply Qnot_le_lt. intros H%Qle_bool_iff. congruence.
        -- apply Hcoarser. lia.
      * intros H. apply Hfits. lia.
Qed.

Lemma coverage_level ls l s a : a ∈ coverage ls l s → level a = l.
Proof.
  unfold coverage. destruct (clip _ _); [|by intros ?%elem_of_nil].
  intros [r [_ Hin]]%list_elem_of_In%in_flat_map.
  apply list_elem_of_In, list_elem_of_fmap in Hin as (col & -> & _). done.
Qed.

Lemma tilesForSector_level ls s target a :
  a ∈ tilesForSector ls s target → level a = levelFor ls target.
Proof.
  unfold tilesForSector. cbv zeta.
  destruct (negb (Qle_bool (maxLongitude s) 180));
    [|destruct (negb (Qle_bool (-180) (minLongitude s)))].
  - intros [H|H]%elem_of_app; by apply coverage_level in H.
  - intros [H|H]%elem_of_app; by apply coverage_level in H.
  - apply coverage_level.
Qed.


Lemma BMNGLayer_wellFormed : wellFormed BMNGLayer.
Proof. unfold wellFormed. simpl. repeat split; try lia; by vm_compute. Qed.



End TileLevelSetFacts.

(* ===================================================================== *)
(** * Facts about GeoTiffUtil                                              *)
(* ===================================================================== *)

Module GeoTiffUtilFacts.
Import GeoTiffUtil.

Lemma bytesAt_no_ArgumentError view off n : ¬ throwsArgumentError (bytesAt view off n).
Proof. unfold bytesAt. intros [m H]. by destruct (_ || _). Qed.

Lemma bind_return_no_ArgumentError {A B} (r : Result A) (f : A → B) :
  ¬ throwsArgumentError r → ¬ throwsArgumentError (bind r (λ v, Return (f v))).
Proof. intros Hr [m H]. destruct r as [a|e]; simpl in H; [discriminate|]. injection H as ->. apply Hr. by exists m. Qed.

Lemma reads_no_ArgumentError view off le :
  ¬ throwsArgumentError (getUint8 view off) ∧ ¬ throwsArgumentError (getInt8 view off) ∧
  ¬ throwsArgumentError (getUint16 view off le) ∧ ¬ throwsArgumentError (getInt16 view off le) ∧
  ¬ throwsArgumentError (getUint32 view off le) ∧ ¬ throwsArgumentError (getInt32 view off le) ∧
  ¬ throwsArgumentError (getFloat64 view off le).
Proof.
  repeat split; apply bind_return_no_ArgumentError, bytesAt_no_ArgumentError.
Qed.

Lemma zeroFillShiftRight_8_range x : (0 ≤ zeroFillShiftRight x 8 < 2 ^ 24)%Z.
Proof.
  unfold zeroFillShiftRight. change (8 mod 32)%Z with 8%Z.
  rewrite Z.shiftr_div_pow2 by lia.
  pose proof (Z.mod_pos_bound x (2 ^ 32) ltac:(lia)) as Hm.
  split; [apply Z.div_pos; lia|].
  apply Z.div_lt_upper_bound; [lia|]. change (2 ^ 8 * 2 ^ 24)%Z with (2 ^ 32)%Z. lia.
Qed.

(** [getBytes] throws an ArgumentError for the byte counts that fail its
    first test or pass none: those at most 0, those above 8, and NaN and
    undefined, which no comparison holds of. *)
Lemma getBytes_throwsArgumentError view off numOfBytes le signed :
  throwsArgumentError (getBytes view off numOfBytes le signed)
  ↔ atMost numOfBytes 0 = true ∨ above numOfBytes 8 = true ∨
    numOfBytes = NotANumber ∨ numOfBytes = Undefined.
Proof.
  destruct (reads_no_ArgumentError view off le) as (H1 & H2 & H3 & H4 & H5 & H6 & H7).
  destruct numOfBytes as [| |[]|n].
  - split; [intros _; by auto | intros _; by eexists].
  - split; [intros _; by auto | intros _; by eexists].
  - split; [intros _; by left | intros _; by eexists].
  - split; [intros _; right; by left | intros _; by eexists].
  - unfold getBytes. cbn [atMost above].
    destruct (Qle_bool n 0) eqn:E0.
    { split; [by left | intros _; by eexists]. }
    assert (N0 : ¬ (n <= 0)%Q) by (rewrite <- Qle_bool_iff; congruence).
    destruct (Qle_bool n 1) eqn:E1; [apply Qle_bool_iff in E1|];
    [|destruct (Qle_bool n 2) eqn:E2; [apply Qle_bool_iff in E2|];
    [|destruct (Qle_bool n 3) eqn:E3; [apply Qle_bool_iff in E3|];
    [|destruct (Qle_bool n 4) eqn:E4; [apply Qle_bool_iff in E4|];
    [|destruct (Qle_bool n 8) eqn:E8; [apply Qle_bool_iff in E8|]]]]].
    all: try (split; [intros H; exfalso; revert H; destruct signed;
                        by apply bind_return_no_ArgumentError
                     | intros [?|[H|[?|?]]]; try done;
                       apply negb_true_iff, not_true_iff_false in H;
                       rewrite Qle_bool_iff in H; exfalso; apply H; lra]).
    split; [intros _; right; by left | intros _; by eexists].
Qed.

(** Claim C8, as amended: [getBytes] throws ArgumentError exactly when
    numOfBytes <= 0, numOfBytes > 8, or numOfBytes is NaN or undefined; for
    numOfBytes from 5 to 8 it returns the 64-bit float read whatever
    [isSigned] is; and for numOfBytes = 3 with [isSigned] it returns the
    signed 32-bit read shifted right by 8 bits with zero fill, which is not
    negative even when the stored value is. *)
Theorem getBytes_dispatch (geoTiffData : DataView) (byteOffset : Z)
    (numOfBytes : ByteCount) (isLittleEndian isSigned : bool) :
  (throwsArgumentError (getBytes geoTiffData byteOffset numOfBytes isLittleEndian isSigned)
   ↔ atMost numOfBytes 0 = true ∨ above numOfBytes 8 = true ∨
     numOfBytes = NotANumber ∨ numOfBytes = Undefined) ∧
  (∀ n, numOfBytes = Bytes n → (5 <= n)%Q → (n <= 8)%Q →
   getBytes geoTiffData byteOffset numOfBytes isLittleEndian isSigned =
   (v <- getFloat64 geoTiffData byteOffset isLittleEndian ;; Return (Double v))) ∧
  (∀ n, numOfBytes = Bytes n → (n == 3)%Q →
   getBytes geoTiffData byteOffset numOfBytes isLittleEndian true =
   (v <- getInt32 geoTiffData byteOffset isLittleEndian ;;
    Return (Integer (zeroFillShiftRight v 8))) ∧
   ∀ stored, getInt32 geoTiffData byteOffset isLittleEndian = Return stored →
     getBytes geoTiffData byteOffset numOfBytes isLittleEndian true =
       Return (Integer ((stored mod 2 ^ 32) / 2 ^ 8)) ∧
     (0 ≤ (stored mod 2 ^ 32) / 2 ^ 8)%Z).
Proof.
  split; [apply getBytes_throwsArgumentError|]. split.
  - intros n -> H5' H8. unfold getBytes. cbn [atMost].
    assert (Qle_bool n 0 = false) as -> by (apply not_true_is_false; rewrite Qle_bool_iff; lra).
    assert (Qle_bool n 1 = false) as -> by (apply not_true_is_false; rewrite Qle_bool_iff; lra).
    assert (Qle_bool n 2 = false) as -> by (apply not_true_is_false; rewrite Qle_bool_iff; lra).
    assert (Qle_bool n 3 = false) as -> by (apply not_true_is_false; rewrite Qle_bool_iff; lra).
    assert (Qle_bool n 4 = false) as -> by (apply not_true_is_false; rewrite Qle_bool_iff; lra).
    assert (Qle_bool n 8 = true) as -> by (rewrite Qle_bool_iff; lra).
    done.
  - intros n -> H3'. unfold getBytes. cbn [atMost].
    assert (Qle_bool n 0 = false) as -> by (apply not_true_is_false; rewrite Qle_bool_iff; lra).
    assert (Qle_bool n 1 = false) as -> by (apply not_true_is_false; rewrite Qle_bool_iff; lra).
    assert (Qle_bool n 2 = false) as -> by (apply not_true_is_false; rewrite Qle_bool_iff; lra).
    assert (Qle_bool n 3 = true) as -> by (rewrite Qle_bool_iff; lra).
    split; [done|]. intros stored ->. simpl.
    pose proof (zeroFillShiftRight_8_range stored) as Hr.
    unfold zeroFillShiftRight in *. change (8 mod 32)%Z with 8%Z in *.
    rewrite Z.shiftr_div_pow2 in * by lia. split; [done | lia].
Qed.

Lemma getBytes_dispatch_witness :
  getBytes [x3f; xf0; x00; x00; x00; x00; x00; x00] 0 (Bytes 8) false false =
    Return (Double (S754_finite false 4503599627370496 (-52))) ∧
  getInt32 [xff; xff; xff; x00] 0 false = Return (-256)%Z ∧
  getBytes [xff; xff; xff; x00] 0 (Bytes 3) false true = Return (Integer 16777215).
Proof.
  destruct (getBytes_dispatch [x3f; xf0; x00; x00; x00; x00; x00; x00]
              0 (Bytes 8) false false) as (_ & Hfloat & _).
  destruct (getBytes_dispatch [xff; xff; xff; x00] 0 (Bytes 3) false true)
    as (_ & _ & Hthree).
  destruct (Hthree 3%Q eq_refl (Qeq_refl 3)) as [_ Hstored].
  destruct (Hstored (-256)%Z eq_refl) as [Hvalue _].
  split; [|split].
  - rewrite (Hfloat 8%Q eq_refl); [reflexivity | by vm_compute | by vm_compute].
  - reflexivity.
  - exact Hvalue.
Defined.

(** A byte count that is NaN or undefined is neither at most 0 nor above 8,
    and [getBytes] throws an ArgumentError for it: it passes none of the
    tests and reaches the last branch. *)
Lemma getBytes_throws_for_no_number :
  (atMost NotANumber 0 = false ∧ above NotANumber 8 = false ∧
   getBytes [x3f; xf0; x00; x00; x00; x00; x00; x00] 0 NotANumber false false
   = Throw (ArgumentError "tooManyBytesRequested")) ∧
  (atMost Undefined 0 = false ∧ above Undefined 8 = false ∧
   getBytes [x3f; xf0; x00; x00; x00; x00; x00; x00] 0 Undefined false false
   = Throw (ArgumentError "tooManyBytesRequested")).
Proof. done. Qed.

Lemma bytesAt_inside view off n :
  (0 ≤ off)%Z → (off + Z.of_nat n ≤ Z.of_nat (length view))%Z →
  bytesAt view off n = Return (take n (drop (Z.to_nat off) view)) ∧
  length (take n (drop (Z.to_nat off) view)) = n.
Proof.
  intros H0 H1. unfold bytesAt.
  destruct (Z.ltb_spec off 0); [lia|].
  destruct (Z.ltb_spec (Z.of_nat (length view)) (off + Z.of_nat n)); [lia|].
  split; [done|]. rewrite length_take, length_drop. lia.
Qed.

Lemma bytesAt_outside view off n :
  (off < 0 ∨ Z.of_nat (length view) < off + Z.of_nat n)%Z →
  bytesAt view off n = Throw RangeError.
Proof.
  intros H. unfold bytesAt.
  destruct (Z.ltb_spec off 0); [done|].
  destruct (Z.ltb_spec (Z.of_nat (length view)) (off + Z.of_nat n)); [done|lia].
Qed.

(** [getBytes] returns a number exactly when the bytes it takes lie inside
    the buffer, and throws a RangeError otherwise: one byte for a count up
    to 1, two up to 2, four up to 3 and up to 4, eight up to 8. *)
Theorem getBytes_bounds (geoTiffData : DataView) (byteOffset : Z) (numOfBytes : Q)
    (isLittleEndian isSigned : bool) :
  (0 < numOfBytes)%Q → (numOfBytes <= 8)%Q →
  ((0 ≤ byteOffset)%Z ∧
   (byteOffset + Z.of_nat (bytesRead numOfBytes) ≤ Z.of_nat (length geoTiffData))%Z →
   ∃ value, getBytes geoTiffData byteOffset (Bytes numOfBytes) isLittleEndian isSigned
            = Return value) ∧
  ((byteOffset < 0)%Z ∨
   (Z.of_nat (length geoTiffData) < byteOffset + Z.of_nat (bytesRead numOfBytes))%Z →
   getBytes geoTiffData byteOffset (Bytes numOfBytes) isLittleEndian isSigned
   = Throw RangeError).
Proof.
  intros Hpos H8. unfold getBytes, bytesRead. cbn [atMost].
  assert (Qle_bool numOfBytes 0 = false) as ->
    by (apply not_true_is_false; rewrite Qle_bool_iff; lra).
  assert (Qle_bool numOfBytes 8 = true) as -> by (by rewrite Qle_bool_iff).
  unfold getInt8, getUint8, getInt16, getUint16, getInt32, getUint32, getFloat64.
  assert (H34 : Qle_bool numOfBytes 3 = true → Qle_bool numOfBytes 4 = true).
  { rewrite !Qle_bool_iff. lra. }
  split.
  - intros [H0 H1].
    destruct (Qle_bool numOfBytes 1); [|destruct (Qle_bool numOfBytes 2)];
      [| |destruct (Qle_bool numOfBytes 3) eqn:E3; [rewrite (H34 eq_refl) in *|];
          destruct (Qle_bool numOfBytes 4) eqn:E4];
      destruct isSigned;
      (rewrite (proj1 (bytesAt_inside _ _ _ H0 H1)); simpl; by eexists).
  - intros H.
    destruct (Qle_bool numOfBytes 1); [|destruct (Qle_bool numOfBytes 2)];
      [| |destruct (Qle_bool numOfBytes 3) eqn:E3; [rewrite (H34 eq_refl) in *|];
          destruct (Qle_bool numOfBytes 4) eqn:E4];
      destruct isSigned;
      by rewrite (bytesAt_outside _ _ _ H).
Qed.

Lemma getBytes_bounds_witness :
  (∃ value, getBytes [x01; x02; x03; x04] 0 (Bytes 3) false false = Return value) ∧
  getBytes [x01; x02; x03] 0 (Bytes 3) false false = Throw RangeError ∧
  getBytes [x01; x02; x03; x04; x05] 0 (Bytes 5) false false = Throw RangeError.
Proof.
  split; [|split].
  - apply (getBytes_bounds [x01; x02; x03; x04] 0 3 false false);
      [reflexivity | by vm_compute | by vm_compute].
  - apply (getBytes_bounds [x01; x02; x03] 0 3 false false);
      [reflexivity | by vm_compute | right; by vm_compute].
  - apply (getBytes_bounds [x01; x02; x03; x04; x05] 0 5 false false);
      [reflexivity | by vm_compute | right; by vm_compute].
Defined.

Lemma bytesAt_middle (before bytes after : list byte) :
  bytesAt (before ++ bytes ++ after) (Z.of_nat (length before)) (length bytes)
  = Return bytes.
Proof.
  unfold bytesAt.
  destruct (Z.ltb_spec (Z.of_nat (length before)) 0); [lia|].
  destruct (Z.ltb_spec (Z.of_nat (length (before ++ bytes ++ after)))
                       (Z.of_nat (length before) + Z.of_nat (length bytes))) as [Hlt|_].
  { rewrite !length_app in Hlt. lia. }
  simpl. rewrite Nat2Z.id, drop_app_length, take_app_length. done.
Qed.

Lemma byte_range (b : byte) : (0 ≤ Z.of_N (Byte.to_N b) < 256)%Z.
Proof. pose proof (Byte.to_N_bounded b). lia. Qed.

(** A read of three bytes takes four and drops one of them: read big-endian
    it is the value of the three bytes at [byteOffset], read little-endian
    the value of the three bytes after the one at [byteOffset]; signed or
    not, it is never negative. *)
Theorem getBytes_three_bytes (before after : list byte) (b0 b1 b2 b3 : byte)
    (isLittleEndian isSigned : bool) :
  getBytes (before ++ [b0; b1; b2; b3] ++ after) (Z.of_nat (length before)) (Bytes 3)
           isLittleEndian isSigned
  = Return (Integer (unsignedValue isLittleEndian
                       (if isLittleEndian then [b1; b2; b3] else [b0; b1; b2]))).
Proof.
  unfold getBytes. cbn [atMost].
  change (Qle_bool 3 0) with false. change (Qle_bool 3 1) with false.
  change (Qle_bool 3 2) with false. change (Qle_bool 3 3) with true.
  cbv beta iota. unfold getInt32, getUint32.
  pose proof (bytesAt_middle before [b0; b1; b2; b3] after) as Hread.
  cbn [length] in Hread. rewrite Hread. clear Hread. cbn [bind].
  pose proof (byte_range b0). pose proof (byte_range b1).
  pose proof (byte_range b2). pose proof (byte_range b3).
  assert (Hshift : ∀ u, zeroFillShiftRight u 8 = ((u mod 2 ^ 32) / 256)%Z).
  { intros u. unfold zeroFillShiftRight. change (8 mod 32)%Z with 8%Z.
    by rewrite Z.shiftr_div_pow2 by lia. }
  assert (Hsigned : ∀ u, (0 ≤ u < 2 ^ 32)%Z → (signedValue 32 u mod 2 ^ 32 = u)%Z).
  { intros u Hu. unfold signedValue. destruct (Z.ltb_spec u (2 ^ (32 - 1))).
    - apply Z.mod_small. lia.
    - replace (u - 2 ^ 32)%Z with (u + (-1) * 2 ^ 32)%Z by lia.
      rewrite Z.mod_add by lia. apply Z.mod_small. lia. }
  set (B0 := Z.of_N (Byte.to_N b0)) in *. set (B1 := Z.of_N (Byte.to_N b1)) in *.
  set (B2 := Z.of_N (Byte.to_N b2)) in *. set (B3 := Z.of_N (Byte.to_N b3)) in *.
  assert (Hbe : unsignedValue false [b0; b1; b2; b3]
                = (((B0 * 256 + B1) * 256 + B2) * 256 + B3)%Z) by (cbn; lia).
  assert (Hle : unsignedValue true [b0; b1; b2; b3]
                = (((B3 * 256 + B2) * 256 + B1) * 256 + B0)%Z) by (cbn; lia).
  assert (Hbe3 : unsignedValue false [b0; b1; b2] = ((B0 * 256 + B1) * 256 + B2)%Z)
    by (cbn; lia).
  assert (Hle3 : unsignedValue true [b1; b2; b3] = ((B3 * 256 + B2) * 256 + B1)%Z)
    by (cbn; lia).
  assert (Hu : ∀ le, (0 ≤ unsignedValue le [b0; b1; b2; b3] < 2 ^ 32)%Z).
  { intros []; rewrite ?Hbe, ?Hle; lia. }
  assert (Hval : (unsignedValue isLittleEndian [b0; b1; b2; b3] / 256)%Z
     = unsignedValue isLittleEndian (if isLittleEndian then [b1; b2; b3] else [b0; b1; b2])).
  { destruct isLittleEndian; rewrite ?Hbe, ?Hle, ?Hbe3, ?Hle3.
    - rewrite Z.div_add_l by lia. rewrite Z.div_small by lia. lia.
    - rewrite Z.div_add_l by lia. rewrite Z.div_small by lia. lia. }
  rewrite <- Hval.
  destruct isSigned; do 2 f_equal; rewrite Hshift.
  - by rewrite Hsigned by apply Hu.
  - by rewrite Z.mod_small by apply Hu.
Qed.

Lemma bind_Some_throwsArgumentError {A} (r : Result A) :
  throwsArgumentError (bind r (λ res, Return (Some res))) ↔ throwsArgumentError r.
Proof.
  unfold throwsArgumentError. destruct r as [a|e]; simpl.
  - split; intros [m H]; discriminate.
  - split; intros [m H]; exists m; congruence.
Qed.

(** [getSampleBytes] throws an ArgumentError exactly when the format is not
    IEEE_FLOAT and the byte count is at most 0, above 8, NaN or undefined;
    for IEEE_FLOAT it returns undefined, without reading, for every byte
    count other than 3, 4 and 8, undefined and NaN among them; and a float
    sample of three bytes comes back as an integer below 2^24. *)
Theorem getSampleBytes_errors (geoTiffData : DataView) (byteOffset : Z)
    (numOfBytes : ByteCount) (sampleFormat : SampleFormat) (isLittleEndian : bool) :
  (throwsArgumentError
     (getSampleBytes geoTiffData byteOffset numOfBytes sampleFormat isLittleEndian)
   ↔ sampleFormat ≠ IEEE_FLOAT ∧
     (atMost numOfBytes 0 = true ∨ above numOfBytes 8 = true ∨
      numOfBytes = NotANumber ∨ numOfBytes = Undefined)) ∧
  (equalTo numOfBytes 3 = false ∧ equalTo numOfBytes 4 = false ∧
   equalTo numOfBytes 8 = false →
   getSampleBytes geoTiffData byteOffset numOfBytes IEEE_FLOAT isLittleEndian
   = Return None) ∧
  (equalTo numOfBytes 3 = true →
   ∀ res, getSampleBytes geoTiffData byteOffset numOfBytes IEEE_FLOAT isLittleEndian
          = Return res →
          ∃ z, res = Some (Integer z) ∧ (0 ≤ z < 2 ^ 24)%Z).
Proof.
  split; [|split].
  - destruct sampleFormat; cbn [getSampleBytes];
      rewrite ?bind_Some_throwsArgumentError, ?getBytes_throwsArgumentError.
    1, 2, 4, 5: split; [intros H; by split | by intros [_ H]].
    split; [|by intros [H _]].
    intros H. exfalso. revert H.
    destruct (equalTo numOfBytes 3); [|destruct (equalTo numOfBytes 4);
                                         [|destruct (equalTo numOfBytes 8)]].
    1-3: apply bind_return_no_ArgumentError, bind_return_no_ArgumentError,
               bytesAt_no_ArgumentError.
    by intros [m H].
  - intros (H3 & H4 & H8). cbn [getSampleBytes]. by rewrite H3, H4, H8.
  - intros H3 res. cbn [getSampleBytes]. rewrite H3.
    destruct (getFloat32 geoTiffData byteOffset isLittleEndian) as [v|e];
      simpl; [|discriminate].
    intros [= <-]. eexists. split; [done|]. apply zeroFillShiftRight_8_range.
Qed.

Lemma getSampleBytes_errors_witness :
  getSampleBytes [] 0 (Bytes 2) IEEE_FLOAT false = Return None ∧
  getSampleBytes [] 0 Undefined IEEE_FLOAT false = Return None ∧
  throwsArgumentError (getSampleBytes [] 0 (Bytes 9) UnlistedFormat false) ∧
  throwsArgumentError (getSampleBytes [] 0 NotANumber UNSIGNED false).
Proof.
  destruct (getSampleBytes_errors [] 0 (Bytes 2) IEEE_FLOAT false) as (_ & Hundefined & _).
  destruct (getSampleBytes_errors [] 0 Undefined IEEE_FLOAT false) as (_ & Hnone & _).
  destruct (getSampleBytes_errors [] 0 (Bytes 9) UnlistedFormat false) as (Hthrows & _).
  destruct (getSampleBytes_errors [] 0 NotANumber UNSIGNED false) as (Hnan & _).
  split; [|split; [|split]].
  - apply Hundefined. by vm_compute.
  - apply Hnone. by vm_compute.
  - apply Hthrows. split; [done | right; left; by vm_compute].
  - apply Hnan. split; [done | right; right; by left].
Defined.

Lemma getTagValueAsString_Some tagName tagValue property :
  getTagValueAsString tagName tagValue = Some property →
  ∃ before after,
    tagName = before ++ (property, tagValue) :: after ∧
    tagValue ∉ before.*2.
Proof.
  induction tagName as [|[p v] rest IH]; simpl; [done|].
  destruct (Z.eqb_spec v tagValue) as [->|Hne].
  - intros [= ->]. exists [], rest. split; [done|]. simpl. apply not_elem_of_nil.
  - intros H. destruct (IH H) as (before & after & -> & Hnot).
    exists ((p, v) :: before), after. split; [done|].
    simpl. rewrite not_elem_of_cons. split; [congruence | done].
Qed.

Lemma getTagValueAsString_None tagName tagValue :
  getTagValueAsString tagName tagValue = None ↔ tagValue ∉ tagName.*2.
Proof.
  induction tagName as [|[p v] rest IH]; simpl.
  - split; [intros _; apply not_elem_of_nil | done].
  - rewrite not_elem_of_cons. destruct (Z.eqb_spec v tagValue) as [->|Hne].
    + split; [done | by intros [? _]].
    + rewrite IH. split; [intros H; split; [congruence | done] | by intros [_ H]].
Qed.

(** In a table whose codes are all different, the code of a name leads back
    to that name.  In any table the name returned is the first one, in the
    order of enumeration, that carries the code; and undefined is returned
    exactly when no name carries it. *)
Theorem getTagValueAsString_round_trip (tagName : list (string * Z))
    (property : string) (tagValue : Z) :
  (NoDup tagName.*2 → (property, tagValue) ∈ tagName →
   getTagValueAsString tagName tagValue = Some property) ∧
  (getTagValueAsString tagName tagValue = Some property →
   ∃ before after, tagName = before ++ (property, tagValue) :: after ∧
                   tagValue ∉ before.*2) ∧
  (getTagValueAsString tagName tagValue = None ↔ tagValue ∉ tagName.*2).
Proof.
  split; [|split].
  - intros Hnd Hin.
    destruct (getTagValueAsString tagName tagValue) as [p|] eqn:E.
    + destruct (getTagValueAsString_Some _ _ _ E) as (before & after & -> & Hnot).
      apply elem_of_app in Hin as [Hin|Hin].
      { exfalso. apply Hnot. apply list_elem_of_fmap. by exists (property, tagValue). }
      apply elem_of_cons in Hin as [[= ->]|Hin]; [done|].
      exfalso. rewrite fmap_app, fmap_cons in Hnd. simpl in Hnd.
      apply NoDup_app in Hnd as (_ & _ & Hnd). apply NoDup_cons in Hnd as [Hnd _].
      apply Hnd. apply list_elem_of_fmap. by exists (property, tagValue).
    + exfalso. apply getTagValueAsString_None in E. apply E.
      apply list_elem_of_fmap. by exists (property, tagValue).
  - apply getTagValueAsString_Some.
  - apply getTagValueAsString_None.
Qed.

Lemma getTagValueAsString_round_trip_witness :
  getTagValueAsString [("IMAGE_WIDTH", 256); ("IMAGE_LENGTH", 257)]%Z 257
  = Some "IMAGE_LENGTH".
Proof.
  apply (getTagValueAsString_round_trip
           [("IMAGE_WIDTH", 256); ("IMAGE_LENGTH", 257)]%Z "IMAGE_LENGTH" 257).
  - apply (bool_decide_unpack _). by vm_compute.
  - apply (bool_decide_unpack _). by vm_compute.
Defined.

Lemma foldl_foldl_concat {A B} (f : A → B → A) (a : A) (ls : list (list B)) :
  foldl (foldl f) a ls = foldl f a (concat ls).
Proof.
  revert a. induction ls as [|l ls IH]; intros a; simpl; [done|].
  by rewrite IH, foldl_app.
Qed.

Lemma Qle_bool_false a b : Qle_bool a b = false ↔ (b < a)%Q.
Proof.
  split.
  - intros H. apply Qnot_le_lt. rewrite <- Qle_bool_iff. congruence.
  - intros H. apply not_true_is_false. rewrite Qle_bool_iff. lra.
Qed.

Ltac order_samples :=
  repeat match goal with x : Sample |- _ => destruct x end;
  simpl in *; try done;
  repeat match goal with
         | H : negb _ = true |- _ => apply negb_true_iff in H
         | H : negb _ = false |- _ => apply negb_false_iff in H
         | H : Qle_bool _ _ = true |- _ => apply Qle_bool_iff in H
         | H : Qle_bool _ _ = false |- _ => apply Qle_bool_false in H
         | |- negb _ = true => apply negb_true_iff
         | |- negb _ = false => apply negb_false_iff
         | |- Qle_bool _ _ = true => apply Qle_bool_iff
         | |- Qle_bool _ _ = false => apply Qle_bool_false
         end;
  try lra.

Lemma lessThan_irrefl x : lessThan x x = false.
Proof. order_samples. Qed.

(** y <= m and m < x give y <= x *)
Lemma not_lessThan_raise m x y :
  y ≠ NaN → lessThan m y = false → lessThan m x = true → lessThan x y = false.
Proof. intros Hy H1 H2. order_samples. Qed.

(** m <= y and x < m give x <= y *)
Lemma not_lessThan_lower m x y :
  y ≠ NaN → lessThan y m = false → lessThan x m = true → lessThan y x = false.
Proof. intros Hy H1 H2. order_samples. Qed.

Lemma visit_not_data nd acc x : isData nd x = false → visit nd acc x = acc.
Proof.
  unfold isData, visit. destruct (looseEquals x nd) eqn:E; [done|].
  destruct x; try done. intros _. destruct acc as [[] []]; done.
Qed.

Lemma visit_data nd acc x :
  isData nd x = true →
  visit nd acc x =
    MinMax.mk (if lessThan (MinMax.max acc) x then x else MinMax.max acc)
              (if lessThan x (MinMax.min acc) then x else MinMax.min acc).
Proof.
  unfold isData, visit. destruct (looseEquals x nd); [by destruct x | done].
Qed.

Lemma isData_not_NaN nd x : isData nd x = true → x ≠ NaN.
Proof. by destruct x. Qed.

Lemma foldl_visit nd (l : list Sample) :
  let acc := foldl (visit nd) (MinMax.mk NegativeInfinity PositiveInfinity) l in
  let data := filter (λ x, isData nd x = true) l in
  (∀ x, x ∈ data → lessThan x (MinMax.min acc) = false ∧
                   lessThan (MinMax.max acc) x = false) ∧
  (data = [] → acc = MinMax.mk NegativeInfinity PositiveInfinity) ∧
  (data ≠ [] → MinMax.max acc ∈ data ∧ MinMax.min acc ∈ data).
Proof.
  induction l as [|x l IH] using rev_ind.
  { simpl. split; [intros x Hx; by apply elem_of_nil in Hx | by split]. }
  cbv zeta in *. rewrite foldl_app, filter_app. simpl.
  set (acc := foldl (visit nd) _ l) in *.
  set (data := filter _ l) in *.
  destruct IH as (Hbound & Hempty & Hin).
  destruct (isData nd x) eqn:Ex.
  - rewrite filter_cons_True, filter_nil by done.
    rewrite (visit_data _ _ _ Ex). simpl.
    pose proof (isData_not_NaN _ _ Ex) as Hx.
    split; [|split].
    + intros y Hy. apply elem_of_app in Hy as [Hy|Hy].
      * destruct (Hbound y Hy) as [Hmin Hmax].
        assert (y ≠ NaN).
        { apply list_elem_of_filter in Hy as [Hy _]. by eapply isData_not_NaN. }
        split.
        -- destruct (lessThan x (MinMax.min acc)) eqn:E; [|done].
           by eapply not_lessThan_lower.
        -- destruct (lessThan (MinMax.max acc) x) eqn:E; [|done].
           by eapply not_lessThan_raise.
      * apply list_elem_of_singleton in Hy as ->. split.
        -- destruct (lessThan x (MinMax.min acc)) eqn:E;
             [apply lessThan_irrefl | done].
        -- destruct (lessThan (MinMax.max acc) x) eqn:E;
             [apply lessThan_irrefl | done].
    + intros H. by apply app_eq_nil in H as [_ ?].
    + intros _. destruct data as [|d data'] eqn:Ed.
      * rewrite (Hempty eq_refl).
        destruct x; [done| | |]; simpl; split; by apply list_elem_of_singleton.
      * destruct (Hin ltac:(done)) as [Hmax Hmin].
        split.
        -- destruct (lessThan (MinMax.max acc) x);
             [apply elem_of_app; right; by apply list_elem_of_singleton
             | apply elem_of_app; by left].
        -- destruct (lessThan x (MinMax.min acc));
             [apply elem_of_app; right; by apply list_elem_of_singleton
             | apply elem_of_app; by left].
  - rewrite filter_cons_False, filter_nil, app_nil_r by (by rewrite Ex).
    rewrite (visit_not_data _ _ _ Ex). done.
Qed.

(** Every sample that is a number and differs from the no-data value lies
    between the minimum and the maximum returned; when there is such a
    sample, both are among these samples; when there is none, the maximum is
    -Infinity and the minimum +Infinity. *)
Theorem getMinMaxGeotiffSamples_bounds (geotiffSampleArray : list (list (list Sample)))
    (noDataValue : option Sample) :
  let result := getMinMaxGeotiffSamples geotiffSampleArray noDataValue in
  let data := dataSamples geotiffSampleArray noDataValue in
  (∀ x, x ∈ data → lessThan x (MinMax.min result) = false ∧
                   lessThan (MinMax.max result) x = false) ∧
  (data = [] → result = MinMax.mk NegativeInfinity PositiveInfinity) ∧
  (data ≠ [] → MinMax.max result ∈ data ∧ MinMax.min result ∈ data).
Proof.
  unfold getMinMaxGeotiffSamples, dataSamples.
  rewrite (foldl_foldl_concat (foldl (visit noDataValue))), foldl_foldl_concat.
  apply foldl_visit.
Qed.

Lemma getMinMaxGeotiffSamples_bounds_witness :
  getMinMaxGeotiffSamples [[[Finite 3; Finite (-9999); NaN]; [Finite 7]]; []]
                          (Some (Finite (-9999)))
  = MinMax.mk (Finite 7) (Finite 3) ∧
  getMinMaxGeotiffSamples [[[Finite (-9999); NaN]]] (Some (Finite (-9999)))
  = MinMax.mk NegativeInfinity PositiveInfinity.
Proof.
  split; [reflexivity|].
  exact (proj1 (proj2 (getMinMaxGeotiffSamples_bounds
                         [[[Finite (-9999); NaN]]] (Some (Finite (-9999)))))
               eq_refl).
Defined.

(** For every bit depth from 1 to 8 and every sample of that depth,
    [clampColorSample] returns (sample + 1) * 2^(8 - depth) - 1, computed
    without rounding: the largest sample gives 255 and the sample 0 gives
    2^(8 - depth) - 1. *)
Theorem clampColorSample_exact (colorSample bitsPerSample : Z) :
  (1 ≤ bitsPerSample ≤ 8)%Z → (0 ≤ colorSample < 2 ^ bitsPerSample)%Z →
  clampColorSample (fromInteger colorSample) bitsPerSample
  = fromInteger ((colorSample + 1) * 2 ^ (8 - bitsPerSample) - 1) ∧
  (2 ^ (8 - bitsPerSample) - 1
   ≤ (colorSample + 1) * 2 ^ (8 - bitsPerSample) - 1 ≤ 255)%Z.
Proof.
  intros Hb Hs.
  assert (Htable :
    forallb (λ bits,
      forallb (λ s, bool_decide
                 (clampColorSample (fromInteger s) bits
                  = fromInteger ((s + 1) * 2 ^ (8 - bits) - 1)))
              (seqZ 0 (2 ^ bits)))
      (seqZ 1 8) = true) by (vm_compute; reflexivity).
  rewrite forallb_forall in Htable.
  assert (Hbits : In bitsPerSample (seqZ 1 8)).
  { apply list_elem_of_In, elem_of_seqZ. lia. }
  specialize (Htable _ Hbits). rewrite forallb_forall in Htable.
  assert (Hsample : In colorSample (seqZ 0 (2 ^ bitsPerSample))).
  { apply list_elem_of_In, elem_of_seqZ. lia. }
  specialize (Htable _ Hsample). apply bool_decide_eq_true in Htable.
  split; [exact Htable|].
  assert (0 < 2 ^ (8 - bitsPerSample))%Z by (apply Z.pow_pos_nonneg; lia).
  assert (2 ^ bitsPerSample * 2 ^ (8 - bitsPerSample) = 256)%Z as Hpow.
  { rewrite <- Z.pow_add_r by lia. by replace (bitsPerSample + (8 - bitsPerSample))%Z with 8%Z by lia. }
  nia.
Qed.

Lemma clampColorSample_exact_witness :
  clampColorSample (fromInteger 1) 1 = fromInteger 255 ∧
  clampColorSample (fromInteger 0) 1 = fromInteger 127.
Proof.
  split.
  - exact (proj1 (clampColorSample_exact 1 1 ltac:(lia) ltac:(lia))).
  - exact (proj1 (clampColorSample_exact 0 1 ltac:(lia) ltac:(lia))).
Defined.

End GeoTiffUtilFacts.

(* ===================================================================== *)
(** * Facts about CompassLayer                                             *)
(* ===================================================================== *)

Module CompassLayerFacts.
Import CompassLayer.

Lemma instanceofCompass_truthy v : instanceofCompass v = true → truthy v = true.
Proof. by destruct v as [| | | | |[]]. Qed.

(** Claim C9: assigning null, undefined or anything that is not a Compass
    instance leaves the stored compass and the renderables list as they
    were; assigning a Compass instance leaves exactly that instance in the
    renderables list, and the getter returns it. *)
Theorem set_compass_guarded (v : Value) (this : Layer) :
  (v = Null ∨ v = Undefined ∨ instanceofCompass v = false →
   _compass (set_compass v this) = _compass this ∧
   renderables (set_compass v this) = renderables this) ∧
  (instanceofCompass v = true →
   renderables (set_compass v this) = [v] ∧
   get_compass (set_compass v this) = v).
Proof.
  unfold set_compass. split.
  - intros H. assert (instanceofCompass v = false) as ->.
    { by destruct H as [->|[->|?]]. }
    by rewrite andb_false_r.
  - intros H. by rewrite H, (instanceofCompass_truthy v H).
Qed.

Lemma set_compass_guarded_witness :
  let layer := new 1 in
  (renderables (set_compass Null layer) = [Object Compass 1] ∧
   get_compass (set_compass (Object (OtherConstructor "Placemark") 5) layer)
     = Object Compass 1) ∧
  (renderables (set_compass (Object Compass 2) layer) = [Object Compass 2] ∧
   get_compass (set_compass (Object Compass 2) layer) = Object Compass 2).
Proof.
  intros layer. split.
  - split.
    + exact (proj2 (proj1 (set_compass_guarded Null layer) (or_introl eq_refl))).
    + exact (proj1 (proj1 (set_compass_guarded
                             (Object (OtherConstructor "Placemark") 5) layer)
                          (or_intror (or_intror eq_refl)))).
  - exact (proj2 (set_compass_guarded (Object Compass 2) layer) eq_refl).
Defined.

Lemma set_compass_cases v this :
  set_compass v this =
    if instanceofCompass v then mkLayer (displayName this) [v] v else this.
Proof.
  unfold set_compass. destruct (instanceofCompass v) eqn:E.
  - by rewrite (instanceofCompass_truthy v E).
  - by rewrite andb_false_r.
Qed.

(** Whatever is assigned to the [compass] property of a new layer, and in
    whatever order, the layer keeps exactly one renderable, which is the
    compass that the property returns: the last Compass assigned, or the
    layer's own when none was. *)
Theorem compass_layer_shows_its_compass (freshIdentity : nat) (assigned : list Value) :
  let layer := foldl (λ this compass, set_compass compass this)
                     (new freshIdentity) assigned in
  renderables layer = [get_compass layer] ∧
  instanceofCompass (get_compass layer) = true ∧
  get_compass layer
  = default (Object Compass freshIdentity)
            (last (filter (λ v, instanceofCompass v = true) assigned)) ∧
  displayName layer = "Compass".
Proof.
  induction assigned as [|v assigned IH] using rev_ind; [by repeat split|].
  cbv zeta in *. rewrite foldl_app, filter_app. simpl.
  rewrite set_compass_cases.
  destruct IH as (Hr & Hi & Hlast & Hname).
  destruct (instanceofCompass v) eqn:Ev.
  - rewrite filter_cons_True, filter_nil by done.
    rewrite last_snoc. by repeat split.
  - rewrite filter_cons_False, filter_nil, app_nil_r by (by rewrite Ev).
    by repeat split.
Qed.

Lemma compass_layer_shows_its_compass_witness :
  let layer := foldl (λ this compass, set_compass compass this) (new 1)
                     [Null; Object Compass 2; Str "north"; Undefined] in
  renderables layer = [Object Compass 2] ∧ get_compass layer = Object Compass 2.
Proof.
  intros layer.
  destruct (compass_layer_shows_its_compass 1
              [Null; Object Compass 2; Str "north"; Undefined])
    as (Hr & _ & Hlast & _).
  split; [|exact Hlast].
  exact (eq_trans Hr (f_equal (λ c, [c]) Hlast)).
Defined.

End CompassLayerFacts.

(* ===================================================================== *)
(** * Facts about ColladaScene                                             *)
(* ===================================================================== *)

Module ColladaSceneFacts.
Import GpuResourceCache GpuResourceCacheFacts ColladaScene.

(** ** The dirty flag *)

(** Claim C10: each of the setters of position, xRotation, yRotation,
    zRotation, xTranslation, yTranslation, zTranslation, scale and
    altitudeMode sets [mustUpdate]; [computeTransformationMatrix] returns at
    once, changing nothing, when [mustUpdate] is false, and otherwise
    recomputes the transformation matrix from the placement properties and
    clears [mustUpdate]. *)
Theorem dirty_flag_protocol (p : Placed) (globe : Globe) (this : Scene) :
  mustUpdate (transform (assign p this)) = true ∧
  (mustUpdate (transform this) = false →
   computeTransformationMatrix globe this = this) ∧
  (mustUpdate (transform this) = true →
   transformationMatrix (computeTransformationMatrix globe this) =
     [LocalCoordinateTransform (placePoint this) globe;
      Rotation 1 0 0 (xRotation this);
      Rotation 0 1 0 (yRotation this);
      Rotation 0 0 1 (zRotation this);
      Scale (scale this) (scale this) (scale this);
      Translation (xTranslation this) (yTranslation this) (zTranslation this);
      Rotation 1 0 0 (preX (transform this));
      Rotation 0 1 0 (preY (transform this));
      Rotation 0 0 1 (preZ (transform this))] ∧
   mustUpdate (transform (computeTransformationMatrix globe this)) = false).
Proof.
  split; [by destruct p|]. unfold computeTransformationMatrix.
  split; intros ->; [done|]. by split.
Qed.

Lemma dirty_flag_protocol_witness :
  let clean :=
    mkScene (mkTransform (mkPosition 45 9 100) 0 0 0 0 0 0 0 0 0 1 WorldWind.ABSOLUTE
                         (vec3 1 2 3) [UnitYFlip] false)
            (mkModel [] ∅ ∅ ∅ "" "" true [] false) []
            (mkDrawing false false None None None None None false None) in
  computeTransformationMatrix (mkGlobe 0) clean = clean ∧
  transformationMatrix
    (computeTransformationMatrix (mkGlobe 0) (set_yRotation 90 clean)) =
    [LocalCoordinateTransform (vec3 1 2 3) (mkGlobe 0);
     Rotation 1 0 0 0; Rotation 0 1 0 90; Rotation 0 0 1 0;
     Scale 1 1 1; Translation 0 0 0;
     Rotation 1 0 0 0; Rotation 0 1 0 0; Rotation 0 0 1 0] ∧
  mustUpdate (transform (computeTransformationMatrix (mkGlobe 0) (set_yRotation 90 clean)))
    = false.
Proof.
  intros clean.
  destruct (dirty_flag_protocol (SetYRotation 90) (mkGlobe 0) clean) as (Hset & Hclean & _).
  destruct (dirty_flag_protocol (SetYRotation 90) (mkGlobe 0) (set_yRotation 90 clean))
    as (_ & _ & Hdirty).
  split; [exact (Hclean eq_refl)|]. exact (Hdirty Hset).
Defined.

(** ** Texture keys *)

Lemma append_String a (d i : string) : String a d +:+ i = String a (d +:+ i).
Proof. reflexivity. Qed.

Lemma append_inj_l (d i1 i2 : string) : d +:+ i1 = d +:+ i2 → i1 = i2.
Proof. apply String.app_inj. Qed.

Lemma append_prefix (d1 d2 i1 i2 : string) :
  d1 +:+ i1 = d2 +:+ i2 → String.prefix d1 d2 = true ∨ String.prefix d2 d1 = true.
Proof.
  revert d2. induction d1 as [|a d1 IH]; intros d2; [intros _; left; by destruct d2|].
  destruct d2 as [|b d2]; [intros _; by right|].
  rewrite !append_String. intros [= -> H]. simpl.
  destruct (Ascii.ascii_dec b b) as [_|?]; [|done]. by apply IH.
Qed.

(** Structural induction on the node tree. *)
Lemma Node_ind_children (P : Node.t → Prop) :
  (∀ id mesh materials children worldMatrix,
     Forall P children → P (Node.mk id mesh materials children worldMatrix)) →
  ∀ node, P node.
Proof.
  intros step. fix IH 1. intros [id mesh materials children worldMatrix].
  apply step. induction children as [|child rest IHrest]; constructor.
  - apply IH.
  - apply IHrest.
Qed.

Lemma textureKeyOf_keyed m material k :
  textureKeyOf m material = Return k →
  k = None ∨ ∃ imageKey image, _images m !! imageKey = Some image ∧
                               k = Some (textureCacheKey m image).
Proof.
  unfold textureKeyOf. destruct (Material.textures material) as [textures|];
    [|intros [= <-]; by left].
  destruct (Textures.diffuse textures) as [diffuse|];
    [|destruct (Textures.reflective textures) as [reflective|]; [|done]]; simpl;
    (destruct (_images m !! _) as [image|] eqn:Himage; [|done]);
    intros [= <-]; right; eauto.
Qed.

Lemma flattenBuffers_keyed m node buffers materialKey es es' :
  Forall (keyed m) es →
  flattenBuffers m node buffers materialKey es = Return es' →
  Forall (keyed m) es'.
Proof.
  revert materialKey es. induction buffers as [|buffer rest IH]; intros materialKey es Hes; simpl.
  - by intros [= <-].
  - destruct (_ ≫= _) as [material|]; [|done].
    destruct (textureKeyOf m material) as [k|] eqn:Hk; [|done]. simpl.
    apply IH. apply Forall_app. split; [done|]. constructor; [|constructor].
    apply textureKeyOf_keyed in Hk. exact Hk.
Qed.

Lemma flattenModel_keyed m node : ∀ es es',
  Forall (keyed m) es → flattenModel m node es = Return es' → Forall (keyed m) es'.
Proof.
  induction node as [id mesh materials children worldMatrix IHchildren]
    using Node_ind_children.
  intros es es' Hes. simpl. destruct (mustRenderNode id m); [|by intros [= <-]].
  set (own := match mesh with Some _ => _ | None => _ end).
  destruct own as [es1|] eqn:Hown; [|done]. simpl.
  assert (Hes1 : Forall (keyed m) es1).
  { subst own. destruct mesh as [meshKey|]; [|by injection Hown as <-].
    destruct (String.eqb meshKey ""); [by injection Hown as <-|].
    destruct (_meshes m !! meshKey) as [mesh|]; [|done].
    by eapply flattenBuffers_keyed. }
  clear Hown Hes. revert es1 es' Hes1.
  induction IHchildren as [|child rest IHchild _ IHrest]; intros es1 es' Hes1.
  - by intros [= <-].
  - destruct (flattenModel m child es1) as [es2|] eqn:Hchild; [|done]. simpl.
    apply IHrest. by eapply IHchild.
Qed.

Lemma flattenNodes_keyed m nodes es es' :
  Forall (keyed m) es → flattenNodes m nodes es = Return es' → Forall (keyed m) es'.
Proof.
  revert es. induction nodes as [|node rest IH]; intros es Hes; simpl.
  - by intros [= <-].
  - destruct (flattenModel m node es) as [es1|] eqn:Hnode; [|done]. simpl.
    apply IH. by eapply flattenModel_keyed.
Qed.

Lemma sortEntities_Forall (P : Entity.t → Prop) es :
  Forall P es → Forall P (sortEntities es).
Proof.
  rewrite !Forall_forall. intros H e. unfold sortEntities.
  intros [[_ ?]%list_elem_of_filter|[_ ?]%list_elem_of_filter]%elem_of_app; by apply H.
Qed.

Lemma new_keyed position data scene :
  new (Some position) (Some data) = Return scene →
  _dirPath (model scene) = SceneData.dirPath data ∧
  _images (model scene) = SceneData.images data ∧
  _useTexturePaths (model scene) = true ∧
  Forall (keyed (model scene)) (entities scene).
Proof.
  unfold new, setSceneData, flattenModelBegin. simpl.
  destruct (flattenNodes _ _ _) as [es|] eqn:Hes; [|done]. simpl.
  intros [= <-]. simpl. repeat split.
  apply sortEntities_Forall. eapply flattenNodes_keyed; [|done]. constructor.
Qed.

(** Claim C7, as amended: the texture keys of a scene are built from its
    directory path and the paths of its images, by a function of these
    alone; within one scene distinct image names get distinct keys; and a
    key of one scene equals a key of another only when the directory path of
    one is a prefix of the other's. *)
Theorem texture_keys_carry_dirPath
    (position : Position) (data : SceneData.t) (scene : Scene)
    (m m' : Model) (image image' : Image.t) :
  new (Some position) (Some data) = Return scene →
  Forall (λ e, Entity.texture e = None ∨
               ∃ imageKey img, SceneData.images data !! imageKey = Some img ∧
                 Entity.texture e = Some (SceneData.dirPath data +:+ Image.path img))
         (entities scene) ∧
  (_dirPath m = _dirPath m' → _useTexturePaths m = _useTexturePaths m' →
   textureCacheKey m image = textureCacheKey m' image) ∧
  (textureCacheKey m image = textureCacheKey m image' →
   imageName m image = imageName m image') ∧
  (textureCacheKey m image = textureCacheKey m' image' →
   String.prefix (_dirPath m) (_dirPath m') = true ∨
   String.prefix (_dirPath m') (_dirPath m) = true).
Proof.
  intros Hnew. destruct (new_keyed _ _ _ Hnew) as (Hdir & Himages & Hpaths & Hkeyed).
  split; [|split; [|split]].
  - eapply Forall_impl; [exact Hkeyed|]. intros e [He|(k & img & Himg & He)]; [by left|].
    right. exists k, img. rewrite <- Himages, <- Hdir. split; [done|].
    rewrite He. unfold textureCacheKey, imageName. by rewrite Hpaths.
  - unfold textureCacheKey, imageName. by intros -> ->.
  - apply append_inj_l.
  - apply append_prefix.
Qed.

Lemma texture_keys_carry_dirPath_witness :
  match new (Some Examples.origin) (Some (Examples.car "models/car/" "tex/tyre.png")) with
  | Return scene =>
      Forall (λ e, Entity.texture e = None ∨
                   ∃ imageKey img,
                     SceneData.images (Examples.car "models/car/" "tex/tyre.png")
                       !! imageKey = Some img ∧
                     Entity.texture e = Some ("models/car/" +:+ Image.path img))
             (entities scene)
  | Throw _ => False
  end.
Proof.
  destruct (new (Some Examples.origin) (Some (Examples.car "models/car/" "tex/tyre.png")))
    as [scene|e] eqn:Hnew; [|by vm_compute in Hnew].
  exact (proj1 (texture_keys_carry_dirPath _ _ scene (model scene) (model scene)
                  (Image.mk "" "") (Image.mk "" "") Hnew)).
Defined.

(** Two scenes loaded from different directories whose textures get the
    same key: "models/" with image "car/tyre.png", and "models/car/" with
    image "tyre.png". *)
Lemma texture_keys_collide_across_scenes :
  match new (Some Examples.origin) (Some (Examples.car "models/" "car/tyre.png")),
        new (Some Examples.origin) (Some (Examples.car "models/car/" "tyre.png")) with
  | Return scene1, Return scene2 =>
      _dirPath (model scene1) ≠ _dirPath (model scene2) ∧
      Entity.texture <$> entities scene1 = [None; Some "models/car/tyre.png"] ∧
      Entity.texture <$> entities scene2 = [None; Some "models/car/tyre.png"]
  | _, _ => False
  end.
Proof. vm_compute. split; [discriminate | done]. Qed.

(** ** Calls issued by the primitives of the draw context *)

#[local] Arguments cacheLookup : simpl never.
#[local] Arguments retrieveTexture : simpl never.
#[local] Arguments gl : simpl never.
#[local] Arguments createBuffer : simpl never.
#[local] Arguments uniquePickColor : simpl never.
#[local] Arguments cachePut : simpl never.
#[local] Arguments cacheGenerateKey : simpl never.

Lemma glCalls_gl call dc : glCalls (gl call dc) = glCalls dc ++ [call].
Proof. done. Qed.

Lemma glCalls_cacheLookup k dc : glCalls (snd (cacheLookup k dc)) = glCalls dc.
Proof.
  unfold cacheLookup. destruct k as [k|]; [|done].
  by destruct (resourceForKey k (gpuResourceCache dc)).
Qed.

Lemma glCalls_retrieveTexture key mode dc :
  glCalls (snd (retrieveTexture key mode dc)) = glCalls dc.
Proof. unfold retrieveTexture. simpl. by destruct (bool_decide _). Qed.

Lemma resident_touchKey k k' f es :
  match findEntry k (touchKey k' f es) with Some _ => true | None => false end =
  match findEntry k es with Some _ => true | None => false end.
Proof.
  destruct (decide (k = k')) as [->|Hne].
  - rewrite findEntry_touchKey_eq. by destruct (findEntry k' es).
  - by rewrite findEntry_touchKey_ne.
Qed.

Lemma resident_resourceForKey k k' c :
  resident k (snd (resourceForKey k' c)) = resident k c.
Proof.
  unfold resourceForKey, resident. destruct (findEntry k' (entries c)); [|done].
  simpl. apply resident_touchKey.
Qed.

Lemma resident_cacheLookup k k' dc :
  resident k (gpuResourceCache (snd (cacheLookup k' dc))) = resident k (gpuResourceCache dc).
Proof.
  unfold cacheLookup. destruct k' as [k'|]; [|done].
  pose proof (resident_resourceForKey k k' (gpuResourceCache dc)) as H.
  by destruct (resourceForKey k' (gpuResourceCache dc)).
Qed.

Lemma cacheLookup_found k dc :
  fst (cacheLookup (Some k) dc) = None ↔ resident k (gpuResourceCache dc) = false.
Proof.
  unfold cacheLookup, resourceForKey, resident.
  by destruct (findEntry k (entries (gpuResourceCache dc))).
Qed.

Lemma cache_retrieveTexture key mode dc :
  gpuResourceCache (snd (retrieveTexture key mode dc)) = gpuResourceCache dc.
Proof. unfold retrieveTexture. simpl. by destruct (bool_decide _). Qed.

(** ** loadTextures *)

Lemma loadTexture_spec e dc :
  glCalls (loadTexture e dc).2 = glCalls dc ∧
  (∀ k, resident k (gpuResourceCache (loadTexture e dc).2)
        = resident k (gpuResourceCache dc)) ∧
  (loadTexture e dc).1.2 = awaitsTexture dc e.
Proof.
  unfold loadTexture, awaitsTexture.
  set (key := NamedKey (default "" (Entity.texture e))).
  assert (Hskip : (match Entity.textureLoaded e with Some true => true | _ => false end)
                  = bool_decide (Entity.textureLoaded e = Some true)).
  { by destruct (Entity.textureLoaded e) as [[|]|]. }
  rewrite Hskip. clear Hskip.
  destruct (truthy (Entity.texture e)); [|done].
  destruct (bool_decide _); [done|]. cbn [negb orb andb].
  pose proof (glCalls_cacheLookup (Some key) dc) as Hcalls.
  pose proof (λ k, resident_cacheLookup k (Some key) dc) as Hres.
  pose proof (cacheLookup_found key dc) as Hfound.
  destruct (cacheLookup (Some key) dc) as [[texture|] dc1]; cbv beta iota zeta.
  - cbn [fst snd] in *. split; [done|]. split; [done|].
    destruct (resident key _); [done|]. discriminate (proj2 Hfound eq_refl).
  - pose proof (glCalls_retrieveTexture (default "" (Entity.texture e))
                  (wrapModeOf (Entity.mesh e)) dc1) as Hcalls2.
    pose proof (cache_retrieveTexture (default "" (Entity.texture e))
                  (wrapModeOf (Entity.mesh e)) dc1) as Hcache2.
    destruct (retrieveTexture _ _ dc1) as [retrieved dc2]. cbn [fst snd] in *.
    split; [congruence|]. split; [intros k; rewrite Hcache2; apply Hres|].
    by rewrite (proj1 Hfound eq_refl).
Qed.

Lemma awaitsTexture_resident dc dc' e :
  (∀ k, resident k (gpuResourceCache dc') = resident k (gpuResourceCache dc)) →
  awaitsTexture dc' e = awaitsTexture dc e.
Proof. intros H. unfold awaitsTexture. by rewrite H. Qed.

Lemma loadTexturesLoop_spec es d dc :
  let '(es', d', dc') := loadTexturesLoop es d dc in
  glCalls dc' = glCalls dc ∧
  (∀ k, resident k (gpuResourceCache dc') = resident k (gpuResourceCache dc)) ∧
  allTexturesLoaded d' = allTexturesLoaded d ∧
  partialTexturesLoaded d' =
    partialTexturesLoaded d && negb (existsb (awaitsTexture dc) es) ∧
  length es' = length es.
Proof.
  revert d dc. induction es as [|e es IH]; intros d dc; simpl.
  - by rewrite andb_true_r.
  - pose proof (loadTexture_spec e dc) as He.
    destruct (loadTexture e dc) as [[[e' loaded] missing] dc1].
    simpl in He. destruct He as (Hcalls & Hres & ->).
    set (d1 := match loaded with Some value => with_textureLoaded value d | None => d end).
    set (d2 := if awaitsTexture dc e then with_partialTexturesLoaded false d1 else d1).
    specialize (IH d2 dc1).
    destruct (loadTexturesLoop es d2 dc1) as [[es' d'] dc'].
    destruct IH as (Hcalls' & Hres' & Hall & Hpartial & Hlen).
    split; [congruence|]. split; [intros k; by rewrite Hres', Hres|].
    assert (Hall2 : allTexturesLoaded d2 = allTexturesLoaded d).
    { subst d2 d1. by destruct (awaitsTexture dc e), loaded. }
    assert (Hpartial2 : partialTexturesLoaded d2 =
                        partialTexturesLoaded d && negb (awaitsTexture dc e)).
    { subst d2 d1. destruct (awaitsTexture dc e), loaded; simpl;
        by rewrite ?andb_true_r, ?andb_false_r. }
    split; [congruence|]. split; [|simpl; congruence].
    rewrite Hpartial, Hpartial2.
    assert (existsb (awaitsTexture dc1) es = existsb (awaitsTexture dc) es) as ->.
    { clear -Hres. induction es as [|x es IHes]; simpl; [done|].
      by rewrite IHes, (awaitsTexture_resident dc dc1 x Hres). }
    by rewrite negb_orb, andb_assoc.
Qed.

(** What [loadTextures] decides: the scene is revealed once no entity
    waits for its texture. *)
Lemma loadTextures_spec dc this :
  let waiting := negb (allTexturesLoaded (drawing this))
                 && existsb (awaitsTexture dc) (entities this) in
  glCalls (snd (loadTextures dc this)) = glCalls dc ∧
  allTexturesLoaded (drawing (fst (loadTextures dc this))) = negb waiting ∧
  length (entities (fst (loadTextures dc this))) = length (entities this).
Proof.
  unfold loadTextures. destruct (allTexturesLoaded (drawing this)) eqn:Hall; simpl.
  - by rewrite Hall.
  - pose proof (loadTexturesLoop_spec (entities this)
                  (with_partialTexturesLoaded true (drawing this)) dc) as H.
    destruct (loadTexturesLoop _ _ _) as [[es d] dc'].
    destruct H as (Hcalls & _ & Hall' & Hpartial & Hlen). simpl in *.
    split; [done|]. split; [|done].
    destruct (partialTexturesLoaded d) eqn:Hp; simpl.
    + destruct (existsb _ _); [done | done].
    + rewrite Hall', Hall. by destruct (existsb _ _).
Qed.

(** ** Draw calls *)

Lemma draws_gl call dc :
  draws (gl call dc) = draws dc + (if isDraw call then 1 else 0).
Proof.
  unfold draws, drawCalls. rewrite glCalls_gl, filter_app, length_app.
  f_equal. rewrite filter_cons, filter_nil. by destruct call.
Qed.

Lemma draws_same_calls dc dc' : glCalls dc' = glCalls dc → draws dc' = draws dc.
Proof. unfold draws, drawCalls. by intros ->. Qed.

Lemma draws_cacheLookup k dc r dc' : cacheLookup k dc = (r, dc') → draws dc' = draws dc.
Proof.
  intros H. apply draws_same_calls. by rewrite <- (glCalls_cacheLookup k dc), H.
Qed.

Lemma draws_retrieveTexture key mode dc r dc' :
  retrieveTexture key mode dc = (r, dc') → draws dc' = draws dc.
Proof.
  intros H. apply draws_same_calls. by rewrite <- (glCalls_retrieveTexture key mode dc), H.
Qed.

Lemma draws_createBuffer dc b dc' : createBuffer dc = (b, dc') → draws dc' = draws dc.
Proof. by intros [= _ <-]. Qed.

Lemma draws_uniquePickColor dc c dc' : uniquePickColor dc = (c, dc') → draws dc' = draws dc.
Proof. by intros [= _ <-]. Qed.

Lemma draws_cachePut k r size dc : draws (cachePut k r size dc) = draws dc.
Proof. done. Qed.

Lemma draws_cacheGenerateKey dc k dc' : cacheGenerateKey dc = (k, dc') → draws dc' = draws dc.
Proof. by intros [= _ <-]. Qed.

Lemma uploadVertices_silent es offset dc es' final dc' :
  uploadVertices es offset dc = (es', final, dc') →
  draws dc' = draws dc ∧ length es' = length es.
Proof.
  revert offset dc es' final dc'. induction es as [|e es IH]; intros offset dc es' final dc'; simpl.
  - by intros [= <- _ <-].
  - destruct (uploadVertices es _ _) as [[rest f] dc1] eqn:Hrest. intros [= <- _ <-].
    destruct (IH _ _ _ _ _ Hrest) as [Hd Hl]. rewrite Hd, draws_gl. simpl. split; lia.
Qed.

Lemma uploadUvs_silent es offset dc es' final dc' :
  uploadUvs es offset dc = (es', final, dc') →
  draws dc' = draws dc ∧ length es' = length es.
Proof.
  revert offset dc es' final dc'. induction es as [|e es IH]; intros offset dc es' final dc'; simpl.
  - by intros [= <- _ <-].
  - destruct (truthy (Entity.texture e)).
    + destruct (uploadUvs es _ _) as [[rest f] dc1] eqn:Hrest. intros [= <- _ <-].
      destruct (IH _ _ _ _ _ Hrest) as [Hd Hl]. rewrite Hd, draws_gl. simpl. split; lia.
    + destruct (uploadUvs es _ _) as [[rest f] dc1] eqn:Hrest. intros [= <- _ <-].
      destruct (IH _ _ _ _ _ Hrest) as [Hd Hl]. simpl. split; lia.
Qed.

Lemma uploadIndices_silent es offset dc es' final dc' :
  uploadIndices es offset dc = (es', final, dc') →
  draws dc' = draws dc ∧ length es' = length es.
Proof.
  revert offset dc es' final dc'. induction es as [|e es IH]; intros offset dc es' final dc'; simpl.
  - by intros [= <- _ <-].
  - destruct (MeshBuffers.indexedRendering (Entity.mesh e)).
    + destruct (uploadIndices es _ _) as [[rest f] dc1] eqn:Hrest. intros [= <- _ <-].
      destruct (IH _ _ _ _ _ Hrest) as [Hd Hl]. rewrite Hd, draws_gl. simpl. split; lia.
    + destruct (uploadIndices es _ _) as [[rest f] dc1] eqn:Hrest. intros [= <- _ <-].
      destruct (IH _ _ _ _ _ Hrest) as [Hd Hl]. simpl. split; lia.
Qed.

(** [setupBuffers] draws nothing and keeps the entities in number. *)
Lemma setupBuffers_silent dc this this' dc' :
  setupBuffers dc this = (this', dc') →
  draws dc' = draws dc ∧ length (entities this') = length (entities this).
Proof.
  unfold setupBuffers.
  destruct (createBuffer dc) as [vbo dc1] eqn:H1.
  apply draws_createBuffer in H1.
  destruct (uploadVertices _ _ _) as [[es1 offset] dc2] eqn:H2.
  apply uploadVertices_silent in H2 as [H2 L2]. rewrite !draws_gl in H2. simpl in H2.
  destruct (uploadUvs _ _ _) as [[es2 o2] dc3] eqn:H3.
  apply uploadUvs_silent in H3 as [H3 L3].
  destruct (negb (countIndices (entities this) =? 0)).
  - destruct (createBuffer dc3) as [ibo dc4] eqn:H4. apply draws_createBuffer in H4.
    destruct (uploadIndices _ _ _) as [[es3 o3] dc5] eqn:H5.
    apply uploadIndices_silent in H5 as [H5 L5]. rewrite !draws_gl in H5. simpl in H5.
    destruct (cacheGenerateKey dc5) as [vboKey dc6] eqn:H6.
    apply draws_cacheGenerateKey in H6.
    destruct (cacheGenerateKey (cachePut _ _ _ dc6)) as [iboKey dc7] eqn:H7.
    apply draws_cacheGenerateKey in H7. rewrite draws_cachePut in H7.
    intros [= <- <-]. rewrite draws_cachePut. simpl. split; lia.
  - destruct (cacheGenerateKey dc3) as [vboKey dc6] eqn:H6.
    apply draws_cacheGenerateKey in H6.
    intros [= <- <-]. rewrite draws_cachePut. simpl. split; lia.
Qed.

Lemma draws_drawGeometry e dc : draws (drawGeometry e dc) = S (draws dc).
Proof.
  unfold drawGeometry. destruct (MeshBuffers.indexedRendering _);
    rewrite !draws_gl; simpl; lia.
Qed.

Lemma entities_applyMatrix b this : entities (applyMatrix b this) = entities this.
Proof. unfold applyMatrix. by destruct (_ && _). Qed.

Lemma greyedOut_applyMatrix b this :
  greyedOut (drawing (applyMatrix b this)) = greyedOut (drawing this).
Proof. unfold applyMatrix. by destruct (_ && _). Qed.

(** Drawing an entity issues exactly one draw call, whether or not its
    texture is there. *)
Lemma draw_one dc e this this' dc' :
  draw dc e this = (this', dc') →
  draws dc' = S (draws dc) ∧ entities this' = entities this.
Proof.
  unfold draw. destruct (truthy (Entity.texture e)).
  - destruct (cacheLookup _ dc) as [found dc1] eqn:H1. apply draws_cacheLookup in H1.
    destruct found as [texture|].
    + destruct (textureBinds dc1 texture); intros [= <- <-];
        rewrite draws_drawGeometry, !draws_gl, entities_applyMatrix; simpl; (split; [lia|done]).
    + destruct (retrieveTexture _ _ dc1) as [active dc2] eqn:H2.
      apply draws_retrieveTexture in H2.
      destruct (match active with Some t => textureBinds dc2 t | None => false end);
        intros [= <- <-];
        rewrite draws_drawGeometry, !draws_gl, entities_applyMatrix; simpl; (split; [lia|done]).
  - intros [= <- <-].
    rewrite draws_drawGeometry, !draws_gl, entities_applyMatrix; simpl; (split; [lia|done]).
Qed.

Lemma drawGreyedOut_one dc e this this' dc' :
  drawGreyedOut dc e this = (this', dc') →
  draws dc' = S (draws dc) ∧ entities this' = entities this.
Proof.
  unfold drawGreyedOut. intros [= <- <-].
  rewrite draws_drawGeometry, !draws_gl, entities_applyMatrix; simpl; (split; [lia|done]).
Qed.

Lemma drawEntities_all es dc this this' dc' :
  drawEntities es dc this = (this', dc') →
  draws dc' = draws dc + length es.
Proof.
  revert dc this. induction es as [|e es IH]; intros dc this; simpl.
  - intros [= _ <-]. lia.
  - destruct (greyedOut (drawing this)).
    + destruct (drawGreyedOut dc e this) as [this1 dc1] eqn:H1.
      apply drawGreyedOut_one in H1 as [H1 _]. intros H%IH. lia.
    + destruct (draw dc e this) as [this1 dc1] eqn:H1.
      apply draw_one in H1 as [H1 _]. intros H%IH. lia.
Qed.

Lemma entities_computeTransformationMatrix g this :
  entities (computeTransformationMatrix g this) = entities this.
Proof. unfold computeTransformationMatrix. by destruct (negb _). Qed.

Lemma beginDrawing_all dc this this' dc' :
  beginDrawing dc this = (this', dc') →
  draws dc' = draws dc + length (entities this).
Proof.
  unfold beginDrawing.
  destruct (cacheLookup (vboCahckeKey _) dc) as [vboId dc1] eqn:H1.
  apply draws_cacheLookup in H1.
  destruct (cacheLookup (iboCahckeKey _) dc1) as [iboId dc2] eqn:H2.
  apply draws_cacheLookup in H2.
  set (first := match hasIbo (drawing this) with
                | None => setupBuffers dc2 this | Some _ => (this, dc2) end).
  assert (Hfirst : draws first.2 = draws dc2 ∧
                   length (entities first.1) = length (entities this)).
  { subst first. destruct (hasIbo (drawing this)); [done|].
    destruct (setupBuffers dc2 this) as [t d] eqn:Hs.
    by apply setupBuffers_silent in Hs. }
  destruct first as [this1 dc3]. simpl in Hfirst. destruct Hfirst as [D3 L3].
  set (second := if _ || _ then setupBuffers dc3 this1 else _).
  assert (Hsecond : draws second.2 = draws dc3 ∧
                    length (entities second.1) = length (entities this1)).
  { subst second. destruct (_ || _).
    - destruct (setupBuffers dc3 this1) as [t d] eqn:Hs.
      by apply setupBuffers_silent in Hs.
    - simpl. rewrite !draws_gl. simpl. split; [lia|done]. }
  destruct second as [this2 dc4]. simpl in Hsecond. destruct Hsecond as [D4 L4].
  set (dc5 := gl (DisableVertexAttribArray 1) (gl (EnableVertexAttribArray 0) dc4)).
  assert (D5 : draws dc5 = draws dc4) by (subst dc5; rewrite !draws_gl; simpl; lia).
  assert (P5 : pickingMode dc5 = pickingMode dc4) by done.
  set (third := if pickingMode dc5 then _ else (this2, dc5)).
  assert (Hthird : draws third.2 = draws dc5 ∧ entities third.1 = entities this2).
  { subst third. destruct (pickingMode dc5); [|done].
    destruct (uniquePickColor dc5) as [c d] eqn:Hc. apply draws_uniquePickColor in Hc.
    done. }
  destruct third as [this3 dc6]. simpl in Hthird. destruct Hthird as [D6 E6].
  intros H%drawEntities_all. rewrite entities_computeTransformationMatrix in H.
  rewrite E6 in H. lia.
Qed.

Lemma renderOrdered_spec dc this :
  let waiting := negb (allTexturesLoaded (drawing this))
                 && existsb (awaitsTexture dc) (entities this) in
  (waiting = true →
   glCalls (snd (renderOrdered dc this)) = glCalls dc ∧
   allTexturesLoaded (drawing (fst (renderOrdered dc this))) = false) ∧
  (waiting = false →
   allTexturesLoaded (drawing (fst (loadTextures dc this))) = true ∧
   draws (snd (renderOrdered dc this)) = draws dc + length (entities this)).
Proof.
  intros waiting. pose proof (loadTextures_spec dc this) as (Hcalls & Hall & Hlen).
  fold waiting in Hall. unfold renderOrdered.
  destruct (loadTextures dc this) as [this1 dc1]. simpl in *.
  rewrite Hall. split; intros ->; simpl.
  - by rewrite Hall.
  - split; [done|]. unfold drawOrderedScene.
    destruct (beginDrawing dc1 this1) as [this2 dc2] eqn:Hb.
    apply beginDrawing_all in Hb. unfold endDrawing.
    assert (draws dc2 = draws dc + length (entities this)) as <-.
    { rewrite Hb, Hlen. f_equal. by apply draws_same_calls. }
    set (dc3 := gl _ (gl _ dc2)).
    assert (D3 : draws dc3 = draws dc2) by (subst dc3; rewrite !draws_gl; simpl; lia).
    destruct (pickingMode dc3); simpl; [rewrite draws_gl; simpl|]; lia.
Qed.

Lemma glCalls_drawGeometry e dc :
  glCalls (drawGeometry e dc) = glCalls dc ++ geometryCalls e.
Proof.
  unfold drawGeometry, geometryCalls.
  destruct (MeshBuffers.indexedRendering _); rewrite !glCalls_gl; by rewrite <- app_assoc.
Qed.

(** An entity whose texture is not in the cache is drawn without it. *)
Lemma draw_untextured dc e this :
  truthy (Entity.texture e) = true →
  resident (NamedKey (default "" (Entity.texture e))) (gpuResourceCache dc) = false →
  glCalls (snd (draw dc e this)) =
    glCalls dc ++ [LoadTextureEnabled false; DisableVertexAttribArray 2] ++ geometryCalls e.
Proof.
  intros Htex Hres. unfold draw. rewrite Htex.
  pose proof (glCalls_cacheLookup (Some (NamedKey (default "" (Entity.texture e)))) dc) as H1.
  pose proof (cacheLookup_found (NamedKey (default "" (Entity.texture e))) dc) as Hfound.
  destruct (cacheLookup _ dc) as [found dc1]. cbn [fst snd] in *.
  rewrite (proj2 Hfound Hres).
  pose proof (glCalls_retrieveTexture (default "" (Entity.texture e))
                (wrapModeOf (Entity.mesh e)) dc1) as H2.
  assert (Hnone : fst (retrieveTexture (default "" (Entity.texture e))
                         (wrapModeOf (Entity.mesh e)) dc1) = None) by done.
  destruct (retrieveTexture _ _ dc1) as [active dc2]. cbn [fst snd] in *. subst active.
  cbn [snd]. rewrite glCalls_drawGeometry, !glCalls_gl, H2, H1.
  by rewrite <- !app_assoc.
Qed.

(** ** Texture requests *)

Lemma retrievals_cacheLookup k dc :
  currentRetrievals (snd (cacheLookup k dc)) = currentRetrievals dc.
Proof.
  unfold cacheLookup. destruct k as [k|]; [|done].
  by destruct (resourceForKey k (gpuResourceCache dc)).
Qed.

(** [retrieveTexture] leaves the texture among the retrievals under way,
    with those that were. *)
Lemma retrievals_retrieveTexture key mode dc :
  key ∈ currentRetrievals (snd (retrieveTexture key mode dc)) ∧
  ∀ k, k ∈ currentRetrievals dc → k ∈ currentRetrievals (snd (retrieveTexture key mode dc)).
Proof.
  unfold retrieveTexture. cbn [snd].
  destruct (bool_decide (key ∈ currentRetrievals dc)) eqn:Hin.
  - apply bool_decide_eq_true in Hin. done.
  - cbn [currentRetrievals]. split; [|intros k Hk]; apply elem_of_app; [right; left | by left].
Qed.

Lemma retrievals_loadTexture e dc :
  (∀ k, k ∈ currentRetrievals dc → k ∈ currentRetrievals (loadTexture e dc).2) ∧
  (awaitsTexture dc e = true →
   default "" (Entity.texture e) ∈ currentRetrievals (loadTexture e dc).2).
Proof.
  unfold loadTexture, awaitsTexture.
  set (textureId := default "" (Entity.texture e)).
  assert (Hskip : (match Entity.textureLoaded e with Some true => true | _ => false end)
                  = bool_decide (Entity.textureLoaded e = Some true)).
  { by destruct (Entity.textureLoaded e) as [[|]|]. }
  rewrite Hskip. clear Hskip.
  destruct (truthy (Entity.texture e)); [|done].
  destruct (bool_decide _); [done|]. cbn [negb orb andb].
  pose proof (retrievals_cacheLookup (Some (NamedKey textureId)) dc) as Hsame.
  pose proof (cacheLookup_found (NamedKey textureId) dc) as Hfound.
  destruct (cacheLookup (Some (NamedKey textureId)) dc) as [[texture|] dc1];
    cbv beta iota zeta; cbn [fst snd] in *.
  - split; [intros k; by rewrite Hsame|].
    destruct (resident (NamedKey textureId) _); [done|].
    discriminate (proj2 Hfound eq_refl).
  - destruct (retrievals_retrieveTexture textureId (wrapModeOf (Entity.mesh e)) dc1)
      as [Hkey Hkeep].
    destruct (retrieveTexture _ _ dc1) as [retrieved dc2]. cbn [fst snd] in *.
    split; [intros k Hk; apply Hkeep; by rewrite Hsame | done].
Qed.

Lemma retrievals_loadTexturesLoop es d dc :
  (∀ k, k ∈ currentRetrievals dc → k ∈ currentRetrievals (loadTexturesLoop es d dc).2) ∧
  (∀ e, e ∈ es → awaitsTexture dc e = true →
        default "" (Entity.texture e) ∈ currentRetrievals (loadTexturesLoop es d dc).2).
Proof.
  revert d dc. induction es as [|x es IH]; intros d dc; cbn [loadTexturesLoop].
  - split; [done | by intros e ?%elem_of_nil].
  - destruct (retrievals_loadTexture x dc) as [Hkeep Hx].
    pose proof (loadTexture_spec x dc) as (_ & Hres & _).
    destruct (loadTexture x dc) as [[[x' loaded] missing] dc1]. cbn [fst snd] in *.
    set (d1 := if missing then _ else _).
    destruct (IH d1 dc1) as [Hkeep' Hes].
    destruct (loadTexturesLoop es d1 dc1) as [[es' d'] dc']. cbn [fst snd] in *.
    split; [by auto|].
    intros e [->|He]%elem_of_cons Hawaits; [by auto|].
    apply Hes; [done|]. by rewrite (awaitsTexture_resident dc dc1 e Hres).
Qed.

(** As long as the scene is not revealed, [loadTextures] requests the
    texture of every entity that waits for one. *)
Lemma loadTextures_requests dc this e :
  allTexturesLoaded (drawing this) = false →
  e ∈ entities this → awaitsTexture dc e = true →
  default "" (Entity.texture e) ∈ currentRetrievals (snd (loadTextures dc this)).
Proof.
  intros Hall He Hawaits. unfold loadTextures. rewrite Hall.
  destruct (retrievals_loadTexturesLoop (entities this)
              (with_partialTexturesLoaded true (drawing this)) dc) as [_ Hes].
  destruct (loadTexturesLoop _ _ _) as [[es d] dc']. cbn [fst snd] in *. by apply Hes.
Qed.




(** ** The buffers of a scene in the cache *)

Lemma cacheGenerateKey_spec dc k dc' :
  cacheGenerateKey dc = (k, dc') →
  k = GeneratedKey (S (cacheKeyPool (gpuResourceCache dc))) ∧
  budget (gpuResourceCache dc') = budget (gpuResourceCache dc) ∧
  currentFrame (gpuResourceCache dc') = currentFrame (gpuResourceCache dc) ∧
  entries (gpuResourceCache dc') = entries (gpuResourceCache dc) ∧
  cacheKeyPool (gpuResourceCache dc') = S (cacheKeyPool (gpuResourceCache dc)) ∧
  buffersCreated dc' = buffersCreated dc.
Proof. by intros [= <- <-]. Qed.

Lemma cache_gl call dc : gpuResourceCache (gl call dc) = gpuResourceCache dc.
Proof. done. Qed.

Lemma cache_createBuffer dc : gpuResourceCache (snd (createBuffer dc)) = gpuResourceCache dc.
Proof. done. Qed.

Lemma cache_uploadVertices es offset dc :
  gpuResourceCache (snd (uploadVertices es offset dc)) = gpuResourceCache dc.
Proof.
  revert offset dc. induction es as [|e es IH]; intros offset dc; simpl; [done|].
  specialize (IH (offset + length (MeshBuffers.vertices (Entity.mesh e)))
                 (gl (BufferSubData ARRAY_BUFFER (N.of_nat offset * sizeOfFloat32)
                        (length (MeshBuffers.vertices (Entity.mesh e)))) dc)).
  destruct (uploadVertices es _ _) as [[rest f] dc1]. simpl in *. by rewrite IH.
Qed.

Lemma cache_uploadUvs es offset dc :
  gpuResourceCache (snd (uploadUvs es offset dc)) = gpuResourceCache dc.
Proof.
  revert offset dc. induction es as [|e es IH]; intros offset dc; simpl; [done|].
  destruct (truthy (Entity.texture e)).
  - specialize (IH (offset + length (MeshBuffers.uvs (Entity.mesh e)))
                   (gl (BufferSubData ARRAY_BUFFER (N.of_nat offset * sizeOfFloat32)
                          (length (MeshBuffers.uvs (Entity.mesh e)))) dc)).
    destruct (uploadUvs es _ _) as [[rest f] dc1]. simpl in *. by rewrite IH.
  - specialize (IH offset dc). by destruct (uploadUvs es _ _) as [[rest f] dc1].
Qed.

Lemma cache_uploadIndices es offset dc :
  gpuResourceCache (snd (uploadIndices es offset dc)) = gpuResourceCache dc.
Proof.
  revert offset dc. induction es as [|e es IH]; intros offset dc; simpl; [done|].
  destruct (MeshBuffers.indexedRendering (Entity.mesh e)).
  - specialize (IH (offset + length (MeshBuffers.indices (Entity.mesh e)))
                   (gl (BufferSubData ELEMENT_ARRAY_BUFFER (N.of_nat offset * sizeOfUint16)
                          (length (MeshBuffers.indices (Entity.mesh e)))) dc)).
    destruct (uploadIndices es _ _) as [[rest f] dc1]. simpl in *. by rewrite IH.
  - specialize (IH offset dc). by destruct (uploadIndices es _ _) as [[rest f] dc1].
Qed.

(** The round trip as the scene performs it: the vertex buffer that
    [setupBuffers] puts in the cache is what the lookup of [vboCahckeKey]
    returns afterwards, provided the buffer fits the budget beside the
    entries touched in the current frame. *)
Lemma setupBuffers_then_lookup dc this :
  (N.of_nat (countVertices (entities this)) * sizeOfFloat32
   + pinnedBytes (GeneratedKey (S (cacheKeyPool (gpuResourceCache dc))))
                 (currentFrame (gpuResourceCache dc)) (entries (gpuResourceCache dc))
   <= budget (gpuResourceCache dc))%N →
  ∃ vboKey,
    vboCahckeKey (drawing (fst (setupBuffers dc this))) = Some vboKey ∧
    fst (cacheLookup (Some vboKey) (snd (setupBuffers dc this)))
    = Some (BufferHandle (S (buffersCreated dc))).
Proof.
  intros Hfits. unfold setupBuffers.
  destruct (createBuffer dc) as [vbo dc1] eqn:H1.
  assert (vbo = BufferHandle (S (buffersCreated dc))) as Hvbo by (by injection H1).
  pose proof (cache_createBuffer dc) as C1. rewrite H1 in C1. cbn [snd] in C1.
  pose proof (cache_uploadVertices (entities this) 0
    (gl (BufferData ARRAY_BUFFER (sizeOfFloat32 * N.of_nat (countVertices (entities this))))
        (gl (BindBuffer ARRAY_BUFFER (Some vbo)) dc1))) as C2.
  destruct (uploadVertices _ _ _) as [[es1 offset] dc2]. cbn [snd] in C2.
  pose proof (cache_uploadUvs es1 offset dc2) as C3.
  destruct (uploadUvs _ _ _) as [[es2 o2] dc3]. cbn [snd] in C3.
  rewrite !cache_gl in C2.
  assert (Hcache3 : gpuResourceCache dc3 = gpuResourceCache dc) by congruence.
  assert (Hlookup : ∀ k r d, holds k r (gpuResourceCache d) →
                             fst (cacheLookup (Some k) d) = Some r).
  { intros k r d H%resourceForKey_holds. unfold cacheLookup.
    by destruct (resourceForKey k (gpuResourceCache d)). }
  destruct (negb (countIndices (entities this) =? 0)).
  - destruct (createBuffer dc3) as [ibo dc4] eqn:H4.
    pose proof (cache_createBuffer dc3) as C4. rewrite H4 in C4. cbn [snd] in C4.
    pose proof (cache_uploadIndices es2 0
      (gl (BufferData ELEMENT_ARRAY_BUFFER
             (sizeOfUint16 * N.of_nat (countIndices (entities this))))
          (gl (BindBuffer ELEMENT_ARRAY_BUFFER (Some ibo)) dc4))) as C5.
    destruct (uploadIndices _ _ _) as [[es3 o3] dc5]. cbn [snd] in C5.
    rewrite !cache_gl in C5.
    assert (Hcache5 : gpuResourceCache dc5 = gpuResourceCache dc) by congruence.
    destruct (cacheGenerateKey dc5) as [vboKey dc6] eqn:H6.
    apply cacheGenerateKey_spec in H6 as (Hk6 & Hb6 & Hf6 & He6 & Hp6 & _).
    destruct (cacheGenerateKey (cachePut vboKey vbo _ dc6)) as [iboKey dc7] eqn:H7.
    apply cacheGenerateKey_spec in H7 as (Hk7 & Hb7 & Hf7 & He7 & Hp7 & _).
    cbn [fst snd]. exists vboKey. split; [done|]. subst vbo.
    apply Hlookup. unfold cachePut. cbn [gpuResourceCache with_cache].
    unfold cachePut in Hk7, Hb7, Hf7, He7, Hp7.
    cbn [gpuResourceCache with_cache] in Hk7, Hb7, Hf7, He7, Hp7.
    rewrite cacheKeyPool_putResource in Hk7.
    apply putResource_keeps_fresh; [rewrite Hk6, Hk7, Hp6; intros [=]; lia|].
    pose proof (putResource_fresh vboKey (BufferHandle (S (buffersCreated dc)))
                  (N.of_nat (countVertices (entities this)) * sizeOfFloat32)
                  (gpuResourceCache dc6)
                  ltac:(rewrite Hb6, Hf6, He6, Hk6, Hcache5; exact Hfits))
      as (kept & s & Hent & Hkept).
    exists kept, s. rewrite He7, Hf7. done.
  - destruct (cacheGenerateKey dc3) as [vboKey dc6] eqn:H6.
    apply cacheGenerateKey_spec in H6 as (Hk6 & Hb6 & Hf6 & He6 & Hp6 & _).
    cbn [fst snd]. exists vboKey. split; [done|]. subst vbo.
    apply Hlookup. unfold cachePut. cbn [gpuResourceCache with_cache].
    apply fresh_holds, putResource_fresh.
    rewrite Hb6, Hf6, He6, Hk6, Hcache3. exact Hfits.
Qed.

Lemma tiles_app elementSize start middle stop slices1 slices2 :
  tiles elementSize start slices1 middle →
  tiles elementSize middle slices2 stop →
  tiles elementSize start (slices1 ++ slices2) stop.
Proof.
  revert start. induction slices1 as [|s slices1 IH]; simpl; intros start.
  - by intros ->.
  - intros [-> H1] H2. split; [done|]. by apply IH.
Qed.

Lemma uploadVertices_layout es : ∀ offset dc,
  let r := uploadVertices es offset dc in
  glCalls r.2 = glCalls dc ++ (writeSlice ARRAY_BUFFER <$> omap vertexSlice r.1.1) ∧
  tiles sizeOfFloat32 (N.of_nat offset * sizeOfFloat32) (omap vertexSlice r.1.1)
        (N.of_nat r.1.2 * sizeOfFloat32) ∧
  length (omap vertexSlice r.1.1) = length es ∧
  Forall2 (λ e e', ∃ o, e' = Entity.with_vertexOffset (Some o) e) es r.1.1.
Proof.
  induction es as [|e es IH]; intros offset dc; simpl.
  - rewrite app_nil_r. repeat split; constructor.
  - specialize (IH (offset + length (MeshBuffers.vertices (Entity.mesh e)))
                   (gl (BufferSubData ARRAY_BUFFER (N.of_nat offset * sizeOfFloat32)
                          (length (MeshBuffers.vertices (Entity.mesh e)))) dc)).
    destruct (uploadVertices es _ _) as [[es' final] dc']. simpl in *.
    destruct IH as (Hcalls & Htiles & Hlen & Hall).
    rewrite Hcalls, <- app_assoc.
    repeat split; try done.
    + replace (N.of_nat offset * sizeOfFloat32
               + sizeOfFloat32 * N.of_nat (length (MeshBuffers.vertices (Entity.mesh e))))%N
        with (N.of_nat (offset + length (MeshBuffers.vertices (Entity.mesh e)))
              * sizeOfFloat32)%N by lia.
      done.
    + by f_equal.
    + constructor; [by eexists | done].
Qed.

Lemma uploadUvs_layout es : ∀ offset dc,
  let r := uploadUvs es offset dc in
  glCalls r.2 = glCalls dc ++ (writeSlice ARRAY_BUFFER <$> omap uvSlice r.1.1) ∧
  tiles sizeOfFloat32 (N.of_nat offset * sizeOfFloat32) (omap uvSlice r.1.1)
        (N.of_nat r.1.2 * sizeOfFloat32) ∧
  Forall2 (λ e e', if truthy (Entity.texture e)
                   then ∃ o, e' = Entity.with_uvOffset (Some o) e
                   else e' = e) es r.1.1.
Proof.
  induction es as [|e es IH]; intros offset dc; simpl.
  - rewrite app_nil_r. repeat split; constructor.
  - destruct (truthy (Entity.texture e)) eqn:Et.
    + specialize (IH (offset + length (MeshBuffers.uvs (Entity.mesh e)))
                     (gl (BufferSubData ARRAY_BUFFER (N.of_nat offset * sizeOfFloat32)
                            (length (MeshBuffers.uvs (Entity.mesh e)))) dc)).
      destruct (uploadUvs es _ _) as [[es' final] dc']. simpl in *.
      destruct IH as (Hcalls & Htiles & Hall).
      assert (Hs : uvSlice (Entity.with_uvOffset (Some offset) e)
                   = Some ((N.of_nat offset * sizeOfFloat32)%N,
                           length (MeshBuffers.uvs (Entity.mesh e)))).
      { unfold uvSlice. simpl. by rewrite Et. }
      rewrite !Hs. simpl. rewrite Hcalls, <- app_assoc.
      repeat split; try done.
      * replace (N.of_nat offset * sizeOfFloat32
                 + sizeOfFloat32 * N.of_nat (length (MeshBuffers.uvs (Entity.mesh e))))%N
          with (N.of_nat (offset + length (MeshBuffers.uvs (Entity.mesh e)))
                * sizeOfFloat32)%N by lia.
        done.
      * constructor; [rewrite Et; by eexists | done].
    + specialize (IH offset dc).
      destruct (uploadUvs es _ _) as [[es' final] dc']. simpl in *.
      destruct IH as (Hcalls & Htiles & Hall).
      assert (Hs : uvSlice e = None) by (unfold uvSlice; by rewrite Et).
      rewrite !Hs.
      repeat split; try done.
      constructor; [by rewrite Et | done].
Qed.

Lemma uploadIndices_layout es : ∀ offset dc,
  let r := uploadIndices es offset dc in
  glCalls r.2 = glCalls dc ++ (writeSlice ELEMENT_ARRAY_BUFFER <$> omap indexSlice r.1.1) ∧
  tiles sizeOfUint16 (N.of_nat offset * sizeOfUint16) (omap indexSlice r.1.1)
        (N.of_nat r.1.2 * sizeOfUint16) ∧
  Forall2 (λ e e', if MeshBuffers.indexedRendering (Entity.mesh e)
                   then ∃ o, e' = Entity.with_indicesOffset (Some o) e
                   else e' = e) es r.1.1.
Proof.
  induction es as [|e es IH]; intros offset dc; simpl.
  - rewrite app_nil_r. repeat split; constructor.
  - destruct (MeshBuffers.indexedRendering (Entity.mesh e)) eqn:Et.
    + specialize (IH (offset + length (MeshBuffers.indices (Entity.mesh e)))
                     (gl (BufferSubData ELEMENT_ARRAY_BUFFER (N.of_nat offset * sizeOfUint16)
                            (length (MeshBuffers.indices (Entity.mesh e)))) dc)).
      destruct (uploadIndices es _ _) as [[es' final] dc']. simpl in *.
      destruct IH as (Hcalls & Htiles & Hall).
      assert (Hs : indexSlice (Entity.with_indicesOffset (Some offset) e)
                   = Some ((N.of_nat offset * sizeOfUint16)%N,
                           length (MeshBuffers.indices (Entity.mesh e)))).
      { unfold indexSlice. simpl. by rewrite Et. }
      rewrite !Hs. simpl. rewrite Hcalls, <- app_assoc.
      repeat split; try done.
      * replace (N.of_nat offset * sizeOfUint16
                 + sizeOfUint16 * N.of_nat (length (MeshBuffers.indices (Entity.mesh e))))%N
          with (N.of_nat (offset + length (MeshBuffers.indices (Entity.mesh e)))
                * sizeOfUint16)%N by lia.
        done.
      * constructor; [rewrite Et; by eexists | done].
    + specialize (IH offset dc).
      destruct (uploadIndices es _ _) as [[es' final] dc']. simpl in *.
      destruct IH as (Hcalls & Htiles & Hall).
      assert (Hs : indexSlice e = None) by (unfold indexSlice; by rewrite Et).
      rewrite !Hs.
      repeat split; try done.
      constructor; [by rewrite Et | done].
Qed.

Lemma uploadVertices_final es : ∀ offset dc,
  (uploadVertices es offset dc).1.2
  = offset + sum_list ((λ e, length (MeshBuffers.vertices (Entity.mesh e))) <$> es).
Proof.
  induction es as [|e es IH]; intros offset dc; simpl; [lia|].
  specialize (IH (offset + length (MeshBuffers.vertices (Entity.mesh e)))
                 (gl (BufferSubData ARRAY_BUFFER (N.of_nat offset * sizeOfFloat32)
                        (length (MeshBuffers.vertices (Entity.mesh e)))) dc)).
  destruct (uploadVertices es _ _) as [[es' final] dc']. simpl in *. unfold fmap in *. lia.
Qed.

Lemma uploadUvs_final es : ∀ offset dc,
  (uploadUvs es offset dc).1.2
  = offset + sum_list ((λ e, if truthy (Entity.texture e)
                             then length (MeshBuffers.uvs (Entity.mesh e)) else 0) <$> es).
Proof.
  induction es as [|e es IH]; intros offset dc; simpl; [lia|].
  destruct (truthy (Entity.texture e)).
  - specialize (IH (offset + length (MeshBuffers.uvs (Entity.mesh e)))
                   (gl (BufferSubData ARRAY_BUFFER (N.of_nat offset * sizeOfFloat32)
                          (length (MeshBuffers.uvs (Entity.mesh e)))) dc)).
    destruct (uploadUvs es _ _) as [[es' final] dc']. simpl in *. unfold fmap in *. lia.
  - specialize (IH offset dc).
    destruct (uploadUvs es _ _) as [[es' final] dc']. simpl in *. unfold fmap in *. lia.
Qed.

Lemma uploadIndices_final es : ∀ offset dc,
  (uploadIndices es offset dc).1.2 = offset + countIndices es.
Proof.
  induction es as [|e es IH]; intros offset dc; simpl; [lia|].
  destruct (MeshBuffers.indexedRendering (Entity.mesh e)).
  - specialize (IH (offset + length (MeshBuffers.indices (Entity.mesh e)))
                   (gl (BufferSubData ELEMENT_ARRAY_BUFFER (N.of_nat offset * sizeOfUint16)
                          (length (MeshBuffers.indices (Entity.mesh e)))) dc)).
    destruct (uploadIndices es _ _) as [[es' final] dc']. simpl in *. lia.
  - specialize (IH offset dc).
    destruct (uploadIndices es _ _) as [[es' final] dc']. simpl in *. lia.
Qed.

Lemma countVertices_sum es :
  countVertices es
  = sum_list ((λ e, length (MeshBuffers.vertices (Entity.mesh e))) <$> es)
    + sum_list ((λ e, if truthy (Entity.texture e)
                      then length (MeshBuffers.uvs (Entity.mesh e)) else 0) <$> es).
Proof. induction es as [|e es IH]; simpl; unfold fmap in *; lia. Qed.

Lemma sameGeometry_refl e : sameGeometry e e.
Proof. done. Qed.

Lemma sameGeometry_trans e1 e2 e3 :
  sameGeometry e1 e2 → sameGeometry e2 e3 → sameGeometry e1 e3.
Proof. intros [H1 H2] [H3 H4]. split; congruence. Qed.

Lemma Forall2_sameGeometry_trans es1 es2 es3 :
  Forall2 sameGeometry es1 es2 → Forall2 sameGeometry es2 es3 →
  Forall2 sameGeometry es1 es3.
Proof.
  intros H. revert es3. induction H as [|e1 e2 es1 es2 He _ IH]; intros es3 H3.
  - by inversion H3.
  - inversion H3 as [|? e3 ? es3' He3 Hrest]; subst.
    constructor; [by eapply sameGeometry_trans | by apply IH].
Qed.

Lemma Forall2_sameGeometry_fmap {A} (f : Entity.t → A) es es' :
  (∀ e e', sameGeometry e e' → f e' = f e) →
  Forall2 sameGeometry es es' → f <$> es' = f <$> es.
Proof.
  intros Hf H. induction H as [|e e' es es' He _ IH]; [done|].
  rewrite !fmap_cons. by rewrite IH, (Hf _ _ He).
Qed.

Lemma countIndices_sameGeometry es es' :
  Forall2 sameGeometry es es' → countIndices es' = countIndices es.
Proof.
  intros H. induction H as [|e e' es es' [He _] _ IH]; simpl; [done|].
  by rewrite IH, He.
Qed.

Lemma countVertices_sameGeometry es es' :
  Forall2 sameGeometry es es' → countVertices es' = countVertices es.
Proof.
  intros H. induction H as [|e e' es es' [He Ht] _ IH]; simpl; [done|].
  by rewrite IH, He, Ht.
Qed.

Lemma omap_cons_eq {A B} (f : A → option B) x y l l' :
  f x = f y → omap f l = omap f l' → omap f (x :: l) = omap f (y :: l').
Proof.
  intros Hx Hl. cbn. rewrite Hx. destruct (f y); [f_equal|]; exact Hl.
Qed.

(** What each loop of [setupBuffers] changes of the entities. *)
Lemma vertices_step es es' :
  Forall2 (λ e e', ∃ o, e' = Entity.with_vertexOffset (Some o) e) es es' →
  Forall2 sameGeometry es es' ∧ Forall (λ e, is_Some (vertexSlice e)) es'.
Proof.
  intros H. induction H as [|e e' es es' [o ->] _ [IH1 IH2]]; [by split|].
  split; constructor; done.
Qed.

Lemma uvs_step es es' :
  Forall2 (λ e e', if truthy (Entity.texture e)
                   then ∃ o, e' = Entity.with_uvOffset (Some o) e
                   else e' = e) es es' →
  Forall2 sameGeometry es es' ∧
  omap vertexSlice es' = omap vertexSlice es ∧
  Forall (λ e, truthy (Entity.texture e) = true → is_Some (uvSlice e)) es' ∧
  (Forall (λ e, is_Some (vertexSlice e)) es → Forall (λ e, is_Some (vertexSlice e)) es').
Proof.
  intros H. induction H as [|e e' es es' He _ (IH1 & IH2 & IH3 & IH4)].
  { repeat split; by try constructor. }
  destruct (truthy (Entity.texture e)) eqn:Et.
  - destruct He as [o ->]. repeat split.
    + constructor; done.
    + by apply omap_cons_eq.
    + constructor; [|done]. intros _. unfold uvSlice. simpl. rewrite Et. by eexists.
    + intros Hv. apply Forall_cons in Hv as [Hv1 Hv2]. constructor; [done | auto].
  - subst e'. repeat split.
    + constructor; done.
    + by apply omap_cons_eq.
    + constructor; [|done]. rewrite Et. done.
    + intros Hv. apply Forall_cons in Hv as [Hv1 Hv2]. constructor; [done | auto].
Qed.

Lemma indices_step es es' :
  Forall2 (λ e e', if MeshBuffers.indexedRendering (Entity.mesh e)
                   then ∃ o, e' = Entity.with_indicesOffset (Some o) e
                   else e' = e) es es' →
  Forall2 sameGeometry es es' ∧
  omap vertexSlice es' = omap vertexSlice es ∧
  omap uvSlice es' = omap uvSlice es ∧
  Forall (λ e, MeshBuffers.indexedRendering (Entity.mesh e) = true →
               is_Some (indexSlice e)) es' ∧
  (∀ P : Entity.t → Prop,
     (∀ e o, P e → P (Entity.with_indicesOffset (Some o) e)) →
     Forall P es → Forall P es').
Proof.
  intros H. induction H as [|e e' es es' He _ (IH1 & IH2 & IH3 & IH4 & IH5)].
  { repeat split; by try constructor. }
  destruct (MeshBuffers.indexedRendering (Entity.mesh e)) eqn:Et.
  - destruct He as [o ->]. repeat split.
    + constructor; done.
    + by apply omap_cons_eq.
    + apply omap_cons_eq; [|done]. unfold uvSlice. done.
    + constructor; [|done]. intros _. unfold indexSlice. simpl. rewrite Et. by eexists.
    + intros P HP Hv. apply Forall_cons in Hv as [Hv1 Hv2]. constructor; [auto | eauto].
  - subst e'. repeat split.
    + constructor; done.
    + by apply omap_cons_eq.
    + by apply omap_cons_eq.
    + constructor; [|done]. rewrite Et. done.
    + intros P HP Hv. apply Forall_cons in Hv as [Hv1 Hv2]. constructor; [done | eauto].
Qed.

Lemma glCalls_createBuffer dc : glCalls (createBuffer dc).2 = glCalls dc.
Proof. done. Qed.

Lemma glCalls_cachePut k r size dc : glCalls (cachePut k r size dc) = glCalls dc.
Proof. done. Qed.

Lemma glCalls_cacheGenerateKey dc : glCalls (cacheGenerateKey dc).2 = glCalls dc.
Proof. unfold cacheGenerateKey. by destruct (generateCacheKey _). Qed.

Lemma buffersCreated_gl call dc : buffersCreated (gl call dc) = buffersCreated dc.
Proof. done. Qed.

Lemma buffersCreated_uploadVertices es : ∀ offset dc,
  buffersCreated (uploadVertices es offset dc).2 = buffersCreated dc.
Proof.
  induction es as [|e es IH]; intros offset dc; simpl; [done|].
  specialize (IH (offset + length (MeshBuffers.vertices (Entity.mesh e)))
                 (gl (BufferSubData ARRAY_BUFFER (N.of_nat offset * sizeOfFloat32)
                        (length (MeshBuffers.vertices (Entity.mesh e)))) dc)).
  by destruct (uploadVertices es _ _) as [[es' final] dc'].
Qed.

Lemma buffersCreated_uploadUvs es : ∀ offset dc,
  buffersCreated (uploadUvs es offset dc).2 = buffersCreated dc.
Proof.
  induction es as [|e es IH]; intros offset dc; simpl; [done|].
  destruct (truthy (Entity.texture e)).
  - specialize (IH (offset + length (MeshBuffers.uvs (Entity.mesh e)))
                   (gl (BufferSubData ARRAY_BUFFER (N.of_nat offset * sizeOfFloat32)
                          (length (MeshBuffers.uvs (Entity.mesh e)))) dc)).
    by destruct (uploadUvs es _ _) as [[es' final] dc'].
  - specialize (IH offset dc). by destruct (uploadUvs es _ _) as [[es' final] dc'].
Qed.

Lemma buffersCreated_uploadIndices es : ∀ offset dc,
  buffersCreated (uploadIndices es offset dc).2 = buffersCreated dc.
Proof.
  induction es as [|e es IH]; intros offset dc; simpl; [done|].
  destruct (MeshBuffers.indexedRendering (Entity.mesh e)).
  - specialize (IH (offset + length (MeshBuffers.indices (Entity.mesh e)))
                   (gl (BufferSubData ELEMENT_ARRAY_BUFFER (N.of_nat offset * sizeOfUint16)
                          (length (MeshBuffers.indices (Entity.mesh e)))) dc)).
    by destruct (uploadIndices es _ _) as [[es' final] dc'].
  - specialize (IH offset dc). by destruct (uploadIndices es _ _) as [[es' final] dc'].
Qed.

Lemma buffersCreated_cachePut k r size dc :
  buffersCreated (cachePut k r size dc) = buffersCreated dc.
Proof. done. Qed.

Lemma buffersCreated_cacheGenerateKey dc :
  buffersCreated (cacheGenerateKey dc).2 = buffersCreated dc.
Proof. unfold cacheGenerateKey. by destruct (generateCacheKey _). Qed.

Lemma setupBuffers_slices (dc : DrawContext) (this : Scene) :
  let numVertices := countVertices (entities this) in
  let numIndices := countIndices (entities this) in
  let es := entities (setupBuffers dc this).1 in
  let vertexData := omap vertexSlice es ++ omap uvSlice es in
  let indexData := omap indexSlice es in
  glCalls (setupBuffers dc this).2 =
    glCalls dc
    ++ [BindBuffer ARRAY_BUFFER (Some (BufferHandle (S (buffersCreated dc))));
        BufferData ARRAY_BUFFER (sizeOfFloat32 * N.of_nat numVertices)]
    ++ (writeSlice ARRAY_BUFFER <$> vertexData)
    ++ (if numIndices =? 0 then []
        else [BindBuffer ELEMENT_ARRAY_BUFFER
                (Some (BufferHandle (S (S (buffersCreated dc)))));
              BufferData ELEMENT_ARRAY_BUFFER (sizeOfUint16 * N.of_nat numIndices)]
             ++ (writeSlice ELEMENT_ARRAY_BUFFER <$> indexData)) ∧
  tiles sizeOfFloat32 0 vertexData (sizeOfFloat32 * N.of_nat numVertices) ∧
  (numIndices ≠ 0 →
   tiles sizeOfUint16 0 indexData (sizeOfUint16 * N.of_nat numIndices)) ∧
  Forall2 sameGeometry (entities this) es ∧
  Forall (λ e, is_Some (vertexSlice e) ∧
               (truthy (Entity.texture e) = true → is_Some (uvSlice e)) ∧
               (numIndices ≠ 0 → MeshBuffers.indexedRendering (Entity.mesh e) = true →
                is_Some (indexSlice e))) es.
Proof.
  cbv zeta. unfold setupBuffers.
  assert (Hcb : createBuffer dc = ((createBuffer dc).1, (createBuffer dc).2))
    by (by destruct (createBuffer dc)).
  rewrite Hcb.
  set (vbo := (createBuffer dc).1).
  set (dc1 := gl (BufferData ARRAY_BUFFER
                    (sizeOfFloat32 * N.of_nat (countVertices (entities this))))
                 (gl (BindBuffer ARRAY_BUFFER (Some vbo)) (createBuffer dc).2)).
  pose proof (uploadVertices_layout (entities this) 0 dc1) as Hv.
  pose proof (uploadVertices_final (entities this) 0 dc1) as Hvf.
  pose proof (buffersCreated_uploadVertices (entities this) 0 dc1) as Hb2.
  destruct (uploadVertices (entities this) 0 dc1) as [[es1 offset1] dc2].
  cbv zeta in Hv. simpl in Hv, Hvf, Hb2.
  destruct Hv as (Hv1 & Hv2 & Hv3 & Hv4).
  destruct (vertices_step _ _ Hv4) as [Hg1 Hs1].
  pose proof (uploadUvs_layout es1 offset1 dc2) as Hu.
  pose proof (uploadUvs_final es1 offset1 dc2) as Huf.
  pose proof (buffersCreated_uploadUvs es1 offset1 dc2) as Hb3.
  destruct (uploadUvs es1 offset1 dc2) as [[es2 offset2] dc3].
  cbv zeta in Hu. simpl in Hu, Huf, Hb3.
  destruct Hu as (Hu1 & Hu2 & Hu3).
  destruct (uvs_step _ _ Hu3) as (Hg2 & Hsame2 & Hs2 & Hkeep2).
  assert (Hvbo : vbo = BufferHandle (S (buffersCreated dc))) by done.
  assert (Htotal : offset2 = countVertices (entities this)).
  { rewrite Huf, Hvf, countVertices_sum. do 2 f_equal.
    apply Forall2_sameGeometry_fmap; [|done].
    intros e e' [Hm Ht]. by rewrite Hm, Ht. }
  assert (Htiles : tiles sizeOfFloat32 0 (omap vertexSlice es2 ++ omap uvSlice es2)
                         (sizeOfFloat32 * N.of_nat (countVertices (entities this)))).
  { rewrite Hsame2, <- Htotal, (N.mul_comm sizeOfFloat32).
    eapply tiles_app; [exact Hv2 | exact Hu2]. }
  assert (Hcalls3 : glCalls dc3 =
            glCalls dc
            ++ [BindBuffer ARRAY_BUFFER (Some (BufferHandle (S (buffersCreated dc))));
                BufferData ARRAY_BUFFER
                  (sizeOfFloat32 * N.of_nat (countVertices (entities this)))]
            ++ (writeSlice ARRAY_BUFFER <$> omap vertexSlice es2 ++ omap uvSlice es2)).
  { rewrite Hu1, Hv1, Hsame2, Hvbo, fmap_app, <- !app_assoc. done. }
  clearbody dc1. clear Hcb.
  destruct (Nat.eqb_spec (countIndices (entities this)) 0) as [Hzero|Hnonzero];
    cbn [negb].
  - destruct (cacheGenerateKey dc3) as [vboKey dc4] eqn:Ek.
    cbn [fst snd entities with_entities onDrawing with_drawing].
    rewrite glCalls_cachePut.
    replace (glCalls dc4) with (glCalls dc3)
      by (by rewrite <- (glCalls_cacheGenerateKey dc3), Ek).
    rewrite Hcalls3, app_nil_r.
    repeat split; try done.
    + by eapply Forall2_sameGeometry_trans.
    + apply Forall_forall. intros e He. repeat split.
      * by eapply Forall_forall in He; [|exact (Hkeep2 Hs1)].
      * by eapply Forall_forall in He; [|exact Hs2].
      * done.
  - assert (Hcb : createBuffer dc3 = ((createBuffer dc3).1, (createBuffer dc3).2))
      by (by destruct (createBuffer dc3)).
    rewrite Hcb. clear Hcb.
    set (ibo := (createBuffer dc3).1).
    set (dc4 := gl (BufferData ELEMENT_ARRAY_BUFFER _) _).
    pose proof (uploadIndices_layout es2 0 dc4) as Hi.
    pose proof (uploadIndices_final es2 0 dc4) as Hif.
    destruct (uploadIndices es2 0 dc4) as [[es3 offset3] dc5].
    cbv zeta in Hi. simpl in Hi, Hif.
    destruct Hi as (Hi1 & Hi2 & Hi3).
    destruct (indices_step _ _ Hi3) as (Hg3 & Hsame3v & Hsame3u & Hs3 & Hkeep3).
    destruct (cacheGenerateKey dc5) as [vboKey dc6] eqn:Ek.
    destruct (cacheGenerateKey (cachePut vboKey vbo _ dc6)) as [iboKey dc7] eqn:Ek2.
    cbn [fst snd entities with_entities onDrawing with_drawing].
    rewrite glCalls_cachePut.
    replace (glCalls dc7) with (glCalls dc5).
    2:{ rewrite <- (glCalls_cacheGenerateKey dc5), Ek. simpl.
        rewrite <- (glCalls_cachePut vboKey vbo
                      (N.of_nat (countVertices (entities this)) * sizeOfFloat32) dc6).
        by rewrite <- (glCalls_cacheGenerateKey (cachePut _ _ _ dc6)), Ek2. }
    assert (Hibo : ibo = BufferHandle (S (S (buffersCreated dc)))).
    { unfold ibo. simpl. by rewrite Hb3, Hb2. }
    rewrite Hi1, Hcalls3, Hsame3v, Hsame3u, Hibo, <- !app_assoc.
    assert (Hcount : countIndices es2 = countIndices (entities this)).
    { apply countIndices_sameGeometry. by eapply Forall2_sameGeometry_trans. }
    repeat split; try done.
    + intros _. rewrite <- Hcount, <- Hif, (N.mul_comm sizeOfUint16). exact Hi2.
    + eapply Forall2_sameGeometry_trans; [|exact Hg3].
      by eapply Forall2_sameGeometry_trans.
    + assert (HA : Forall (λ e, is_Some (vertexSlice e)) es3).
      { apply Hkeep3; [|exact (Hkeep2 Hs1)]. by intros e o [x Hx]; exists x. }
      assert (HB : Forall (λ e, truthy (Entity.texture e) = true → is_Some (uvSlice e))
                          es3).
      { apply Hkeep3; [|exact Hs2]. intros e o H0 Ht. by apply H0. }
      rewrite Forall_forall in HA, HB, Hs3.
      apply Forall_forall. intros e He. repeat split; auto.
Qed.

Lemma buffersCreated_cacheLookup k dc :
  buffersCreated (cacheLookup k dc).2 = buffersCreated dc.
Proof.
  unfold cacheLookup. destruct k as [k|]; [|done]. by destruct (resourceForKey _ _).
Qed.

Lemma buffersCreated_retrieveTexture key mode dc :
  buffersCreated (retrieveTexture key mode dc).2 = buffersCreated dc.
Proof. unfold retrieveTexture. simpl. by destruct (bool_decide _). Qed.

Lemma buffersCreated_drawGeometry e dc :
  buffersCreated (drawGeometry e dc) = buffersCreated dc.
Proof. unfold drawGeometry. by destruct (MeshBuffers.indexedRendering _). Qed.

Lemma buffersCreated_draw dc e this :
  buffersCreated (draw dc e this).2 = buffersCreated dc.
Proof.
  unfold draw. destruct (truthy (Entity.texture e)).
  - pose proof (buffersCreated_cacheLookup
                  (Some (NamedKey (default "" (Entity.texture e)))) dc) as H1.
    destruct (cacheLookup _ dc) as [found dc1]. simpl in H1.
    destruct found as [texture|].
    + destruct (textureBinds dc1 texture); simpl;
        by rewrite buffersCreated_drawGeometry.
    + pose proof (buffersCreated_retrieveTexture
                    (default "" (Entity.texture e)) (wrapModeOf (Entity.mesh e)) dc1) as H2.
      destruct (retrieveTexture _ _ dc1) as [active dc2]. simpl in H2.
      destruct active as [texture|]; [destruct (textureBinds dc2 texture)|]; simpl;
        rewrite buffersCreated_drawGeometry; simpl; congruence.
  - simpl. by rewrite buffersCreated_drawGeometry.
Qed.

Lemma buffersCreated_drawGreyedOut dc e this :
  buffersCreated (drawGreyedOut dc e this).2 = buffersCreated dc.
Proof. unfold drawGreyedOut. simpl. by rewrite buffersCreated_drawGeometry. Qed.

Lemma buffersCreated_drawEntities es : ∀ dc this,
  buffersCreated (drawEntities es dc this).2 = buffersCreated dc.
Proof.
  induction es as [|e es IH]; intros dc this; simpl; [done|].
  destruct (greyedOut (drawing this)).
  - pose proof (buffersCreated_drawGreyedOut dc e this) as H.
    destruct (drawGreyedOut dc e this) as [this1 dc1]. rewrite IH. done.
  - pose proof (buffersCreated_draw dc e this) as H.
    destruct (draw dc e this) as [this1 dc1]. rewrite IH. done.
Qed.

Lemma setupBuffers_built dc this :
  buffersCreated (setupBuffers dc this).2
  = buffersCreated dc + (if countIndices (entities this) =? 0 then 1 else 2) ∧
  Forall2 sameGeometry (entities this) (entities (setupBuffers dc this).1) ∧
  hasIbo (drawing (setupBuffers dc this).1)
  = Some (negb (countIndices (entities this) =? 0)).
Proof.
  split; [|split; [apply setupBuffers_slices|]].
  - unfold setupBuffers.
    assert (Hcb : createBuffer dc = ((createBuffer dc).1, (createBuffer dc).2))
      by (by destruct (createBuffer dc)).
    rewrite Hcb. clear Hcb.
    set (dc1 := gl (BufferData ARRAY_BUFFER _) _).
    assert (H1 : buffersCreated dc1 = S (buffersCreated dc)) by done.
    pose proof (buffersCreated_uploadVertices (entities this) 0 dc1) as H2.
    destruct (uploadVertices (entities this) 0 dc1) as [[es1 offset1] dc2].
    pose proof (buffersCreated_uploadUvs es1 offset1 dc2) as H3.
    destruct (uploadUvs es1 offset1 dc2) as [[es2 offset2] dc3].
    simpl in H2, H3.
    destruct (countIndices (entities this) =? 0); cbn [negb].
    + pose proof (buffersCreated_cacheGenerateKey dc3) as H4.
      destruct (cacheGenerateKey dc3) as [vboKey dc4]. simpl in *. lia.
    + assert (Hcb : createBuffer dc3 = ((createBuffer dc3).1, (createBuffer dc3).2))
        by (by destruct (createBuffer dc3)).
      rewrite Hcb. clear Hcb.
      set (dc4 := gl (BufferData ELEMENT_ARRAY_BUFFER _) _).
      assert (H4 : buffersCreated dc4 = S (buffersCreated dc3)) by done.
      pose proof (buffersCreated_uploadIndices es2 0 dc4) as H5.
      destruct (uploadIndices es2 0 dc4) as [[es3 offset3] dc5].
      pose proof (buffersCreated_cacheGenerateKey dc5) as H6.
      destruct (cacheGenerateKey dc5) as [vboKey dc6].
      pose proof (buffersCreated_cacheGenerateKey
                    (cachePut vboKey (createBuffer dc).1
                       (N.of_nat (countVertices (entities this)) * sizeOfFloat32) dc6)) as H7.
      destruct (cacheGenerateKey (cachePut _ _ _ dc6)) as [iboKey dc7].
      simpl in *. lia.
  - unfold setupBuffers.
    destruct (createBuffer dc) as [vbo dc0].
    destruct (uploadVertices _ _ _) as [[es1 offset1] dc2].
    destruct (uploadUvs _ _ _) as [[es2 offset2] dc3].
    destruct (countIndices (entities this) =? 0); cbn [negb].
    + by destruct (cacheGenerateKey dc3) as [vboKey dc4].
    + destruct (createBuffer dc3) as [ibo dc3'].
      destruct (uploadIndices _ _ _) as [[es3 offset3] dc5].
      destruct (cacheGenerateKey dc5) as [vboKey dc6].
      by destruct (cacheGenerateKey _) as [iboKey dc7].
Qed.

Lemma countIndices_setupBuffers dc this :
  countIndices (entities (setupBuffers dc this).1) = countIndices (entities this).
Proof. apply countIndices_sameGeometry, setupBuffers_built. Qed.

Lemma beginDrawing_built dc this :
  buffersCreated (beginDrawing dc this).2
  = buffersCreated dc
    + (if countIndices (entities this) =? 0 then 1 else 2)
      * ((match hasIbo (drawing this) with None => 1 | Some _ => 0 end)
         + (if bool_decide ((cacheLookup (vboCahckeKey (drawing this)) dc).1 = None)
               || (bool_decide
                     ((cacheLookup (iboCahckeKey (drawing this))
                                   (cacheLookup (vboCahckeKey (drawing this)) dc).2).1
                      = None)
                   && match hasIbo (drawing this) with
                      | None => negb (countIndices (entities this) =? 0)
                      | Some b => b
                      end)
            then 1 else 0)).
Proof.
  unfold beginDrawing.
  pose proof (buffersCreated_cacheLookup (vboCahckeKey (drawing this)) dc) as H1.
  destruct (cacheLookup (vboCahckeKey (drawing this)) dc) as [vboId dc1].
  cbn [fst snd] in *.
  pose proof (buffersCreated_cacheLookup (iboCahckeKey (drawing this)) dc1) as H2.
  destruct (cacheLookup (iboCahckeKey (drawing this)) dc1) as [iboId dc2].
  cbn [fst snd] in *.
  set (perBuild := if countIndices (entities this) =? 0 then 1 else 2).
  (* the first conditional *)
  assert (Hfirst : ∃ this1 dc3,
    match hasIbo (drawing this) with
    | None => setupBuffers dc2 this
    | Some _ => (this, dc2)
    end = (this1, dc3) ∧
    buffersCreated dc3
    = buffersCreated dc + perBuild * match hasIbo (drawing this) with
                                     | None => 1 | Some _ => 0 end ∧
    countIndices (entities this1) = countIndices (entities this) ∧
    hasIbo (drawing this1) = Some (match hasIbo (drawing this) with
                                   | None => negb (countIndices (entities this) =? 0)
                                   | Some b => b
                                   end)).
  { destruct (hasIbo (drawing this)) as [b|] eqn:Eh.
    - exists this, dc2. repeat split; [lia | done].
    - destruct (setupBuffers_built dc2 this) as (Hb & _ & Hh).
      pose proof (countIndices_setupBuffers dc2 this) as Hc.
      destruct (setupBuffers dc2 this) as [this1 dc3]. simpl in *.
      exists this1, dc3. repeat split; try done. unfold perBuild. lia. }
  destruct Hfirst as (this1 & dc3 & -> & Hb3 & Hc1 & Hh1).
  rewrite Hh1.
  set (again := bool_decide (vboId = None) || _).
  assert (Hsecond : ∃ this2 dc4,
    (if again then setupBuffers dc3 this1
     else (this1, gl (BindBuffer ELEMENT_ARRAY_BUFFER iboId)
                     (gl (BindBuffer ARRAY_BUFFER vboId) dc3))) = (this2, dc4) ∧
    buffersCreated dc4 = buffersCreated dc3 + perBuild * (if again then 1 else 0)).
  { destruct again.
    - destruct (setupBuffers_built dc3 this1) as (Hb & _ & _).
      destruct (setupBuffers dc3 this1) as [this2 dc4]. simpl in *.
      exists this2, dc4. split; [done|]. rewrite Hb, Hc1. unfold perBuild. lia.
    - eexists _, _. split; [done|]. simpl. lia. }
  destruct Hsecond as (this2 & dc4 & -> & Hb4).
  set (dc5 := gl (DisableVertexAttribArray 1) (gl (EnableVertexAttribArray 0) dc4)).
  assert (Hb5 : buffersCreated dc5 = buffersCreated dc4) by done.
  destruct (pickingMode dc5).
  - destruct (uniquePickColor dc5) as [color dc6] eqn:Ep.
    assert (Hb6 : buffersCreated dc6 = buffersCreated dc5).
    { unfold uniquePickColor in Ep. by injection Ep as _ <-. }
    rewrite entities_computeTransformationMatrix, buffersCreated_drawEntities.
    subst again. 
    assert (Heq : ∀ b1 b2 b3 : bool,
              (b1 || b2 && bool_decide (Some b3 = Some true)) = (b1 || b2 && b3)).
    { intros [] [] []; done. }
    rewrite Heq in Hb4. rewrite Hb6, Hb5, Hb4, Hb3.
    destruct (hasIbo (drawing this)); destruct (_ || _); lia.
  - rewrite entities_computeTransformationMatrix, buffersCreated_drawEntities.
    subst again.
    assert (Heq : ∀ b1 b2 b3 : bool,
              (b1 || b2 && bool_decide (Some b3 = Some true)) = (b1 || b2 && b3)).
    { intros [] [] []; done. }
    rewrite Heq in Hb4. rewrite Hb5, Hb4, Hb3.
    destruct (hasIbo (drawing this)); destruct (_ || _); lia.
Qed.

Lemma flattenBuffers_drawn m node buffers : ∀ materialKey es es',
  flattenBuffers m node buffers materialKey es = Return es' →
  drawn <$> es' = (drawn <$> es) ++ ((λ buffer, (node, buffer)) <$> buffers).
Proof.
  induction buffers as [|buffer rest IH]; intros materialKey es es'; simpl.
  - intros [= <-]. by rewrite app_nil_r.
  - destruct (_ ≫= _) as [material|]; [|done].
    destruct (textureKeyOf m material) as [k|]; [|done]. simpl.
    intros H. rewrite (IH _ _ _ H), fmap_app, <- app_assoc. done.
Qed.

Lemma toDraw_nil m : toDraw m [] = [].
Proof. done. Qed.

Lemma toDraw_cons m node nodes :
  toDraw m (node :: nodes) = toDraw m [node] ++ toDraw m nodes.
Proof. unfold toDraw. simpl. by rewrite app_nil_r, flat_map_app. Qed.

Lemma toDraw_node m id mesh materials children worldMatrix :
  toDraw m [Node.mk id mesh materials children worldMatrix] =
    if mustRenderNode id m
    then ((λ buffer, (Node.mk id mesh materials children worldMatrix, buffer))
            <$> buffersOf m (Node.mk id mesh materials children worldMatrix))
         ++ toDraw m children
    else [].
Proof.
  unfold toDraw. simpl. destruct (mustRenderNode id m); [|done].
  simpl. by rewrite app_nil_r.
Qed.

Lemma flattenModel_drawn m node : ∀ es es',
  flattenModel m node es = Return es' →
  drawn <$> es' = (drawn <$> es) ++ toDraw m [node].
Proof.
  induction node as [id mesh materials children worldMatrix IHchildren]
    using Node_ind_children.
  intros es es'. rewrite toDraw_node. simpl.
  destruct (mustRenderNode id m); [|intros [= <-]; by rewrite app_nil_r].
  set (node := Node.mk id mesh materials children worldMatrix).
  set (own := match mesh with Some _ => _ | None => _ end).
  destruct own as [es1|] eqn:Hown; [|done]. simpl.
  assert (Hes1 : drawn <$> es1
                 = (drawn <$> es) ++ ((λ buffer, (node, buffer)) <$> buffersOf m node)).
  { subst own. unfold buffersOf. simpl.
    destruct mesh as [meshKey|]; [|injection Hown as <-; by rewrite app_nil_r].
    destruct (String.eqb meshKey ""); [injection Hown as <-; by rewrite app_nil_r|].
    destruct (_meshes m !! meshKey) as [mesh|]; [|done].
    by eapply flattenBuffers_drawn. }
  rewrite app_assoc, <- Hes1. clear Hown Hes1. clear own node. revert es1 es'.
  induction IHchildren as [|child rest IHchild _ IHrest]; intros es1 es'.
  - intros [= <-]. by rewrite app_nil_r.
  - destruct (flattenModel m child es1) as [es2|] eqn:Hchild; [|done]. simpl.
    intros H. rewrite (IHrest _ _ H), (IHchild _ _ Hchild).
    rewrite (toDraw_cons m child rest). by rewrite !app_assoc.
Qed.

Lemma flattenNodes_drawn m nodes : ∀ es es',
  flattenNodes m nodes es = Return es' →
  drawn <$> es' = (drawn <$> es) ++ toDraw m nodes.
Proof.
  induction nodes as [|node rest IH]; intros es es'; simpl.
  - intros [= <-]. by rewrite app_nil_r.
  - destruct (flattenModel m node es) as [es1|] eqn:Hnode; [|done]. simpl.
    intros H. rewrite (IH _ _ H), (flattenModel_drawn _ _ _ _ Hnode).
    rewrite (toDraw_cons m node rest). by rewrite !app_assoc.
Qed.

Lemma renderedNodes_rendered m node :
  Forall (λ n, mustRenderNode (Node.id n) m = true) (renderedNodes m node).
Proof.
  induction node as [id mesh materials children worldMatrix IHchildren]
    using Node_ind_children.
  simpl. destruct (mustRenderNode id m) eqn:E; [|constructor].
  constructor; [done|].
  induction IHchildren as [|child rest IHchild _ IHrest]; simpl; [constructor|].
  apply Forall_app. by split.
Qed.

Lemma toDraw_rendered m nodes :
  Forall (λ d, mustRenderNode (Node.id d.1) m = true) (toDraw m nodes).
Proof.
  unfold toDraw. apply Forall_forall. intros [n b] Hin.
  apply list_elem_of_In, in_flat_map in Hin as (node & Hnode & Hb).
  apply list_elem_of_In, list_elem_of_fmap in Hb as (b' & [= -> ->] & _).
  apply in_flat_map in Hnode as (root & _ & Hroot).
  pose proof (renderedNodes_rendered m root) as H.
  rewrite Forall_forall in H. apply H. by apply list_elem_of_In.
Qed.

Lemma sortEntities_Permutation es : sortEntities es ≡ₚ es.
Proof.
  unfold sortEntities. induction es as [|e es IH]; [done|].
  destruct (decide (Entity.texture e = None)) as [He|He].
  - rewrite filter_cons_True, filter_cons_False by (done || by intros ?).
    simpl. by constructor.
  - rewrite filter_cons_False, filter_cons_True by done.
    rewrite <- Permutation_middle. by constructor.
Qed.

(** [flattenModelBegin] adds to the entities one entity for each buffer of
    the mesh of each node it visits, and nothing else: no buffer is lost or
    drawn twice, and no entity is made for a node that is not to be rendered
    or that lies below one.  It leaves the entities without a texture before
    the ones with a texture. *)
Theorem flattenModelBegin_entities (this this' : Scene) :
  flattenModelBegin this = Return this' →
  drawn <$> entities this'
    ≡ₚ (drawn <$> entities this) ++ toDraw (model this) (_nodes (model this)) ∧
  Forall (λ d, mustRenderNode (Node.id d.1) (model this) = true)
         (toDraw (model this) (_nodes (model this))) ∧
  (∃ plain textured,
     entities this' = plain ++ textured ∧
     Forall (λ e, Entity.texture e = None) plain ∧
     Forall (λ e, Entity.texture e ≠ None) textured) ∧
  model this' = model this ∧ transform this' = transform this.
Proof.
  unfold flattenModelBegin.
  destruct (flattenNodes _ _ _) as [es|] eqn:Hes; [|done]. simpl.
  intros [= <-]. simpl. repeat split.
  - rewrite <- (flattenNodes_drawn _ _ _ _ Hes). by rewrite sortEntities_Permutation.
  - apply toDraw_rendered.
  - eexists _, _. split; [reflexivity|]. split.
    + apply Forall_forall. by intros e [? _]%list_elem_of_filter.
    + apply Forall_forall. by intros e [? _]%list_elem_of_filter.
Qed.

(** [setupBuffers] allots the vertex buffer and then writes into it the
    vertices of every entity followed by the texture coordinates of every
    entity with a texture, each into a slice of its own: the slices follow one
    another from byte 0 to the end of the buffer.  It does the same with the
    indices in the index buffer, which it makes only when there is an index
    to write.  The offsets it leaves with the entities are those of the
    slices written, and they are where [drawGeometry] makes the program
    read. *)
Theorem setupBuffers_layout (dc dc0 : DrawContext) (this : Scene) (e : Entity.t) :
  let numVertices := countVertices (entities this) in
  let numIndices := countIndices (entities this) in
  let es := entities (setupBuffers dc this).1 in
  let vertexData := omap vertexSlice es ++ omap uvSlice es in
  let indexData := omap indexSlice es in
  glCalls (setupBuffers dc this).2 =
    glCalls dc
    ++ [BindBuffer ARRAY_BUFFER (Some (BufferHandle (S (buffersCreated dc))));
        BufferData ARRAY_BUFFER (sizeOfFloat32 * N.of_nat numVertices)]
    ++ (writeSlice ARRAY_BUFFER <$> vertexData)
    ++ (if numIndices =? 0 then []
        else [BindBuffer ELEMENT_ARRAY_BUFFER
                (Some (BufferHandle (S (S (buffersCreated dc)))));
              BufferData ELEMENT_ARRAY_BUFFER (sizeOfUint16 * N.of_nat numIndices)]
             ++ (writeSlice ELEMENT_ARRAY_BUFFER <$> indexData)) ∧
  tiles sizeOfFloat32 0 vertexData (sizeOfFloat32 * N.of_nat numVertices) ∧
  (numIndices ≠ 0 →
   tiles sizeOfUint16 0 indexData (sizeOfUint16 * N.of_nat numIndices)) ∧
  Forall2 sameGeometry (entities this) es ∧
  Forall (λ e, is_Some (vertexSlice e) ∧
               (truthy (Entity.texture e) = true → is_Some (uvSlice e)) ∧
               (numIndices ≠ 0 → MeshBuffers.indexedRendering (Entity.mesh e) = true →
                is_Some (indexSlice e))) es ∧
  glCalls (drawGeometry e dc0) =
    glCalls dc0
    ++ [VertexAttribPointer 0 3 12 (fst <$> vertexSlice e);
        if MeshBuffers.indexedRendering (Entity.mesh e)
        then DrawElements (length (MeshBuffers.indices (Entity.mesh e)))
                          (fst <$> indexSlice e)
        else DrawArrays 0 (length (MeshBuffers.vertices (Entity.mesh e)) / 3)].
Proof.
  cbv zeta.
  destruct (setupBuffers_slices dc this) as (Hcalls & Hvertices & Hindices & Hsame & Hall).
  repeat split; try done.
  rewrite glCalls_drawGeometry. unfold geometryCalls, vertexSlice, indexSlice.
  destruct (MeshBuffers.indexedRendering (Entity.mesh e));
    destruct (Entity.vertexOffset e), (Entity.indicesOffset e); done.
Qed.

Lemma setupBuffers_layout_witness :
  match new (Some Examples.origin) (Some (Examples.car "models/car/" "tex/tyre.png")) with
  | Return scene =>
      let dc := Examples.freshContext (emptyCache WorldWind.gpuCacheSize) in
      glCalls (setupBuffers dc scene).2 =
        [BindBuffer ARRAY_BUFFER (Some (BufferHandle 1));
         BufferData ARRAY_BUFFER 96;
         BufferSubData ARRAY_BUFFER 0 9;
         BufferSubData ARRAY_BUFFER 36 9;
         BufferSubData ARRAY_BUFFER 72 6;
         BindBuffer ELEMENT_ARRAY_BUFFER (Some (BufferHandle 2));
         BufferData ELEMENT_ARRAY_BUFFER 12;
         BufferSubData ELEMENT_ARRAY_BUFFER 0 3;
         BufferSubData ELEMENT_ARRAY_BUFFER 6 3]
  | Throw _ => False
  end.
Proof.
  destruct (new (Some Examples.origin) (Some (Examples.car "models/car/" "tex/tyre.png")))
    as [scene|err] eqn:Hnew; [|by vm_compute in Hnew].
  vm_compute in Hnew. injection Hnew as <-.
  intros dc.
  match goal with |- glCalls (setupBuffers _ ?s).2 = _ => set (scene := s) end.
  set (any := Entity.mk (Examples.triangle "") (Material.mk None "")
                        (Node.mk "" None [] [] None) None None None None None).
  destruct (setupBuffers_layout dc dc scene any) as (Hcalls & _).
  rewrite Hcalls. reflexivity.
Defined.

(** The first [beginDrawing] of a scene builds its buffers twice: once
    because [hasIbo] is null, and again because the vertex buffer that was
    looked up before the first build was not there.  Once the buffers are in
    the cache, [beginDrawing] builds none; when the vertex buffer has left
    the cache, it builds them once.  A build makes one buffer, or two when
    the scene has indices. *)
Theorem beginDrawing_builds_buffers (dc : DrawContext) (this : Scene)
    (vboKey iboKey : ResourceKey) :
  let perBuild := if countIndices (entities this) =? 0 then 1 else 2 in
  let built := buffersCreated (beginDrawing dc this).2 in
  (hasIbo (drawing this) = None → vboCahckeKey (drawing this) = None →
   built = buffersCreated dc + 2 * perBuild) ∧
  (hasIbo (drawing this) = Some false →
   vboCahckeKey (drawing this) = Some vboKey →
   resident vboKey (gpuResourceCache dc) = true →
   built = buffersCreated dc) ∧
  (hasIbo (drawing this) = Some true →
   vboCahckeKey (drawing this) = Some vboKey →
   iboCahckeKey (drawing this) = Some iboKey →
   resident vboKey (gpuResourceCache dc) = true →
   resident iboKey (gpuResourceCache dc) = true →
   built = buffersCreated dc) ∧
  (hasIbo (drawing this) ≠ None →
   vboCahckeKey (drawing this) = Some vboKey →
   resident vboKey (gpuResourceCache dc) = false →
   built = buffersCreated dc + perBuild).
Proof.
  cbv zeta. rewrite beginDrawing_built.
  assert (Hfound : ∀ k dc', resident k (gpuResourceCache dc') = true →
            bool_decide ((cacheLookup (Some k) dc').1 = None) = false).
  { intros k dc' Hk. apply bool_decide_eq_false. rewrite cacheLookup_found. congruence. }
  assert (Hmissing : ∀ k dc', resident k (gpuResourceCache dc') = false →
            bool_decide ((cacheLookup (Some k) dc').1 = None) = true).
  { intros k dc' Hk. apply bool_decide_eq_true. by rewrite cacheLookup_found. }
  repeat split.
  - intros -> ->. assert ((cacheLookup None dc).1 = None) as -> by done.
    rewrite bool_decide_eq_true_2 by done. simpl. lia.
  - intros -> -> Hvbo. rewrite (Hfound _ _ Hvbo), andb_false_r. simpl. lia.
  - intros -> -> -> Hvbo Hibo. rewrite (Hfound _ _ Hvbo), Hfound; [simpl; lia|].
    by rewrite resident_cacheLookup.
  - intros Hbuilt -> Hvbo. rewrite (Hmissing _ _ Hvbo).
    destruct (hasIbo (drawing this)); [simpl; lia | done].
Qed.

Lemma beginDrawing_builds_buffers_witness :
  match new (Some Examples.origin) (Some (Examples.car "models/car/" "tex/tyre.png")) with
  | Return scene =>
      let dc := Examples.freshContext (emptyCache WorldWind.gpuCacheSize) in
      buffersCreated (beginDrawing dc scene).2 = 4
  | Throw _ => False
  end.
Proof.
  destruct (new (Some Examples.origin) (Some (Examples.car "models/car/" "tex/tyre.png")))
    as [scene|err] eqn:Hnew; [|by vm_compute in Hnew].
  vm_compute in Hnew. injection Hnew as <-.
  intros dc.
  match goal with |- buffersCreated (beginDrawing _ ?s).2 = _ => set (scene := s) end.
  exact (proj1 (beginDrawing_builds_buffers dc scene (GeneratedKey 0) (GeneratedKey 0))
               eq_refl eq_refl).
Defined.

Lemma flattenModelBegin_entities_witness :
  match new (Some Examples.origin) (Some (Examples.car "models/car/" "tex/tyre.png")) with
  | Return scene =>
      Forall (λ d, mustRenderNode (Node.id d.1) (model scene) = true)
             (toDraw (model scene) (_nodes (model scene))) ∧
      length (entities scene) = 2
  | Throw _ => False
  end.
Proof.
  destruct (new (Some Examples.origin) (Some (Examples.car "models/car/" "tex/tyre.png")))
    as [scene|err] eqn:Hnew; [|by vm_compute in Hnew].
  vm_compute in Hnew. injection Hnew as <-.
  match goal with |- Forall _ (toDraw (model ?s) _) ∧ _ => set (scene := s) end.
  split; [|reflexivity].
  assert (Hflat : flattenModelBegin (with_entities [] scene) = Return scene)
    by (by vm_compute).
  exact (proj1 (proj2 (flattenModelBegin_entities _ _ Hflat))).
Defined.

(** ** Queueing the scene *)

Lemma makeOrderedRenderable_again dc this :
  makeOrderedRenderable dc (makeOrderedRenderable dc this) = makeOrderedRenderable dc this.
Proof. by destruct this as [[[] ? ? ?] ? ? ? ?]. Qed.

Lemma placePoint_makeOrderedRenderable dc this :
  _placePoint (transform (scene (makeOrderedRenderable dc this)))
  = surfacePoint dc (scene this).
Proof. by destruct this as [[[] ? ? ?] ? ? ? ?]. Qed.

Lemma surfacePoint_makeOrderedRenderable dc this :
  surfacePoint dc (scene (makeOrderedRenderable dc this)) = surfacePoint dc (scene this).
Proof. by destruct this as [[[] ? ? ?] ? ? ? ?]. Qed.

Lemma render_cases dc this :
  render dc this =
    if enabled this && bool_decide (lastFrameTime this ≠ Some (timestamp dc)) then
      if frustumContainsPoint dc (surfacePoint dc (scene this))
      then (queued dc this, addOrderedRenderable (queued dc this) dc)
      else (makeOrderedRenderable dc this, dc)
    else (this, dc).
Proof.
  destruct this as [[[] ? ? ?] [] ? ? ?]; unfold render; simpl; [|done].
  destruct (bool_decide _); simpl; [|done].
  unfold surfacePoint; simpl. by destruct (frustumContainsPoint dc _).
Qed.

Lemma render_again dc this :
  render (render dc this).2 (render dc this).1 = render dc this.
Proof.
  rewrite (render_cases dc this).
  destruct (enabled this && bool_decide (lastFrameTime this ≠ Some (timestamp dc)))
    eqn:Efirst.
  - destruct (frustumContainsPoint dc (surfacePoint dc (scene this))) eqn:Ef;
      cbn [fst snd]; rewrite render_cases.
    + cbn [queued enabled lastFrameTime timestamp addOrderedRenderable].
      rewrite bool_decide_eq_false_2 by (by intros H; apply H). done.
    + assert (enabled (makeOrderedRenderable dc this)
              && bool_decide (lastFrameTime (makeOrderedRenderable dc this)
                              ≠ Some (timestamp dc)) = true) as -> by exact Efirst.
      by rewrite surfacePoint_makeOrderedRenderable, Ef, makeOrderedRenderable_again.
  - cbn [fst snd]. by rewrite render_cases, Efirst.
Qed.

(** [render] puts the scene on the queue of ordered renderables when the
    scene is enabled, has not been queued in this frame and has its surface
    point in the frustum, and otherwise leaves the queue alone; a scene that
    is not enabled is left as it is.  Rendering again in the same frame
    changes neither the scene nor the queue, however often: a scene is queued
    at most once a frame. *)
Theorem render_queues_once_a_frame (dc : FrameContext) (this : Renderable) (n : nat) :
  let once := render dc this in
  orderedRenderables once.2
  = orderedRenderables dc ++ (if queues dc this then [once.1] else []) ∧
  (queues dc this = true →
   lastFrameTime once.1 = Some (timestamp dc) ∧
   layer once.1 = Some (currentLayer dc) ∧
   placePoint (scene once.1) = surfacePoint dc (scene this)) ∧
  (enabled this = false → once = (this, dc)) ∧
  Nat.iter n (λ state, render state.2 state.1) once = once.
Proof.
  cbv zeta. rewrite render_cases. unfold queues.
  split; [|split; [|split]].
  - destruct (enabled this && bool_decide _); [|by rewrite app_nil_r].
    destruct (frustumContainsPoint dc _); cbn [andb fst snd]; [done|].
    by rewrite app_nil_r.
  - destruct (enabled this && bool_decide _); [|done].
    destruct (frustumContainsPoint dc _); [|done].
    intros _. cbn [fst queued lastFrameTime layer scene]. repeat split.
  - by intros ->.
  - rewrite <- render_cases.
    induction n as [|n IH]; [done|]. simpl. rewrite IH. apply render_again.
Qed.

Lemma render_queues_once_a_frame_witness :
  let dc := mkFrameContext 1000 (λ _, true) (λ _ _ _ _, vec3 1 2 3) (λ _, 7%Q) 4 [] in
  match new (Some Examples.origin) None with
  | Return empty =>
      let this := mkRenderable empty true None None None in
      length (orderedRenderables
                (Nat.iter 3 (λ state, render state.2 state.1) (render dc this)).2) = 1 ∧
      placePoint (scene (render dc this).1) = vec3 1 2 3
  | Throw _ => False
  end.
Proof.
  intros dc.
  destruct (new (Some Examples.origin) None) as [empty|err] eqn:Hnew;
    [|by vm_compute in Hnew].
  intros this.
  destruct (render_queues_once_a_frame dc this 3) as (Hqueue & Hqueued & _ & Hagain).
  split.
  - rewrite Hagain, Hqueue. reflexivity.
  - exact (proj2 (proj2 (Hqueued eq_refl))).
Defined.

(** ** From a change of position to the matrix *)

Lemma transform_loadTextures dc this : transform (loadTextures dc this).1 = transform this.
Proof.
  unfold loadTextures. destruct (allTexturesLoaded (drawing this)); [done|].
  by destruct (loadTexturesLoop _ _ _) as [[es d] dc'].
Qed.

Lemma transform_setupBuffers dc this : transform (setupBuffers dc this).1 = transform this.
Proof.
  unfold setupBuffers.
  destruct (createBuffer dc) as [vbo dc0].
  destruct (uploadVertices _ _ _) as [[es1 offset1] dc2].
  destruct (uploadUvs _ _ _) as [[es2 offset2] dc3].
  destruct (countIndices (entities this) =? 0); cbn [negb].
  - by destruct (cacheGenerateKey dc3) as [vboKey dc4].
  - destruct (createBuffer dc3) as [ibo dc3'].
    destruct (uploadIndices _ _ _) as [[es3 offset3] dc5].
    destruct (cacheGenerateKey dc5) as [vboKey dc6].
    by destruct (cacheGenerateKey _) as [iboKey dc7].
Qed.

Lemma transform_applyMatrix b this : transform (applyMatrix b this) = transform this.
Proof. unfold applyMatrix. by destruct (_ && _). Qed.

Lemma transform_draw dc e this : transform (draw dc e this).1 = transform this.
Proof.
  unfold draw. destruct (truthy (Entity.texture e)).
  - destruct (cacheLookup _ dc) as [found dc1].
    destruct found as [texture|].
    + destruct (textureBinds dc1 texture); cbn [fst snd];
        by rewrite transform_applyMatrix.
    + destruct (retrieveTexture _ _ dc1) as [active dc2].
      destruct active as [texture|]; [destruct (textureBinds dc2 texture)|];
        cbn [fst snd]; by rewrite transform_applyMatrix.
  - cbn [fst snd]. by rewrite transform_applyMatrix.
Qed.

Lemma transform_drawEntities es : ∀ dc this,
  transform (drawEntities es dc this).1 = transform this.
Proof.
  induction es as [|e es IH]; intros dc this; simpl; [done|].
  destruct (greyedOut (drawing this)).
  - unfold drawGreyedOut. cbv zeta. rewrite IH. by rewrite transform_applyMatrix.
  - pose proof (transform_draw dc e this) as H.
    destruct (draw dc e this) as [this1 dc1]. by rewrite IH.
Qed.

(** What of the draw context the drawing code leaves alone: a part that
    neither a call on the graphics context, nor a change of the cache, nor
    the making of a buffer, nor the request of a texture changes. *)
Section Untouched.
Context {A : Type} (part : DrawContext → A).
Hypothesis part_gl : ∀ call dc, part (gl call dc) = part dc.
Hypothesis part_with_cache : ∀ c dc, part (with_cache c dc) = part dc.
Hypothesis part_createBuffer : ∀ dc, part (createBuffer dc).2 = part dc.
Hypothesis part_retrieveTexture : ∀ key mode dc,
  part (retrieveTexture key mode dc).2 = part dc.

Lemma untouched_cacheLookup k dc : part (cacheLookup k dc).2 = part dc.
Proof.
  unfold cacheLookup. destruct k as [k|]; [|done].
  destruct (resourceForKey _ _). apply part_with_cache.
Qed.

Lemma untouched_cachePut k r size dc : part (cachePut k r size dc) = part dc.
Proof. apply part_with_cache. Qed.

Lemma untouched_cacheGenerateKey dc : part (cacheGenerateKey dc).2 = part dc.
Proof. unfold cacheGenerateKey. destruct (generateCacheKey _). apply part_with_cache. Qed.

Lemma untouched_uploadVertices es : ∀ offset dc,
  part (uploadVertices es offset dc).2 = part dc.
Proof.
  induction es as [|e es IH]; intros offset dc; simpl; [done|].
  specialize (IH (offset + length (MeshBuffers.vertices (Entity.mesh e)))
                 (gl (BufferSubData ARRAY_BUFFER (N.of_nat offset * sizeOfFloat32)
                        (length (MeshBuffers.vertices (Entity.mesh e)))) dc)).
  destruct (uploadVertices es _ _) as [[es' final] dc']. simpl in *.
  by rewrite IH, part_gl.
Qed.

Lemma untouched_uploadUvs es : ∀ offset dc, part (uploadUvs es offset dc).2 = part dc.
Proof.
  induction es as [|e es IH]; intros offset dc; simpl; [done|].
  destruct (truthy (Entity.texture e)).
  - specialize (IH (offset + length (MeshBuffers.uvs (Entity.mesh e)))
                   (gl (BufferSubData ARRAY_BUFFER (N.of_nat offset * sizeOfFloat32)
                          (length (MeshBuffers.uvs (Entity.mesh e)))) dc)).
    destruct (uploadUvs es _ _) as [[es' final] dc']. simpl in *.
    by rewrite IH, part_gl.
  - specialize (IH offset dc). by destruct (uploadUvs es _ _) as [[es' final] dc'].
Qed.

Lemma untouched_uploadIndices es : ∀ offset dc,
  part (uploadIndices es offset dc).2 = part dc.
Proof.
  induction es as [|e es IH]; intros offset dc; simpl; [done|].
  destruct (MeshBuffers.indexedRendering (Entity.mesh e)).
  - specialize (IH (offset + length (MeshBuffers.indices (Entity.mesh e)))
                   (gl (BufferSubData ELEMENT_ARRAY_BUFFER (N.of_nat offset * sizeOfUint16)
                          (length (MeshBuffers.indices (Entity.mesh e)))) dc)).
    destruct (uploadIndices es _ _) as [[es' final] dc']. simpl in *.
    by rewrite IH, part_gl.
  - specialize (IH offset dc). by destruct (uploadIndices es _ _) as [[es' final] dc'].
Qed.

Lemma untouched_setupBuffers dc this : part (setupBuffers dc this).2 = part dc.
Proof.
  unfold setupBuffers.
  assert (Hcb : createBuffer dc = ((createBuffer dc).1, (createBuffer dc).2))
    by (by destruct (createBuffer dc)).
  rewrite Hcb. clear Hcb.
  set (dc1 := gl (BufferData ARRAY_BUFFER _) _).
  assert (H1 : part dc1 = part dc).
  { unfold dc1. by rewrite !part_gl, part_createBuffer. }
  pose proof (untouched_uploadVertices (entities this) 0 dc1) as H2.
  destruct (uploadVertices (entities this) 0 dc1) as [[es1 offset1] dc2].
  pose proof (untouched_uploadUvs es1 offset1 dc2) as H3.
  destruct (uploadUvs es1 offset1 dc2) as [[es2 offset2] dc3].
  simpl in H2, H3.
  destruct (countIndices (entities this) =? 0); cbn [negb].
  - pose proof (untouched_cacheGenerateKey dc3) as H4.
    destruct (cacheGenerateKey dc3) as [vboKey dc4]. simpl in *.
    rewrite untouched_cachePut. congruence.
  - assert (Hcb : createBuffer dc3 = ((createBuffer dc3).1, (createBuffer dc3).2))
      by (by destruct (createBuffer dc3)).
    rewrite Hcb. clear Hcb.
    set (dc4 := gl (BufferData ELEMENT_ARRAY_BUFFER _) _).
    assert (H4 : part dc4 = part dc3).
    { unfold dc4. by rewrite !part_gl, part_createBuffer. }
    pose proof (untouched_uploadIndices es2 0 dc4) as H5.
    destruct (uploadIndices es2 0 dc4) as [[es3 offset3] dc5].
    pose proof (untouched_cacheGenerateKey dc5) as H6.
    destruct (cacheGenerateKey dc5) as [vboKey dc6].
    pose proof (untouched_cacheGenerateKey
                  (cachePut vboKey (createBuffer dc).1
                     (N.of_nat (countVertices (entities this)) * sizeOfFloat32) dc6)) as H7.
    destruct (cacheGenerateKey (cachePut _ _ _ dc6)) as [iboKey dc7].
    simpl in *. rewrite untouched_cachePut, H7, untouched_cachePut. congruence.
Qed.

Lemma untouched_loadTexture e dc : part (loadTexture e dc).2 = part dc.
Proof.
  unfold loadTexture. destruct (_ || _); [done|].
  pose proof (untouched_cacheLookup (Some (NamedKey (default "" (Entity.texture e)))) dc)
    as H.
  destruct (cacheLookup _ dc) as [found dc1]. destruct found; [done|].
  pose proof (part_retrieveTexture (default "" (Entity.texture e))
                (wrapModeOf (Entity.mesh e)) dc1) as H2.
  destruct (retrieveTexture _ _ dc1) as [retrieved dc2]. simpl in *. congruence.
Qed.

Lemma untouched_loadTextures dc this : part (loadTextures dc this).2 = part dc.
Proof.
  unfold loadTextures. destruct (allTexturesLoaded (drawing this)); [done|].
  generalize (with_partialTexturesLoaded true (drawing this)).
  generalize (entities this). intros es. revert dc.
  induction es as [|e es IH]; intros dc d; simpl; [done|].
  pose proof (untouched_loadTexture e dc) as Hone.
  destruct (loadTexture e dc) as [[[e' loaded] missing] dc1]. simpl in Hone.
  specialize (IH dc1 (if missing then with_partialTexturesLoaded false
                                        (match loaded with
                                         | Some value => with_textureLoaded value d
                                         | None => d
                                         end)
                      else match loaded with
                           | Some value => with_textureLoaded value d
                           | None => d
                           end)).
  destruct (loadTexturesLoop es _ dc1) as [[rest d'] dc2].
  destruct (partialTexturesLoaded d'); simpl in *; congruence.
Qed.

Lemma untouched_drawGeometry e dc : part (drawGeometry e dc) = part dc.
Proof.
  unfold drawGeometry. destruct (MeshBuffers.indexedRendering _); by rewrite !part_gl.
Qed.

Lemma untouched_draw dc e this : part (draw dc e this).2 = part dc.
Proof.
  unfold draw. destruct (truthy (Entity.texture e)).
  - pose proof (untouched_cacheLookup
                  (Some (NamedKey (default "" (Entity.texture e)))) dc) as H1.
    destruct (cacheLookup _ dc) as [found dc1]. simpl in H1.
    destruct found as [texture|].
    + destruct (textureBinds dc1 texture); cbn [fst snd];
        by rewrite untouched_drawGeometry, !part_gl.
    + pose proof (part_retrieveTexture
                    (default "" (Entity.texture e)) (wrapModeOf (Entity.mesh e)) dc1) as H2.
      destruct (retrieveTexture _ _ dc1) as [active dc2]. simpl in H2.
      destruct active as [texture|]; [destruct (textureBinds dc2 texture)|];
        cbn [fst snd]; rewrite untouched_drawGeometry, !part_gl; congruence.
  - cbn [fst snd]. by rewrite untouched_drawGeometry, !part_gl.
Qed.

Lemma untouched_drawEntities es : ∀ dc this, part (drawEntities es dc this).2 = part dc.
Proof.
  induction es as [|e es IH]; intros dc this; simpl; [done|].
  destruct (greyedOut (drawing this)).
  - unfold drawGreyedOut. cbv zeta. by rewrite IH, untouched_drawGeometry, !part_gl.
  - pose proof (untouched_draw dc e this) as H.
    destruct (draw dc e this) as [this1 dc1]. by rewrite IH.
Qed.

End Untouched.

Lemma globe_loadTextures dc this : globe (loadTextures dc this).2 = globe dc.
Proof.
  apply untouched_loadTextures; try done.
  intros key mode dc0. unfold retrieveTexture. simpl. by destruct (bool_decide _).
Qed.

Lemma globe_cacheLookup k dc : globe (cacheLookup k dc).2 = globe dc.
Proof. by apply untouched_cacheLookup. Qed.

Lemma globe_setupBuffers dc this : globe (setupBuffers dc this).2 = globe dc.
Proof. by apply untouched_setupBuffers. Qed.

Lemma transform_computeTransformationMatrix g this this' :
  transform this' = transform this →
  transform (computeTransformationMatrix g this')
  = transform (computeTransformationMatrix g this).
Proof.
  intros H. unfold computeTransformationMatrix, onTransform, with_transform,
    transformationMatrix, placePoint, xRotation, yRotation, zRotation, scale,
    xTranslation, yTranslation, zTranslation.
  rewrite H. by destruct (negb _).
Qed.

Lemma transform_beginDrawing dc this :
  transform (beginDrawing dc this).1
  = transform (computeTransformationMatrix (globe dc) this).
Proof.
  unfold beginDrawing.
  pose proof (globe_cacheLookup (vboCahckeKey (drawing this)) dc) as G1.
  destruct (cacheLookup (vboCahckeKey (drawing this)) dc) as [vboId dc1].
  pose proof (globe_cacheLookup (iboCahckeKey (drawing this)) dc1) as G2.
  destruct (cacheLookup (iboCahckeKey (drawing this)) dc1) as [iboId dc2].
  cbn [fst snd] in *.
  assert (Hfirst : ∃ this1 dc3,
    match hasIbo (drawing this) with
    | None => setupBuffers dc2 this
    | Some _ => (this, dc2)
    end = (this1, dc3) ∧ transform this1 = transform this ∧ globe dc3 = globe dc).
  { destruct (hasIbo (drawing this)).
    - exists this, dc2. repeat split; congruence.
    - pose proof (transform_setupBuffers dc2 this) as T.
      pose proof (globe_setupBuffers dc2 this) as G.
      destruct (setupBuffers dc2 this) as [this1 dc3]. simpl in *.
      exists this1, dc3. repeat split; congruence. }
  destruct Hfirst as (this1 & dc3 & -> & T1 & G3).
  set (again := bool_decide (vboId = None) || _).
  assert (Hsecond : ∃ this2 dc4,
    (if again then setupBuffers dc3 this1
     else (this1, gl (BindBuffer ELEMENT_ARRAY_BUFFER iboId)
                     (gl (BindBuffer ARRAY_BUFFER vboId) dc3))) = (this2, dc4) ∧
    transform this2 = transform this ∧ globe dc4 = globe dc).
  { destruct again.
    - pose proof (transform_setupBuffers dc3 this1) as T.
      pose proof (globe_setupBuffers dc3 this1) as G.
      destruct (setupBuffers dc3 this1) as [this2 dc4]. simpl in *.
      exists this2, dc4. repeat split; congruence.
    - eexists _, _. split; [done|]. split; [done|]. exact G3. }
  destruct Hsecond as (this2 & dc4 & -> & T2 & G4).
  set (dc5 := gl (DisableVertexAttribArray 1) (gl (EnableVertexAttribArray 0) dc4)).
  assert (G5 : globe dc5 = globe dc) by exact G4.
  destruct (pickingMode dc5).
  - destruct (uniquePickColor dc5) as [color dc6] eqn:Ep.
    assert (G6 : globe dc6 = globe dc).
    { unfold uniquePickColor in Ep. injection Ep as _ <-. exact G5. }
    rewrite entities_computeTransformationMatrix, transform_drawEntities, G6.
    by apply transform_computeTransformationMatrix.
  - rewrite entities_computeTransformationMatrix, transform_drawEntities, G5.
    by apply transform_computeTransformationMatrix.
Qed.

Lemma transform_renderOrdered dc this :
  allTexturesLoaded (drawing (loadTextures dc this).1) = true →
  transform (renderOrdered dc this).1
  = transform (computeTransformationMatrix (globe dc) this).
Proof.
  intros Hloaded. unfold renderOrdered.
  pose proof (transform_loadTextures dc this) as T.
  pose proof (globe_loadTextures dc this) as G.
  destruct (loadTextures dc this) as [this1 dc1]. simpl in *.
  rewrite Hloaded. cbn [negb]. unfold drawOrderedScene.
  pose proof (transform_beginDrawing dc1 this1) as B.
  destruct (beginDrawing dc1 this1) as [this2 dc2]. simpl in *.
  unfold endDrawing. cbv zeta.
  destruct (pickingMode _); cbn [fst]; rewrite B, G;
    by apply transform_computeTransformationMatrix.
Qed.

Lemma loadTextures_onTransform f dc this :
  drawing (loadTextures dc (onTransform f this)).1 = drawing (loadTextures dc this).1.
Proof.
  unfold loadTextures, onTransform, with_transform. simpl.
  destruct (allTexturesLoaded (drawing this)); [done|].
  by destruct (loadTexturesLoop _ _ _) as [[es d] dc'].
Qed.

Lemma drawing_assign p this : drawing (assign p this) = drawing this.
Proof. by destruct p. Qed.

Lemma entities_assign p this : entities (assign p this) = entities this.
Proof. by destruct p. Qed.

Lemma loadTextures_placement dc this this' :
  entities this' = entities this → drawing this' = drawing this →
  drawing (loadTextures dc this').1 = drawing (loadTextures dc this).1.
Proof.
  intros He Hd. unfold loadTextures. rewrite He, Hd.
  destruct (allTexturesLoaded (drawing this)); [done|].
  by destruct (loadTexturesLoop _ _ _) as [[es d] dc'].
Qed.

Lemma computeTransformationMatrix_dirty g this :
  mustUpdate (transform this) = true →
  transformationMatrix (computeTransformationMatrix g this)
  = placedAt (placePoint this) g this ∧
  mustUpdate (transform (computeTransformationMatrix g this)) = false ∧
  placePoint (computeTransformationMatrix g this) = placePoint this.
Proof.
  intros H. unfold computeTransformationMatrix. rewrite H. by destruct this as [[] ? ? ?].
Qed.

Lemma computeTransformationMatrix_clean g this :
  mustUpdate (transform this) = false → computeTransformationMatrix g this = this.
Proof. intros H. unfold computeTransformationMatrix. by rewrite H. Qed.

(** A frame is [render] followed by [renderOrdered].  When the textures are
    loaded, the frame after an assignment to one of the placement properties
    leaves the transformation matrix built from the value assigned, from the
    values the other properties had, and from the surface point that the
    frame gives for the position and the altitude mode so assigned.  A frame
    with no assignment before it moves the place point to the surface point
    of the frame but keeps the matrix as it was. *)
Theorem placement_reaches_the_matrix
    (frame : FrameContext) (dc : DrawContext) (this : Renderable) (p : Placed) :
  let assigned :=
    mkRenderable (assign p (scene this)) (enabled this) (lastFrameTime this)
                 (eyeDistance this) (layer this) in
  let was := scene this in
  let position' := match p with SetPosition value => value | _ => position was end in
  let xRotation' := match p with SetXRotation value => value | _ => xRotation was end in
  let yRotation' := match p with SetYRotation value => value | _ => yRotation was end in
  let zRotation' := match p with SetZRotation value => value | _ => zRotation was end in
  let xTranslation' :=
    match p with SetXTranslation value => value | _ => xTranslation was end in
  let yTranslation' :=
    match p with SetYTranslation value => value | _ => yTranslation was end in
  let zTranslation' :=
    match p with SetZTranslation value => value | _ => zTranslation was end in
  let scale' := match p with SetScale value => value | _ => scale was end in
  let altitudeMode' :=
    match p with SetAltitudeMode value => value | _ => altitudeMode was end in
  allTexturesLoaded (drawing (loadTextures dc (scene this)).1) = true →
  (queues frame assigned = true →
   let drawn := (renderOrdered dc (scene (render frame assigned).1)).1 in
   transformationMatrix drawn
   = [LocalCoordinateTransform
        (surfacePointForMode frame (latitude position') (longitude position')
                             (altitude position') altitudeMode')
        (globe dc);
      Rotation 1 0 0 xRotation';
      Rotation 0 1 0 yRotation';
      Rotation 0 0 1 zRotation';
      Scale scale' scale' scale';
      Translation xTranslation' yTranslation' zTranslation';
      Rotation 1 0 0 (preX (transform was));
      Rotation 0 1 0 (preY (transform was));
      Rotation 0 0 1 (preZ (transform was))] ∧
   mustUpdate (transform drawn) = false) ∧
  (queues frame this = true → mustUpdate (transform (scene this)) = false →
   let drawn := (renderOrdered dc (scene (render frame this).1)).1 in
   placePoint drawn = surfacePoint frame (scene this) ∧
   transformationMatrix drawn = transformationMatrix (scene this)).
Proof.
  intros assigned was position' xRotation' yRotation' zRotation'
         xTranslation' yTranslation' zTranslation' scale' altitudeMode' Hloaded.
  split.
  - intros Hq drawn. subst drawn.
    assert (Hr : (render frame assigned).1 = queued frame assigned).
    { rewrite render_cases. unfold queues in Hq.
      apply andb_true_iff in Hq as [-> ->]. done. }
    rewrite Hr. unfold transformationMatrix.
    rewrite transform_renderOrdered.
    2:{ rewrite <- Hloaded. f_equal. apply loadTextures_placement.
        - unfold queued, makeOrderedRenderable, assigned. simpl. apply entities_assign.
        - unfold queued, makeOrderedRenderable, assigned. simpl. apply drawing_assign. }
    assert (Hdirty : mustUpdate (transform (scene (queued frame assigned))) = true).
    { unfold queued, makeOrderedRenderable, assigned. simpl. by destruct p. }
    destruct (computeTransformationMatrix_dirty (globe dc) _ Hdirty) as (Hm & Hu & _).
    split; [|exact Hu].
    unfold transformationMatrix in Hm. rewrite Hm.
    unfold queued, makeOrderedRenderable, assigned, surfacePoint, placedAt. simpl.
    subst was position' xRotation' yRotation' zRotation'
          xTranslation' yTranslation' zTranslation' scale' altitudeMode'.
    by destruct p.
  - intros Hq Hclean drawn. subst drawn.
    assert (Hr : (render frame this).1 = queued frame this).
    { rewrite render_cases. unfold queues in Hq.
      apply andb_true_iff in Hq as [-> ->]. done. }
    rewrite Hr. unfold transformationMatrix, placePoint.
    rewrite transform_renderOrdered.
    2:{ rewrite <- Hloaded. f_equal. by apply loadTextures_placement. }
    rewrite computeTransformationMatrix_clean.
    + unfold queued, makeOrderedRenderable, surfacePoint. simpl. done.
    + unfold queued, makeOrderedRenderable. simpl. exact Hclean.
Qed.

Lemma placement_reaches_the_matrix_witness :
  let frame := mkFrameContext 1000 (λ _, true)
                 (λ latitude longitude altitude _, vec3 latitude longitude altitude)
                 (λ _, 7%Q) 4 [] in
  let dc := Examples.freshContext (emptyCache WorldWind.gpuCacheSize) in
  match new (Some Examples.origin) None with
  | Return empty =>
      let this := mkRenderable (set_position (mkPosition 45 9 100) empty)
                               true None None None in
      transformationMatrix (renderOrdered dc (scene (render frame this).1)).1
      = [LocalCoordinateTransform (vec3 45 9 100) (mkGlobe 0);
         Rotation 1 0 0 0; Rotation 0 1 0 0; Rotation 0 0 1 0;
         Scale 1 1 1; Translation 0 0 0;
         Rotation 1 0 0 0; Rotation 0 1 0 0; Rotation 0 0 1 0]
  | Throw _ => False
  end.
Proof.
  intros frame dc.
  destruct (new (Some Examples.origin) None) as [empty|err] eqn:Hnew;
    [|by vm_compute in Hnew].
  vm_compute in Hnew. injection Hnew as <-.
  intros this. subst this.
  lazymatch goal with
  | |- context [set_position _ ?s] =>
      exact (proj1 (proj1 (placement_reaches_the_matrix frame dc
                             (mkRenderable s true None None None)
                             (SetPosition (mkPosition 45 9 100)) eq_refl) eq_refl))
  end.
Defined.

(** ** Picking *)

Lemma pickingMode_retrieveTexture key mode dc :
  pickingMode (retrieveTexture key mode dc).2 = pickingMode dc.
Proof. unfold retrieveTexture. simpl. by destruct (bool_decide _). Qed.

Lemma pickColorsIssued_retrieveTexture key mode dc :
  pickColorsIssued (retrieveTexture key mode dc).2 = pickColorsIssued dc.
Proof. unfold retrieveTexture. simpl. by destruct (bool_decide _). Qed.

Lemma pickColor_setupBuffers dc this :
  pickColor (drawing (setupBuffers dc this).1) = pickColor (drawing this).
Proof.
  unfold setupBuffers.
  destruct (createBuffer dc) as [vbo dc0].
  destruct (uploadVertices _ _ _) as [[es1 offset1] dc2].
  destruct (uploadUvs _ _ _) as [[es2 offset2] dc3].
  destruct (countIndices (entities this) =? 0); cbn [negb].
  - by destruct (cacheGenerateKey dc3) as [vboKey dc4].
  - destruct (createBuffer dc3) as [ibo dc3'].
    destruct (uploadIndices _ _ _) as [[es3 offset3] dc5].
    destruct (cacheGenerateKey dc5) as [vboKey dc6].
    by destruct (cacheGenerateKey _) as [iboKey dc7].
Qed.

Lemma pickColor_applyMatrix b this :
  pickColor (drawing (applyMatrix b this)) = pickColor (drawing this).
Proof. unfold applyMatrix. by destruct (_ && _). Qed.

Lemma pickColor_draw dc e this :
  pickColor (drawing (draw dc e this).1) = pickColor (drawing this).
Proof.
  unfold draw. destruct (truthy (Entity.texture e)).
  - destruct (cacheLookup _ dc) as [found dc1].
    destruct found as [texture|].
    + destruct (textureBinds dc1 texture); cbn [fst snd];
        by rewrite pickColor_applyMatrix.
    + destruct (retrieveTexture _ _ dc1) as [active dc2].
      destruct active as [texture|]; [destruct (textureBinds dc2 texture)|];
        cbn [fst snd]; by rewrite pickColor_applyMatrix.
  - cbn [fst snd]. by rewrite pickColor_applyMatrix.
Qed.

Lemma pickColor_drawEntities es : ∀ dc this,
  pickColor (drawing (drawEntities es dc this).1) = pickColor (drawing this).
Proof.
  induction es as [|e es IH]; intros dc this; simpl; [done|].
  destruct (greyedOut (drawing this)).
  - unfold drawGreyedOut. cbv zeta. rewrite IH. by rewrite pickColor_applyMatrix.
  - pose proof (pickColor_draw dc e this) as H.
    destruct (draw dc e this) as [this1 dc1]. by rewrite IH.
Qed.

Lemma drawing_computeTransformationMatrix g this :
  drawing (computeTransformationMatrix g this) = drawing this.
Proof. unfold computeTransformationMatrix. by destruct (negb _). Qed.

Lemma beginDrawing_pick dc this :
  pickingMode (beginDrawing dc this).2 = pickingMode dc ∧
  pickColorsIssued (beginDrawing dc this).2
  = pickColorsIssued dc + (if pickingMode dc then 1 else 0) ∧
  pickColor (drawing (beginDrawing dc this).1)
  = if pickingMode dc then Some (S (pickColorsIssued dc)) else pickColor (drawing this).
Proof.
  unfold beginDrawing.
  pose proof (untouched_cacheLookup pickingMode ltac:(done)
                (vboCahckeKey (drawing this)) dc) as M1.
  pose proof (untouched_cacheLookup pickColorsIssued ltac:(done)
                (vboCahckeKey (drawing this)) dc) as I1.
  destruct (cacheLookup (vboCahckeKey (drawing this)) dc) as [vboId dc1].
  pose proof (untouched_cacheLookup pickingMode ltac:(done)
                (iboCahckeKey (drawing this)) dc1) as M2.
  pose proof (untouched_cacheLookup pickColorsIssued ltac:(done)
                (iboCahckeKey (drawing this)) dc1) as I2.
  destruct (cacheLookup (iboCahckeKey (drawing this)) dc1) as [iboId dc2].
  cbn [fst snd] in *.
  assert (Hfirst : ∃ this1 dc3,
    match hasIbo (drawing this) with
    | None => setupBuffers dc2 this
    | Some _ => (this, dc2)
    end = (this1, dc3) ∧ pickColor (drawing this1) = pickColor (drawing this) ∧
    pickingMode dc3 = pickingMode dc ∧ pickColorsIssued dc3 = pickColorsIssued dc).
  { destruct (hasIbo (drawing this)).
    - exists this, dc2. repeat split; congruence.
    - pose proof (pickColor_setupBuffers dc2 this) as C.
      pose proof (untouched_setupBuffers pickingMode ltac:(done) ltac:(done)
                    ltac:(done) dc2 this) as M.
      pose proof (untouched_setupBuffers pickColorsIssued ltac:(done) ltac:(done)
                    ltac:(done) dc2 this) as I.
      destruct (setupBuffers dc2 this) as [this1 dc3]. simpl in *.
      exists this1, dc3. repeat split; congruence. }
  destruct Hfirst as (this1 & dc3 & -> & C1 & M3 & I3).
  set (again := bool_decide (vboId = None) || _).
  assert (Hsecond : ∃ this2 dc4,
    (if again then setupBuffers dc3 this1
     else (this1, gl (BindBuffer ELEMENT_ARRAY_BUFFER iboId)
                     (gl (BindBuffer ARRAY_BUFFER vboId) dc3))) = (this2, dc4) ∧
    pickColor (drawing this2) = pickColor (drawing this) ∧
    pickingMode dc4 = pickingMode dc ∧ pickColorsIssued dc4 = pickColorsIssued dc).
  { destruct again.
    - pose proof (pickColor_setupBuffers dc3 this1) as C.
      pose proof (untouched_setupBuffers pickingMode ltac:(done) ltac:(done)
                    ltac:(done) dc3 this1) as M.
      pose proof (untouched_setupBuffers pickColorsIssued ltac:(done) ltac:(done)
                    ltac:(done) dc3 this1) as I.
      destruct (setupBuffers dc3 this1) as [this2 dc4]. simpl in *.
      exists this2, dc4. repeat split; congruence.
    - eexists _, _. split; [done|]. repeat split; [exact C1 | exact M3 | exact I3]. }
  destruct Hsecond as (this2 & dc4 & -> & C2 & M4 & I4).
  set (dc5 := gl (DisableVertexAttribArray 1) (gl (EnableVertexAttribArray 0) dc4)).
  assert (M5 : pickingMode dc5 = pickingMode dc) by exact M4.
  assert (I5 : pickColorsIssued dc5 = pickColorsIssued dc) by exact I4.
  rewrite M5.
  destruct (pickingMode dc) eqn:Epick.
  - assert (Hp : uniquePickColor dc5
                 = ((uniquePickColor dc5).1, (uniquePickColor dc5).2))
      by (by destruct (uniquePickColor dc5)).
    rewrite Hp. clear Hp.
    rewrite entities_computeTransformationMatrix.
    rewrite (untouched_drawEntities pickingMode), (untouched_drawEntities pickColorsIssued),
      pickColor_drawEntities, drawing_computeTransformationMatrix;
      try done; try apply pickingMode_retrieveTexture;
      try apply pickColorsIssued_retrieveTexture.
    unfold uniquePickColor. simpl. rewrite I4, M4. repeat split; (done || lia).
  - rewrite entities_computeTransformationMatrix.
    rewrite (untouched_drawEntities pickingMode), (untouched_drawEntities pickColorsIssued),
      pickColor_drawEntities, drawing_computeTransformationMatrix;
      try done; try apply pickingMode_retrieveTexture;
      try apply pickColorsIssued_retrieveTexture.
    repeat split; (done || lia).
Qed.

(** In picking mode a [renderOrdered] that draws the scene takes one pick
    colour from the draw context, keeps it as the scene's, and ends by
    resolving the pick with it.  Outside picking mode no pick colour is taken
    and the scene's is left as it was.  A scene that still waits for a
    texture takes no pick colour and resolves no pick: it cannot be
    picked. *)
Theorem renderOrdered_resolves_the_pick (dc : DrawContext) (this : Scene) :
  let result := renderOrdered dc this in
  let loaded := allTexturesLoaded (drawing (loadTextures dc this).1) in
  (pickingMode dc = true → loaded = true →
   last (glCalls result.2) = Some (ResolvePick (Some (S (pickColorsIssued dc)))) ∧
   pickColor (drawing result.1) = Some (S (pickColorsIssued dc)) ∧
   pickColorsIssued result.2 = S (pickColorsIssued dc)) ∧
  (pickingMode dc = false → loaded = true →
   last (glCalls result.2) = Some (DisableVertexAttribArray 2) ∧
   pickColor (drawing result.1) = pickColor (drawing this) ∧
   pickColorsIssued result.2 = pickColorsIssued dc) ∧
  (loaded = false →
   glCalls result.2 = glCalls dc ∧
   pickColor (drawing result.1) = pickColor (drawing this) ∧
   pickColorsIssued result.2 = pickColorsIssued dc).
Proof.
  cbv zeta. unfold renderOrdered.
  assert (M : pickingMode (loadTextures dc this).2 = pickingMode dc).
  { apply untouched_loadTextures; first [done | apply pickingMode_retrieveTexture]. }
  assert (I : pickColorsIssued (loadTextures dc this).2 = pickColorsIssued dc).
  { apply untouched_loadTextures; first [done | apply pickColorsIssued_retrieveTexture]. }
  pose proof (loadTextures_spec dc this) as Hspec. cbv zeta in Hspec.
  destruct Hspec as (Hcalls & _ & _).
  assert (C : pickColor (drawing (loadTextures dc this).1) = pickColor (drawing this)).
  { unfold loadTextures. destruct (allTexturesLoaded (drawing this)); [done|].
    assert (Hloop : ∀ es d dc0,
              pickColor (loadTexturesLoop es d dc0).1.2 = pickColor d).
    { induction es as [|e es IH]; intros d dc0; simpl; [done|].
      destruct (loadTexture e dc0) as [[[e' loaded] missing] dc1].
      specialize (IH (if missing then with_partialTexturesLoaded false
                                        (match loaded with
                                         | Some value => with_textureLoaded value d
                                         | None => d
                                         end)
                      else match loaded with
                           | Some value => with_textureLoaded value d
                           | None => d
                           end) dc1).
      destruct (loadTexturesLoop es _ dc1) as [[rest d'] dc2]. simpl in *.
      rewrite IH. by destruct missing, loaded. }
    specialize (Hloop (entities this) (with_partialTexturesLoaded true (drawing this)) dc).
    destruct (loadTexturesLoop _ _ _) as [[es d] dc']. simpl in *.
    by destruct (partialTexturesLoaded d). }
  destruct (loadTextures dc this) as [this1 dc1]. cbn [fst snd] in *.
  destruct (allTexturesLoaded (drawing this1)) eqn:Eloaded; cbn [negb].
  - unfold drawOrderedScene, endDrawing.
    destruct (beginDrawing_pick dc1 this1) as (M2 & I2 & C2).
    destruct (beginDrawing dc1 this1) as [this2 dc2]. cbn [fst snd] in *.
    assert (pickingMode (gl (DisableVertexAttribArray 2)
                            (gl (LoadApplyLighting false) dc2)) = pickingMode dc) as ->
      by (simpl; congruence).
    rewrite M in I2, C2.
    split; [|split]; [| |done].
    + intros Hpick _. rewrite Hpick in *. cbn [fst snd].
      rewrite glCalls_gl, last_snoc, C2. rewrite I in *. repeat split.
      simpl. lia.
    + intros Hpick _. rewrite Hpick in *. cbn [fst snd].
      rewrite glCalls_gl, last_snoc. rewrite I in *. repeat split; [congruence|].
      simpl. lia.
  - cbn [fst snd]. split; [done|]. split; [done|]. intros _. by repeat split.
Qed.

Lemma renderOrdered_resolves_the_pick_witness :
  match new (Some Examples.origin) (Some (Examples.car "models/car/" "tex/tyre.png")) with
  | Return scene =>
      let cache :=
        snd (putResource (NamedKey "models/car/tex/tyre.png") (TextureHandle 1) 4096
                         (emptyCache WorldWind.gpuCacheSize)) in
      let picking := mkDrawContext cache [] true (mkGlobe 0) [] 0 41 (λ _, true) in
      let waiting := mkDrawContext (emptyCache WorldWind.gpuCacheSize) [] true
                                   (mkGlobe 0) [] 0 41 (λ _, true) in
      last (glCalls (renderOrdered picking scene).2) = Some (ResolvePick (Some 42)) ∧
      pickColorsIssued (renderOrdered waiting scene).2 = 41
  | Throw _ => False
  end.
Proof.
  destruct (new (Some Examples.origin) (Some (Examples.car "models/car/" "tex/tyre.png")))
    as [scene|err] eqn:Hnew; [|by vm_compute in Hnew].
  vm_compute in Hnew. injection Hnew as <-.
  intros cache picking waiting.
  match goal with |- last (glCalls (renderOrdered _ ?s).2) = _ ∧ _ => set (scene := s) end.
  destruct (renderOrdered_resolves_the_pick picking scene) as (Hpick & _ & _).
  destruct (renderOrdered_resolves_the_pick waiting scene) as (_ & _ & Hwait).
  split.
  - exact (proj1 (Hpick eq_refl eq_refl)).
  - exact (proj2 (proj2 (Hwait eq_refl))).
Defined.

End ColladaSceneFacts.

(* ===================================================================== *)
(** * Facts about the atmosphere programs                                  *)
(* ===================================================================== *)

Module GlslFacts.
Import Glsl.

Lemma last_omap_snoc {A B} (f : A → option B) (l : list A) (x : A) :
  last (omap f (l ++ [x])) = match f x with Some y => Some y | None => last (omap f l) end.
Proof.
  rewrite omap_app. simpl. destruct (f x) as [y|]; simpl.
  - by rewrite last_snoc.
  - by rewrite app_nil_r.
Qed.

Lemma vectorAt_snoc location gl call :
  vectorAt location (gl ++ [call]) =
    match call with
    | uniform3f l x y z =>
        if decide (l = location) then Some (x, y, z) else vectorAt location gl
    | _ => vectorAt location gl
    end.
Proof.
  unfold vectorAt. rewrite last_omap_snoc.
  destruct call; try done. by destruct (decide _).
Qed.

Lemma matrixAt_snoc location gl call :
  matrixAt location (gl ++ [call]) =
    match call with
    | loadUniformMatrix matrix l =>
        if decide (l = location) then Some matrix else matrixAt location gl
    | _ => matrixAt location gl
    end.
Proof.
  unfold matrixAt. rewrite last_omap_snoc.
  destruct call; try done. by destruct (decide _).
Qed.

End GlslFacts.

Module GroundProgramFacts.
Import Glsl GlslFacts GroundProgram.

Lemma loadVertexOrigin_spec gl vector this :
  loadVertexOrigin gl vector this =
    match vertexOrigin this with
    | Some cached =>
        if Vec3_equals cached vector then (this, gl)
        else (with_vertexOrigin (Some vector) this,
              gl ++ [uniform3f vertexOriginLocation vector.1.1 vector.1.2 vector.2])
    | None =>
        (with_vertexOrigin (Some vector) this,
         gl ++ [uniform3f vertexOriginLocation vector.1.1 vector.1.2 vector.2])
    end.
Proof.
  unfold loadVertexOrigin. destruct this as [e l [c|] f m t]; simpl; [|done].
  by destruct (Vec3_equals c vector).
Qed.

Lemma ground_loadLightDirection_spec gl vector this :
  loadLightDirection gl vector this =
    match lightDirection this with
    | Some cached =>
        if Vec3_equals cached vector then (this, gl)
        else (with_lightDirection (Some vector) this,
              gl ++ [uniform3f lightDirectionLocation vector.1.1 vector.1.2 vector.2])
    | None =>
        (with_lightDirection (Some vector) this,
         gl ++ [uniform3f lightDirectionLocation vector.1.1 vector.1.2 vector.2])
    end.
Proof.
  unfold loadLightDirection. destruct this as [e [c|] v f m t]; simpl; [|done].
  by destruct (Vec3_equals c vector).
Qed.

Lemma ground_run_snoc loads load state : run (loads ++ [load]) state = step (run loads state) load.
Proof. unfold run. by rewrite foldl_app. Qed.

Lemma ground_run_coherent loads :
  let state := run loads (new, []) in
  vectorAt vertexOriginLocation state.2 = vertexOrigin state.1 ∧
  vectorAt lightDirectionLocation state.2 = lightDirection state.1 ∧
  (∀ v, lastVertexOrigin loads = Some v → remembers (vertexOrigin state.1) v) ∧
  (∀ v, lastLightDirection loads = Some v → remembers (lightDirection state.1) v).
Proof.
  induction loads as [|load loads IH] using rev_ind; [by repeat split|].
  cbv zeta in *. rewrite ground_run_snoc.
  destruct (run loads (new, [])) as [this gl]. simpl in IH.
  destruct IH as (Hv & Hl & Hlv & Hll).
  unfold lastVertexOrigin, lastLightDirection in *. rewrite !last_omap_snoc.
  destruct load as [f|m|v|v|v|m|u]; cbn [step].
  - unfold loadFragMode; simpl. rewrite !vectorAt_snoc. done.
  - unfold loadModelviewProjection; simpl. rewrite !vectorAt_snoc. done.
  - rewrite loadVertexOrigin_spec. destruct (vertexOrigin this) as [c|] eqn:Ec.
    + destruct (Vec3_equals c v) eqn:Eq; simpl; rewrite ?vectorAt_snoc; simpl.
      * rewrite Ec. repeat split; try done.
        intros ? [= <-]. exists c. auto.
      * destruct v as [[x y] z]. simpl. repeat split; try done.
        intros ? [= <-]. eexists. eauto.
    + simpl. rewrite !vectorAt_snoc. simpl.
      destruct v as [[x y] z]. simpl. repeat split; try done.
      intros ? [= <-]. eexists. eauto.
  - rewrite ground_loadLightDirection_spec. destruct (lightDirection this) as [c|] eqn:Ec.
    + destruct (Vec3_equals c v) eqn:Eq; simpl; rewrite ?vectorAt_snoc; simpl.
      * rewrite Ec. repeat split; try done.
        intros ? [= <-]. exists c. auto.
      * destruct v as [[x y] z]. simpl. repeat split; try done.
        intros ? [= <-]. eexists. eauto.
    + simpl. rewrite !vectorAt_snoc. simpl.
      destruct v as [[x y] z]. simpl. repeat split; try done.
      intros ? [= <-]. eexists. eauto.
  - unfold loadEyePoint; simpl. rewrite !vectorAt_snoc. simpl. done.
  - unfold loadTexMatrix; simpl. rewrite !vectorAt_snoc. done.
  - unfold loadTextureUnit; simpl. rewrite !vectorAt_snoc. done.
Qed.

(** After any run of loads on a new GroundProgram, the vertex origin and
    the light direction that the program remembers are the ones the
    graphics context holds, and they are the vectors loaded last, or vectors
    that [equals] takes for them; and loading a vector that the program
    remembers makes no call on the graphics context. *)
Theorem GroundProgram_remembers_what_it_loaded
    (loads : list Load) (gl : Gl) (this : LocalState) (cached vector : Vec3) :
  (let state := run loads (new, []) in
   vectorAt vertexOriginLocation state.2 = vertexOrigin state.1 ∧
   vectorAt lightDirectionLocation state.2 = lightDirection state.1 ∧
   (∀ v, lastVertexOrigin loads = Some v → remembers (vertexOrigin state.1) v) ∧
   (∀ v, lastLightDirection loads = Some v → remembers (lightDirection state.1) v)) ∧
  (vertexOrigin this = Some cached → Vec3_equals cached vector = true →
   loadVertexOrigin gl vector this = (this, gl)) ∧
  (lightDirection this = Some cached → Vec3_equals cached vector = true →
   loadLightDirection gl vector this = (this, gl)) ∧
  (vertexOrigin this = None →
   (loadVertexOrigin gl vector this).2
   = gl ++ [uniform3f vertexOriginLocation vector.1.1 vector.1.2 vector.2]) ∧
  (lightDirection this = None →
   (loadLightDirection gl vector this).2
   = gl ++ [uniform3f lightDirectionLocation vector.1.1 vector.1.2 vector.2]).
Proof.
  split; [apply ground_run_coherent|].
  rewrite loadVertexOrigin_spec, ground_loadLightDirection_spec.
  repeat split.
  - by intros -> ->.
  - by intros -> ->.
  - by intros ->.
  - by intros ->.
Qed.

Lemma GroundProgram_remembers_what_it_loaded_witness :
  let sun : Vec3 := (one, zero, zero) in
  (run [LoadLightDirection sun; LoadEyePoint sun; LoadLightDirection sun] (new, [])).2
  = [uniform3f lightDirectionLocation one zero zero;
     uniform3f eyePointLocation one zero zero;
     uniform1f eyeMagnitude2Location one] ∧
  remembers
    (lightDirection
       (run [LoadLightDirection sun; LoadEyePoint sun; LoadLightDirection sun] (new, [])).1)
    sun.
Proof.
  intros sun. split; [reflexivity|].
  exact (proj2 (proj2 (proj2 (proj1 (GroundProgram_remembers_what_it_loaded
           [LoadLightDirection sun; LoadEyePoint sun; LoadLightDirection sun]
           [] new sun sun)))) sun eq_refl).
Defined.

End GroundProgramFacts.

Module SkyProgramFacts.
Import Glsl GlslFacts SkyProgram.

Lemma loadModelviewProjection_spec gl matrix this :
  loadModelviewProjection gl matrix this =
    match mvpMatrix this with
    | Some cached =>
        if Matrix_equals cached matrix then (this, gl)
        else (mkLocalState (Some matrix) (lightDirection this),
              gl ++ [loadUniformMatrix matrix mvpMatrixLocation])
    | None =>
        (mkLocalState (Some matrix) (lightDirection this),
         gl ++ [loadUniformMatrix matrix mvpMatrixLocation])
    end.
Proof.
  unfold loadModelviewProjection. destruct this as [[c|] l]; simpl; [|done].
  by destruct (Matrix_equals c matrix).
Qed.

Lemma sky_loadLightDirection_spec gl vector this :
  loadLightDirection gl vector this =
    match lightDirection this with
    | Some cached =>
        if Vec3_equals cached vector then (this, gl)
        else (mkLocalState (mvpMatrix this) (Some vector),
              gl ++ [uniform3f lightDirectionLocation vector.1.1 vector.1.2 vector.2])
    | None =>
        (mkLocalState (mvpMatrix this) (Some vector),
         gl ++ [uniform3f lightDirectionLocation vector.1.1 vector.1.2 vector.2])
    end.
Proof.
  unfold loadLightDirection. destruct this as [m [c|]]; simpl; [|done].
  by destruct (Vec3_equals c vector).
Qed.

Lemma sky_run_snoc loads load state : run (loads ++ [load]) state = step (run loads state) load.
Proof. unfold run. by rewrite foldl_app. Qed.

Lemma sky_run_coherent loads :
  let state := run loads (new, []) in
  matrixAt mvpMatrixLocation state.2 = mvpMatrix state.1 ∧
  vectorAt lightDirectionLocation state.2 = lightDirection state.1 ∧
  (∀ m, lastModelviewProjection loads = Some m → remembersMatrix (mvpMatrix state.1) m) ∧
  (∀ v, lastLightDirection loads = Some v → remembers (lightDirection state.1) v).
Proof.
  induction loads as [|load loads IH] using rev_ind; [by repeat split|].
  cbv zeta in *. rewrite sky_run_snoc.
  destruct (run loads (new, [])) as [this gl]. simpl in IH.
  destruct IH as (Hm & Hl & Hlm & Hll).
  unfold lastModelviewProjection, lastLightDirection in *. rewrite !last_omap_snoc.
  destruct load as [m|v|v]; cbn [step].
  - rewrite loadModelviewProjection_spec. destruct (mvpMatrix this) as [c|] eqn:Ec.
    + destruct (Matrix_equals c m) eqn:Eq; simpl;
        rewrite ?vectorAt_snoc, ?matrixAt_snoc; simpl.
      * rewrite Ec. repeat split; try done.
        intros ? [= <-]. exists c. auto.
      * repeat split; try done. intros ? [= <-]. eexists. eauto.
    + simpl. rewrite ?vectorAt_snoc, ?matrixAt_snoc. simpl.
      repeat split; try done. intros ? [= <-]. eexists. eauto.
  - rewrite sky_loadLightDirection_spec. destruct (lightDirection this) as [c|] eqn:Ec.
    + destruct (Vec3_equals c v) eqn:Eq; simpl;
        rewrite ?vectorAt_snoc, ?matrixAt_snoc; simpl.
      * rewrite Ec. repeat split; try done.
        intros ? [= <-]. exists c. auto.
      * destruct v as [[x y] z]. simpl. repeat split; try done.
        intros ? [= <-]. eexists. eauto.
    + simpl. rewrite ?vectorAt_snoc, ?matrixAt_snoc. simpl.
      destruct v as [[x y] z]. simpl. repeat split; try done.
      intros ? [= <-]. eexists. eauto.
  - unfold loadEyePoint; simpl. rewrite ?vectorAt_snoc, ?matrixAt_snoc. simpl. done.
Qed.

(** After any run of loads on a new SkyProgram, the modelview-projection
    matrix and the light direction that the program remembers are the ones
    the graphics context holds, and they are the ones loaded last, or ones
    that [equals] takes for them; and loading what the program remembers
    makes no call on the graphics context. *)
Theorem SkyProgram_remembers_what_it_loaded
    (loads : list Load) (gl : Gl) (this : LocalState)
    (cachedMatrix matrix : Matrix) (cached vector : Vec3) :
  (let state := run loads (new, []) in
   matrixAt mvpMatrixLocation state.2 = mvpMatrix state.1 ∧
   vectorAt lightDirectionLocation state.2 = lightDirection state.1 ∧
   (∀ m, lastModelviewProjection loads = Some m →
         remembersMatrix (mvpMatrix state.1) m) ∧
   (∀ v, lastLightDirection loads = Some v → remembers (lightDirection state.1) v)) ∧
  (mvpMatrix this = Some cachedMatrix → Matrix_equals cachedMatrix matrix = true →
   loadModelviewProjection gl matrix this = (this, gl)) ∧
  (lightDirection this = Some cached → Vec3_equals cached vector = true →
   loadLightDirection gl vector this = (this, gl)) ∧
  (mvpMatrix this = None →
   (loadModelviewProjection gl matrix this).2
   = gl ++ [loadUniformMatrix matrix mvpMatrixLocation]).
Proof.
  split; [apply sky_run_coherent|].
  rewrite loadModelviewProjection_spec, sky_loadLightDirection_spec.
  repeat split.
  - by intros -> ->.
  - by intros -> ->.
  - by intros ->.
Qed.

Lemma SkyProgram_remembers_what_it_loaded_witness :
  (run [LoadModelviewProjection fromIdentity; LoadModelviewProjection fromIdentity]
       (new, [])).2
  = [loadUniformMatrix fromIdentity mvpMatrixLocation] ∧
  remembersMatrix
    (mvpMatrix (run [LoadModelviewProjection fromIdentity;
                     LoadModelviewProjection fromIdentity] (new, [])).1)
    fromIdentity.
Proof.
  split; [reflexivity|].
  exact (proj1 (proj2 (proj2 (proj1 (SkyProgram_remembers_what_it_loaded
           [LoadModelviewProjection fromIdentity; LoadModelviewProjection fromIdentity]
           [] new fromIdentity fromIdentity (zero, zero, zero) (zero, zero, zero)))))
           fromIdentity eq_refl).
Defined.

End SkyProgramFacts.
